(** * Request governance layer of the quiz client

    A shallow embedding of the three cooperating source files

    - [src/utils/requestCache.js]    (class RequestCache, cacheConfig,
      getCacheTimeout, the cleanup interval),
    - [src/utils/requestThrottle.js] (class RequestThrottle, apiRequest,
      the queue cleanup interval),
    - [src/hooks/useApiCache.js]     (useApiCache.fetchData,
      useBatchApi.executeBatch),

    together with the properties their design document states about them.

    JavaScript runs these files on one event loop.  Every asynchronous
    function is therefore embedded as a state machine: the part of a call
    that runs synchronously is a function on the state, each [await] leaves
    a suspended frame in the state, and the events of the environment (an
    operation settles, a timer fires, time passes) are the inputs of a
    deterministic [step] function.  [Date.now()] is the [now] argument or
    field. *)

From stdpp Require Import gmap strings list sorting pretty.
From Stdlib Require Import ZArith Lia Ascii.

Open Scope Z_scope.

(** ** JavaScript values and promise outcomes *)

Module Js.

(** The values the cache stores and the operations produce.  [VNull] and
    [VUndefined] are JavaScript's [null] and [undefined]. *)
Inductive value : Type :=
| VUndefined
| VNull
| VNum (n : Z)
| VStr (s : string).

#[global] Instance value_eq_dec : EqDecision value.
Proof. solve_decision. Defined.

(** How a promise settles: with a value, or with a thrown value. *)
Inductive outcome : Type :=
| Fulfilled (v : value)
| Rejected (e : value).

#[global] Instance outcome_eq_dec : EqDecision outcome.
Proof. solve_decision. Defined.

(** [s.includes(sub)] *)
Fixpoint includes (s sub : string) : bool :=
  String.prefix sub s
  || match s with
     | EmptyString => false
     | String _ s' => includes s' sub
     end.

(** [c.toUpperCase()] on one ASCII character. *)
Definition upper_ascii (c : ascii) : ascii :=
  let n := nat_of_ascii c in
  if ((97 <=? n)%nat && (n <=? 122)%nat)%bool then ascii_of_nat (n - 32) else c.

Definition is_ascii (c : ascii) : bool := (nat_of_ascii c <? 128)%nat.

(** [s.toUpperCase()] for a string of ASCII characters.  On other
    characters the language applies the case mapping of Unicode, which can
    turn one character into several and a character outside ASCII into an
    ASCII letter; that mapping is not modelled, and the result for a
    string with such a character is [None]. *)
Fixpoint toUpperCase (s : string) : option string :=
  match s with
  | EmptyString => Some EmptyString
  | String c s' =>
      if is_ascii c then String (upper_ascii c) <$> toUpperCase s' else None
  end.

(** [ToBoolean(v)], the test of [v ? ... : ...]: [undefined], [null], [0]
    and the empty string are falsy. *)
Definition truthy (v : value) : bool :=
  match v with
  | VUndefined | VNull => false
  | VNum n => negb (n =? 0)
  | VStr s => match s with EmptyString => false | String _ _ => true end
  end.

Definition quote_char : ascii := ascii_of_nat 34.
Definition backslash : ascii := ascii_of_nat 92.

Definition hex_digit (n : nat) : ascii :=
  if (n <? 10)%nat then ascii_of_nat (48 + n) else ascii_of_nat (87 + n).

(** One character of a string inside [JSON.stringify]: the quotation mark
    and the backslash are escaped, the control characters are written as
    [\b], [\t], [\n], [\f], [\r] or [\u00XX], every other character
    stands for itself. *)
Definition json_char (c : ascii) : string :=
  let n := nat_of_ascii c in
  let esc (d : ascii) := String backslash (String d EmptyString) in
  if (n =? 34)%nat then esc quote_char
  else if (n =? 92)%nat then esc backslash
  else if (n =? 8)%nat then esc "b"%char
  else if (n =? 9)%nat then esc "t"%char
  else if (n =? 10)%nat then esc "n"%char
  else if (n =? 12)%nat then esc "f"%char
  else if (n =? 13)%nat then esc "r"%char
  else if (n <? 32)%nat then
    String backslash
      (String "u" (String "0" (String "0"
         (String (hex_digit (n / 16)) (String (hex_digit (n mod 16)) EmptyString)))))
  else String c EmptyString.

Fixpoint json_chars (s : string) : string :=
  match s with
  | EmptyString => EmptyString
  | String c s' => json_char c +:+ json_chars s'
  end.

(** [JSON.stringify(v)] as a template literal prints it.  A number is an
    integer here, of a magnitude that a number of the language holds
    exactly (below [2^53]), and is written in decimal digits; a string is
    quoted; [JSON.stringify(undefined)] is [undefined]. *)
Definition JSON_stringify (v : value) : string :=
  match v with
  | VUndefined => "undefined"
  | VNull => "null"
  | VNum n => pretty n
  | VStr s => String quote_char (json_chars s +:+ String quote_char EmptyString)
  end.

(** The delay that [setTimeout(f, ms)] guarantees: [f] runs no earlier
    than [ms] milliseconds later when [ms] fits the signed 32-bit timer.
    Outside that range the runtimes differ (Node sets the delay to 1,
    browsers wrap it and read a negative delay as 0) and guarantee
    nothing. *)
Definition earliest (ms : Z) : Z :=
  if bool_decide (0 ≤ ms ≤ 2147483647) then ms else 0.

(** [arr.includes(x)] on an array of strings *)
Definition array_includes (arr : list string) (x : string) : bool :=
  bool_decide (x ∈ arr).

End Js.

Import Js.

(** ** The deduplicator: [deduplicate] / [deduplicateRequest]

    [RequestCache.deduplicate] and [RequestThrottle.deduplicateRequest] have
    the same body, over the [pendingRequests] map of their object:
<<
    if (this.pendingRequests.has(key)) return this.pendingRequests.get(key);
    const promise = requestFn();
    this.pendingRequests.set(key, promise);
    try     { const result = await promise;
              this.pendingRequests.delete(key); return result; }
    catch (error) { this.pendingRequests.delete(key); throw error; }
>>
    The body is embedded once, as three functions on the map and on the
    promises of the page: the synchronous part of a call ([deduplicate]),
    the settlement of an operation by the environment ([settle]) and the
    continuation after the [await] ([resume]). *)

Module Dedup.

(** The promises and suspended calls of the page.  A promise is a number;
    [requestFn()] returns a fresh one, and it is pending until the
    environment settles it.
    - [settled]: how each settled operation promise settled;
    - [awaiting]: the calls suspended at [await promise], by that promise,
      each with the [key] its continuation will delete;
    - [invoked]: the log of the invocations of [requestFn], with the key of
      the call and the promise returned;
    - [callers]: the log of the calls, each with its key and the operation
      promise whose outcome the promise returned to the caller takes
      (the first caller through [return result] / [throw error], a joining
      caller because an async function that returns a promise adopts it);
    - [next]: the next unused promise number. *)
Record runtime : Type := Runtime {
  settled : gmap nat outcome;
  awaiting : gmap nat string;
  invoked : list (string * nat);
  callers : list (string * nat);
  next : nat
}.

Definition runtime0 : runtime :=
  {| settled := ∅; awaiting := ∅; invoked := []; callers := []; next := 0%nat |}.

(** The synchronous part of one call, up to the [await]. *)
Definition deduplicate (key : string) (pend : gmap string nat) (rt : runtime)
  : gmap string nat * runtime :=
  match pend !! key with
  | Some p =>
      (pend,
       {| settled := settled rt; awaiting := awaiting rt; invoked := invoked rt;
          callers := callers rt ++ [(key, p)]; next := next rt |})
  | None =>
      let p := next rt in
      (<[key := p]> pend,
       {| settled := settled rt; awaiting := <[p := key]> (awaiting rt);
          invoked := invoked rt ++ [(key, p)];
          callers := callers rt ++ [(key, p)]; next := S p |})
  end.

(** The environment settles the operation behind promise [p]: only a
    promise that exists and is still pending can settle. *)
Definition settle (p : nat) (o : outcome) (rt : runtime) : runtime :=
  if bool_decide ((p < next rt)%nat ∧ settled rt !! p = None)
  then {| settled := <[p := o]> (settled rt); awaiting := awaiting rt;
          invoked := invoked rt; callers := callers rt; next := next rt |}
  else rt.

(** The continuation of the call suspended on [p], once [p] has settled:
    both branches run [this.pendingRequests.delete(key)]. *)
Definition resume (p : nat) (pend : gmap string nat) (rt : runtime)
  : gmap string nat * runtime :=
  match awaiting rt !! p, settled rt !! p with
  | Some key, Some _ =>
      (base.delete key pend,
       {| settled := settled rt; awaiting := base.delete p (awaiting rt);
          invoked := invoked rt; callers := callers rt; next := next rt |})
  | _, _ => (pend, rt)
  end.

(** What happens to the deduplicator: a call, a settlement, a
    continuation, or the [clear()] of the owning object, whose effect on
    this state is [this.pendingRequests.clear()]. *)
Inductive event : Type :=
| Call (key : string)
| Settle (p : nat) (o : outcome)
| Resume (p : nat)
| Clear.

#[global] Instance event_eq_dec : EqDecision event.
Proof. solve_decision. Defined.

Definition state : Type := gmap string nat * runtime.

Definition init : state := (∅, runtime0).

Definition step (e : event) (s : state) : state :=
  match e with
  | Call key => deduplicate key s.1 s.2
  | Settle p o => (s.1, settle p o s.2)
  | Resume p => resume p s.1 s.2
  | Clear => (∅, s.2)
  end.

Definition run (evs : list event) (s : state) : state :=
  fold_left (λ s e, step e s) evs s.

(** How often [requestFn] has been invoked for [key]. *)
Definition invocations (key : string) (s : state) : nat :=
  length (filter (λ kp : string * nat, kp.1 = key) (invoked s.2)).

(** The outcome the [c]-th call hands to its caller, once there is one. *)
Definition caller_outcome (s : state) (c : nat) : option outcome :=
  match callers s.2 !! c with
  | Some (_, p) => settled s.2 !! p
  | None => None
  end.

(** [clear()] is permitted when no call is suspended, that is, when no
    operation is in flight; every other event always. *)
Definition permitted (e : event) (s : state) : bool :=
  match e with
  | Clear => bool_decide (awaiting s.2 = ∅)
  | _ => true
  end.

Fixpoint permitted_run (evs : list event) (s : state) : bool :=
  match evs with
  | [] => true
  | e :: evs' => permitted e s && permitted_run evs' (step e s)
  end.

(** The states the deduplicator reaches when [clear()] is not called
    while an operation is in flight. *)
Definition reachable (s : state) : Prop :=
  ∃ evs, permitted_run evs init = true ∧ s = run evs init.

(** An event that leaves the registration made for promise [p] in place:
    anything but the continuation of [p] and [clear()]. *)
Definition keeps (p : nat) (e : event) : Prop := e ≠ Resume p ∧ e ≠ Clear.

End Dedup.

(** ** The response cache: [class RequestCache] *)

Module RequestCache.

(** A cache entry, [{ data, timestamp }]. *)
Record entry : Type := Entry { data : value; timestamp : Z }.

(** The object state.  [pendingRequests] maps a key to the promise of the
    operation registered under it; promises are named by numbers (see
    [Dedup] below, which holds the promises themselves). *)
Record t : Type := Make {
  cache : gmap string entry;
  cacheTimeout : Z;
  pendingRequests : gmap string nat
}.

(** [constructor()] *)
Definition new : t :=
  {| cache := ∅; cacheTimeout := 5 * 60 * 1000; pendingRequests := ∅ |}.

Definition with_cache (c : t) (m : gmap string entry) : t :=
  {| cache := m; cacheTimeout := cacheTimeout c; pendingRequests := pendingRequests c |}.

(** [generateKey(url, method, body)], for a [body] among the values of
    [Js.value] ([null] is the default):
<<
    const bodyStr = body ? JSON.stringify(body) : '';
    return `${method}:${url}:${bodyStr}`;
>> *)
Definition bodyStr (body : value) : string :=
  if truthy body then JSON_stringify body else EmptyString.

Definition generateKey (url method : string) (body : value) : string :=
  method +:+ ":" +:+ url +:+ ":" +:+ bodyStr body.

(** [get(key)]: the returned value and the cache afterwards.  A miss
    returns [null]. *)
Definition get (now : Z) (key : string) (c : t) : value * t :=
  match cache c !! key with
  | None => (VNull, c)
  | Some cached =>
      if bool_decide (now - timestamp cached > cacheTimeout c)
      then (VNull, with_cache c (base.delete key (cache c)))
      else (data cached, c)
  end.

(** [set(key, data)] *)
Definition set (now : Z) (key : string) (d : value) (c : t) : t :=
  with_cache c (<[key := Entry d now]> (cache c)).

(** [delete(key)] *)
Definition delete (key : string) (c : t) : t :=
  with_cache c (base.delete key (cache c)).

(** [clear()] *)
Definition clear (c : t) : t :=
  {| cache := ∅; cacheTimeout := cacheTimeout c; pendingRequests := ∅ |}.

Definition with_pending (c : t) (m : gmap string nat) : t :=
  {| cache := cache c; cacheTimeout := cacheTimeout c; pendingRequests := m |}.

(** [deduplicate(key, requestFn)], up to its [await]: the shared body on
    [this.pendingRequests]. *)
Definition deduplicate (key : string) (c : t) (rt : Dedup.runtime)
  : t * Dedup.runtime :=
  let r := Dedup.deduplicate key (pendingRequests c) rt in
  (with_pending c r.1, r.2).

(** The continuation of [deduplicate] after its [await]. *)
Definition deduplicate_resume (p : nat) (c : t) (rt : Dedup.runtime)
  : t * Dedup.runtime :=
  let r := Dedup.resume p (pendingRequests c) rt in
  (with_pending c r.1, r.2).

(** The operations invoked for [key] that have not settled yet. *)
Definition in_flight (key : string) (rt : Dedup.runtime) : list nat :=
  (filter (λ kp : string * nat, kp.1 = key ∧ Dedup.settled rt !! kp.2 = None)
          (Dedup.invoked rt)).*2.

(** [getStats()], without the list of keys: [(size, pendingRequests)]. *)
Definition getStats (c : t) : nat * nat :=
  (size (cache c), size (pendingRequests c)).

(** The callback of [setInterval(..., 60000)]: the background sweep. *)
Definition cleanup (now : Z) (c : t) : t :=
  with_cache c
    (filter (λ kv : string * entry, ¬ (now - timestamp kv.2 > cacheTimeout c)) (cache c)).

(** One category of [cacheConfig] that has an [endpoints] field. *)
Record category : Type := Category { timeout : Z; endpoints : list string }.

Definition masterData : category :=
  {| timeout := 10 * 60 * 1000;
     endpoints := ["/kategori/"; "/tingkatan/"; "/pendidikan/"] |}.

Definition userData : category :=
  {| timeout := 5 * 60 * 1000;
     endpoints := ["/user/"; "/kelas/get-kelas"] |}.

Definition dynamicData : category :=
  {| timeout := 2 * 60 * 1000;
     endpoints := ["/kuis/"; "/soal/"] |}.

(** [cacheConfig.noCache.methods] *)
Definition noCache_methods : list string := ["POST"; "PUT"; "DELETE"; "PATCH"].

(** [Object.entries(cacheConfig)] restricted to the entries the loop of
    [getCacheTimeout] does not skip ([noCache] has no [endpoints]), in
    property order. *)
Definition cacheConfig : list category := [masterData; userData; dynamicData].

(** The two nested [for] loops of [getCacheTimeout]: the first category
    one of whose endpoints occurs in the url. *)
Fixpoint first_match (url : string) (cfg : list category) : option Z :=
  match cfg with
  | [] => None
  | c :: rest =>
      if existsb (includes url) (endpoints c) then Some (timeout c)
      else first_match url rest
  end.

(** [getCacheTimeout(url, method)]; [c] is the global [requestCache].
    The result is [None] where [method.toUpperCase()] is not modelled. *)
Definition getCacheTimeout (c : t) (url method : string) : option Z :=
  match toUpperCase method with
  | Some upper =>
      if array_includes noCache_methods upper then Some 0
      else match first_match url cacheConfig with
           | Some ttl => Some ttl
           | None => Some (cacheTimeout c)
           end
  | None => None
  end.

End RequestCache.

(** ** The request queue: [class RequestThrottle] *)

Module RequestThrottle.

(** A queued task [{ requestFn, priority, resolve, reject, timestamp }].
    The three functions of a task are named by its number [tid]: the
    operation [requestFn] of task [tid], and the promise that
    [queueRequest] returned for it, which [resolve] and [reject] settle.
    Tasks are numbered in the order of their submission.  [requestFn]
    starts an operation and returns its promise; it does not call the
    queue itself. *)
Record task : Type := Task { tid : nat; priority : Z; timestamp : Z }.

#[global] Instance task_eq_dec : EqDecision task.
Proof. solve_decision. Defined.

(** The fields of the object. *)
Record t : Type := Make {
  pendingRequests : gmap string nat;
  requestQueue : list task;
  isProcessing : bool;
  maxConcurrent : nat;
  requestDelay : Z
}.

(** [constructor()] *)
Definition new : t :=
  {| pendingRequests := ∅; requestQueue := []; isProcessing := false;
     maxConcurrent := 3; requestDelay := 100 |}.

(** One pass of [processQueue] that dispatched tasks, as the log keeps it:
    the tasks in the order their [requestFn] was invoked, the time, and
    the time the previous batch had completed (if any had). *)
Record batch : Type := Batch {
  b_tasks : list task;
  b_start : Z;
  b_prev_end : option Z
}.

(** The object with the event loop around it.
    - [frames]: the calls of [processQueue] suspended at
      [await Promise.allSettled(activeTasks)], each with the tasks of its
      batch whose [executeRequest] has not finished (none: the call is
      ready to resume);
    - [inFlight]: the operations that were invoked and have not settled;
    - [outcomes]: how the promise of each task was settled by [resolve] or
      [reject];
    - [timers]: the due times of the pending
      [setTimeout(() => this.processQueue(), this.requestDelay)];
    - [now]: the clock; [nextId]: the number of the next task;
    - [batches], [lastBatchEnd]: the log of dispatches and the time the
      last batch completed, kept for the statements below (no transition
      reads them). *)
Record world : Type := World {
  obj : t;
  frames : list (list nat);
  inFlight : list nat;
  outcomes : gmap nat outcome;
  timers : list Z;
  now : Z;
  nextId : nat;
  batches : list batch;
  lastBatchEnd : option Z
}.

Definition init : world :=
  {| obj := new; frames := []; inFlight := []; outcomes := ∅; timers := [];
     now := 0; nextId := 0%nat; batches := []; lastBatchEnd := None |}.

(** [a] is placed before [b] by the comparator
    [(a, b) => b.priority - a.priority], that is, the comparator is
    negative. *)
Definition cmp_lt (a b : task) : bool := bool_decide (priority b - priority a < 0).

(** [Array.prototype.sort] with that comparator.  The language standard
    requires the sort to be stable, which determines its result; insertion
    from the right computes it. *)
Fixpoint insert (x : task) (l : list task) : list task :=
  match l with
  | [] => [x]
  | y :: r => if cmp_lt y x then y :: insert x r else x :: y :: r
  end.

Definition sort (l : list task) : list task := foldr insert [] l.

(** The [while] loop of [processQueue]: [shift] tasks into [activeTasks]
    while the queue is not empty and fewer than [maxConcurrent] are
    active; [room] is [maxConcurrent - activeTasks.length]. *)
Fixpoint shift_loop (room : nat) (queue active : list task) : list task * list task :=
  match room, queue with
  | S room', task :: queue' => shift_loop room' queue' (active ++ [task])
  | _, _ => (queue, active)
  end.

(** [processQueue()], up to its [await]. *)
Definition processQueue (w : world) : world :=
  let o := obj w in
  if isProcessing o || bool_decide (length (requestQueue o) = 0%nat) then w
  else
    let r := shift_loop (maxConcurrent o) (requestQueue o) [] in
    {| obj := {| pendingRequests := pendingRequests o; requestQueue := r.1;
                 isProcessing := true; maxConcurrent := maxConcurrent o;
                 requestDelay := requestDelay o |};
       frames := frames w ++ [tid <$> r.2];
       inFlight := inFlight w ++ (tid <$> r.2);
       outcomes := outcomes w; timers := timers w; now := now w;
       nextId := nextId w;
       batches := batches w ++ [Batch r.2 (now w) (lastBatchEnd w)];
       lastBatchEnd := lastBatchEnd w |}.

(** [queueRequest(requestFn, priority)]: push, sort, [processQueue()]. *)
Definition queueRequest (prio : Z) (w : world) : world :=
  let o := obj w in
  let task := Task (nextId w) prio (now w) in
  processQueue
    {| obj := {| pendingRequests := pendingRequests o;
                 requestQueue := sort (requestQueue o ++ [task]);
                 isProcessing := isProcessing o; maxConcurrent := maxConcurrent o;
                 requestDelay := requestDelay o |};
       frames := frames w; inFlight := inFlight w; outcomes := outcomes w;
       timers := timers w; now := now w; nextId := S (nextId w);
       batches := batches w; lastBatchEnd := lastBatchEnd w |}.

(** The rest of [processQueue] after its [await]: one suspended call
    whose batch has settled resumes. *)
Definition processQueue_resume (w : world) : world :=
  let o := obj w in
  {| obj := {| pendingRequests := pendingRequests o; requestQueue := requestQueue o;
               isProcessing := false; maxConcurrent := maxConcurrent o;
               requestDelay := requestDelay o |};
     frames := frames w; inFlight := inFlight w; outcomes := outcomes w;
     timers := if bool_decide (0 < length (requestQueue o))%nat
               then timers w ++ [now w + requestDelay o] else timers w;
     now := now w; nextId := nextId w; batches := batches w;
     lastBatchEnd := Some (now w) |}.

(** The operation of task [x] settles with [o]: [executeRequest] resumes,
    passes the outcome to [resolve] or [reject] and finishes.  A call of
    [processQueue] all of whose batch has finished is then ready to
    resume (its frame is empty), but it has not resumed yet: the
    continuation of the caller of the task runs first. *)
Definition settle (x : nat) (o : outcome) (w : world) : world :=
  if bool_decide (x ∈ inFlight w) then
    {| obj := obj w; frames := (λ f, filter (λ y, y ≠ x) f) <$> frames w;
       inFlight := filter (λ y, y ≠ x) (inFlight w);
       outcomes := <[x := o]> (outcomes w); timers := timers w; now := now w;
       nextId := nextId w; batches := batches w;
       lastBatchEnd := lastBatchEnd w |}
  else w.

(** The calls of [processQueue] that are ready to resume do so, before
    the event loop takes its next task. *)
Definition resume_ready (w : world) : world :=
  Nat.iter (length (filter (λ f, f = []) (frames w))) processQueue_resume
    {| obj := obj w; frames := filter (λ f, f ≠ []) (frames w);
       inFlight := inFlight w; outcomes := outcomes w; timers := timers w;
       now := now w; nextId := nextId w; batches := batches w;
       lastBatchEnd := lastBatchEnd w |}.

(** The [i]-th pending timer fires, no earlier than its due time, and
    calls [processQueue()]. *)
Definition timer_fire (i : nat) (w : world) : world :=
  match timers w !! i with
  | Some due =>
      if bool_decide (due ≤ now w) then
        processQueue
          {| obj := obj w; frames := frames w; inFlight := inFlight w;
             outcomes := outcomes w; timers := base.delete i (timers w);
             now := now w; nextId := nextId w; batches := batches w;
             lastBatchEnd := lastBatchEnd w |}
      else w
  | None => w
  end.

Definition with_obj (w : world) (o : t) : world :=
  {| obj := o; frames := frames w; inFlight := inFlight w; outcomes := outcomes w;
     timers := timers w; now := now w; nextId := nextId w; batches := batches w;
     lastBatchEnd := lastBatchEnd w |}.

(** The callback of [setInterval(..., 10000)]: the staleness sweep. *)
Definition sweep (w : world) : world :=
  let o := obj w in
  with_obj w
    {| pendingRequests := pendingRequests o;
       requestQueue := filter (λ task, now w - timestamp task < 30000) (requestQueue o);
       isProcessing := isProcessing o; maxConcurrent := maxConcurrent o;
       requestDelay := requestDelay o |}.

(** [clear()] *)
Definition clear (w : world) : world :=
  let o := obj w in
  with_obj w
    {| pendingRequests := ∅; requestQueue := []; isProcessing := false;
       maxConcurrent := maxConcurrent o; requestDelay := requestDelay o |}.

(** Time passes. *)
Definition tick (d : Z) (w : world) : world :=
  if bool_decide (0 ≤ d) then
    {| obj := obj w; frames := frames w; inFlight := inFlight w;
       outcomes := outcomes w; timers := timers w; now := now w + d;
       nextId := nextId w; batches := batches w; lastBatchEnd := lastBatchEnd w |}
  else w.

(** The events of the page.
    - [Submit], [Clear]: a call of [queueRequest] or [clear()] from a task
      of the event loop (an event handler, a timer callback);
    - [TimerFire], [Sweep]: the callback of a timer or of the interval;
    - [Tick]: time passes while the event loop waits;
    - [Settle]: the operation of a task settles;
    - [ThenSubmit], [ThenClear]: a call of [queueRequest] or [clear()]
      from the code that runs before the calls of [processQueue] that are
      ready have resumed, that is, from the continuation of the caller
      whose task has just settled. *)
Inductive event : Type :=
| Submit (prio : Z)
| Settle (x : nat) (o : outcome)
| TimerFire (i : nat)
| Tick (d : Z)
| Sweep
| Clear
| ThenSubmit (prio : Z)
| ThenClear.

(** The events before which the continuations that are ready have run:
    a task of the event loop starts with no continuation left to run. *)
Definition own_task (e : event) : bool :=
  match e with
  | Settle _ _ | ThenSubmit _ | ThenClear => false
  | _ => true
  end.

(** The call or callback of an event. *)
Definition action (e : event) (w : world) : world :=
  match e with
  | Submit prio | ThenSubmit prio => queueRequest prio w
  | Settle x o => settle x o w
  | TimerFire i => timer_fire i w
  | Tick d => tick d w
  | Sweep => sweep w
  | Clear | ThenClear => clear w
  end.

Definition step (e : event) (w : world) : world :=
  action e (if own_task e then resume_ready w else w).

Definition run (evs : list event) (w : world) : world :=
  fold_left (λ w e, step e w) evs w.

(** The tasks in the order in which their operation was invoked. *)
Definition dispatch_order (w : world) : list task :=
  mjoin (b_tasks <$> batches w).

(** The states reached from a new object by any events, and those
    reached when [clear()] is not called while a call of [processQueue]
    is suspended. *)
Definition reachable (w : world) : Prop := ∃ evs, w = run evs init.




(** [a] goes before [b]: higher priority, or equal priority and submitted
    earlier. *)
Definition before (a b : task) : Prop :=
  priority a > priority b ∨ (priority a = priority b ∧ (tid a < tid b)%nat).

(** [apiRequest.immediate], [.normal], [.background] *)
Definition immediate : event := Submit 10.
Definition normal : event := Submit 5.
Definition background : event := Submit 1.

(** [deduplicateRequest(key, requestFn)], up to its [await], and its
    continuation: the shared body on [this.pendingRequests]. *)
Definition deduplicateRequest (key : string) (c : t) (rt : Dedup.runtime)
  : t * Dedup.runtime :=
  let r := Dedup.deduplicate key (pendingRequests c) rt in
  ({| pendingRequests := r.1; requestQueue := requestQueue c;
      isProcessing := isProcessing c; maxConcurrent := maxConcurrent c;
      requestDelay := requestDelay c |}, r.2).

End RequestThrottle.

(** ** The cache-aware fetch hook: [useApiCache] *)

Module UseApiCache.

(** An entry of [globalCache], [{ data, timestamp }]. *)
Record entry : Type := Entry { data : value; timestamp : Z }.

Definition CACHE_DURATION : Z := 5 * 60 * 1000.

(** The options of one use of the hook; [cacheKey] is [finalCacheKey]. *)
Record options : Type := Options {
  cacheKey : string;
  cacheDuration : Z;
  enabled : bool;
  retryCount : nat;
  retryDelay : Z
}.

(** The defaults of the destructuring of [options]. *)
Definition defaults (key : string) : options :=
  {| cacheKey := key; cacheDuration := CACHE_DURATION; enabled := true;
     retryCount := 3; retryDelay := 1000 |}.

(** A promise is pending, settled, or resolved with another promise, whose
    outcome it will take (an async function that returns a promise). *)
Inductive pstate : Type :=
| Pending
| Settled (o : outcome)
| Follows (p : nat).

(** The suspended functions, each with the promise it will settle
    ([self]) and the promise it awaits:
    - [AwaitPending]: [fetchData] at [await pendingRequests.get(finalCacheKey)];
    - [AwaitRequest]: [fetchData] at [await requestPromise];
    - [AwaitApi]: the inner async function at [await apiFunction()], with
      the [now] that [fetchData] read before it. *)
Inductive frame : Type :=
| AwaitPending (self awaited : nat)
| AwaitRequest (self awaited : nat)
| AwaitApi (self awaited : nat) (now0 : Z).

Definition awaited_of (f : frame) : nat :=
  match f with
  | AwaitPending _ a | AwaitRequest _ a | AwaitApi _ a _ => a
  end.

(** The module-level maps, the state and refs of one hook, and the event
    loop.
    - [apiCalls]: how often [apiFunction] has been invoked;
    - [apiPending]: the promises it returned that have not settled;
    - [timers]: the inner functions suspended at
      [await new Promise(resolve => setTimeout(resolve, ...))], each with
      its promise and the earliest time its timer can fire;
    - [onErrorLog]: the arguments of the calls of [onError]. *)
Record world : Type := World {
  globalCache : gmap string entry;
  pendingRequests : gmap string nat;
  st_data : value;
  st_loading : bool;
  st_error : value;
  retryCountRef : nat;
  mountedRef : bool;
  promises : gmap nat pstate;
  frames : list frame;
  apiCalls : nat;
  apiPending : list nat;
  timers : list (nat * Z);
  now : Z;
  next : nat;
  onErrorLog : list value
}.

Definition init : world :=
  {| globalCache := ∅; pendingRequests := ∅; st_data := VNull;
     st_loading := false; st_error := VNull; retryCountRef := 0%nat;
     mountedRef := true; promises := ∅; frames := []; apiCalls := 0%nat;
     apiPending := []; timers := []; now := 0; next := 0%nat; onErrorLog := [] |}.

(** The outcome of promise [p], if it has one, through the promises it
    follows. *)
Fixpoint resolved_in (fuel : nat) (ps : gmap nat pstate) (p : nat) : option outcome :=
  match fuel with
  | O => None
  | S fuel' =>
      match ps !! p with
      | Some (Settled o) => Some o
      | Some (Follows q) => resolved_in fuel' ps q
      | _ => None
      end
  end.

(** A chain of promises that follow one another without repetition is no
    longer than the number of promises; a longer one repeats and never
    settles. *)
Definition resolved (w : world) (p : nat) : option outcome :=
  resolved_in (S (next w)) (promises w) p.

Section Hook.

Variable opt : options.

(** State updates, written as record updates. *)
Definition set_promise (p : nat) (ps : pstate) (w : world) : world :=
  {| globalCache := globalCache w; pendingRequests := pendingRequests w;
     st_data := st_data w; st_loading := st_loading w; st_error := st_error w;
     retryCountRef := retryCountRef w; mountedRef := mountedRef w;
     promises := <[p := ps]> (promises w); frames := frames w;
     apiCalls := apiCalls w; apiPending := apiPending w; timers := timers w;
     now := now w; next := next w; onErrorLog := onErrorLog w |}.

(** A new pending promise. *)
Definition alloc (w : world) : nat * world :=
  (next w,
   {| globalCache := globalCache w; pendingRequests := pendingRequests w;
      st_data := st_data w; st_loading := st_loading w; st_error := st_error w;
      retryCountRef := retryCountRef w; mountedRef := mountedRef w;
      promises := <[next w := Pending]> (promises w); frames := frames w;
      apiCalls := apiCalls w; apiPending := apiPending w; timers := timers w;
      now := now w; next := S (next w); onErrorLog := onErrorLog w |}).

(** [setData(d); setLoading(l); setError(e)] *)
Definition set_state (d : value) (l : bool) (e : value) (w : world) : world :=
  {| globalCache := globalCache w; pendingRequests := pendingRequests w;
     st_data := d; st_loading := l; st_error := e;
     retryCountRef := retryCountRef w; mountedRef := mountedRef w;
     promises := promises w; frames := frames w;
     apiCalls := apiCalls w; apiPending := apiPending w; timers := timers w;
     now := now w; next := next w; onErrorLog := onErrorLog w |}.

Definition set_maps (c : gmap string entry) (pr : gmap string nat) (w : world) : world :=
  {| globalCache := c; pendingRequests := pr;
     st_data := st_data w; st_loading := st_loading w; st_error := st_error w;
     retryCountRef := retryCountRef w; mountedRef := mountedRef w;
     promises := promises w; frames := frames w;
     apiCalls := apiCalls w; apiPending := apiPending w; timers := timers w;
     now := now w; next := next w; onErrorLog := onErrorLog w |}.

Definition set_loop (fs : list frame) (calls : nat) (pend : list nat)
    (ts : list (nat * Z)) (w : world) : world :=
  {| globalCache := globalCache w; pendingRequests := pendingRequests w;
     st_data := st_data w; st_loading := st_loading w; st_error := st_error w;
     retryCountRef := retryCountRef w; mountedRef := mountedRef w;
     promises := promises w; frames := fs;
     apiCalls := calls; apiPending := pend; timers := ts;
     now := now w; next := next w; onErrorLog := onErrorLog w |}.

Definition set_retry (n : nat) (log : list value) (w : world) : world :=
  {| globalCache := globalCache w; pendingRequests := pendingRequests w;
     st_data := st_data w; st_loading := st_loading w; st_error := st_error w;
     retryCountRef := n; mountedRef := mountedRef w;
     promises := promises w; frames := frames w;
     apiCalls := apiCalls w; apiPending := apiPending w; timers := timers w;
     now := now w; next := next w; onErrorLog := log |}.

Definition set_now (t : Z) (w : world) : world :=
  {| globalCache := globalCache w; pendingRequests := pendingRequests w;
     st_data := st_data w; st_loading := st_loading w; st_error := st_error w;
     retryCountRef := retryCountRef w; mountedRef := mountedRef w;
     promises := promises w; frames := frames w;
     apiCalls := apiCalls w; apiPending := apiPending w; timers := timers w;
     now := t; next := next w; onErrorLog := onErrorLog w |}.

Definition add_frame (f : frame) (w : world) : world :=
  set_loop (frames w ++ [f]) (apiCalls w) (apiPending w) (timers w) w.

(** The test [cached && (now - cached.timestamp) < cacheDuration && !isRetry]
    with the data of the hit. *)
Definition cache_hit (isRetry : bool) (w : world) : option value :=
  match globalCache w !! cacheKey opt with
  | Some cached =>
      if bool_decide (now w - timestamp cached < cacheDuration opt) && negb isRetry
      then Some (data cached) else None
  | None => None
  end.

(** [fetchData(isRetry)] up to its first [await] or its [return]: the
    promise it returns and the state it leaves. *)
Definition fetchData (isRetry : bool) (w0 : world) : nat * world :=
  let '(self, w) := alloc w0 in
  if negb (enabled opt)
  then (self, set_promise self (Settled (Fulfilled VUndefined)) w)
  else
    let now0 := now w in
    match cache_hit isRetry w with
    | Some d =>
        (self, set_promise self (Settled (Fulfilled d)) (set_state d false VNull w))
    | None =>
        match pendingRequests w !! cacheKey opt with
        | Some p => (self, add_frame (AwaitPending self p) w)
        | None =>
            if negb (mountedRef w)
            then (self, set_promise self (Settled (Fulfilled VUndefined)) w)
            else
              let w := set_state (st_data w) true VNull w in
              (* the inner async function runs up to [await apiFunction()] *)
              let '(req, w) := alloc w in
              let '(api, w) := alloc w in
              let w := set_loop (frames w ++ [AwaitApi req api now0])
                                (S (apiCalls w)) (apiPending w ++ [api])
                                (timers w) w in
              (* pendingRequests.set(finalCacheKey, requestPromise) *)
              let w := set_maps (globalCache w)
                                (<[cacheKey opt := req]> (pendingRequests w)) w in
              (self, add_frame (AwaitRequest self req) w)
        end
    end.

(** The continuation of a suspended function whose awaited promise has
    the outcome [o]. *)
Definition resume (f : frame) (o : outcome) (w : world) : world :=
  match f, o with
  | AwaitPending self _, Fulfilled result =>
      let w := if mountedRef w then set_state result false VNull w else w in
      set_promise self (Settled (Fulfilled result)) w
  | AwaitPending self _, Rejected err =>
      let w := if mountedRef w then set_state (st_data w) false err w else w in
      set_promise self (Settled (Rejected err)) w
  | AwaitRequest self _, Fulfilled result =>
      let w := if mountedRef w then set_state result false (st_error w) w else w in
      let w := set_maps (globalCache w) (base.delete (cacheKey opt) (pendingRequests w)) w in
      set_promise self (Settled (Fulfilled result)) w
  | AwaitRequest self _, Rejected err =>
      let w := if mountedRef w then set_state (st_data w) false err w else w in
      let w := set_maps (globalCache w) (base.delete (cacheKey opt) (pendingRequests w)) w in
      set_promise self (Settled (Rejected err)) w
  | AwaitApi self _ now0, Fulfilled result =>
      let w := set_maps (<[cacheKey opt := Entry result now0]> (globalCache w))
                        (pendingRequests w) w in
      let w := set_retry 0 (onErrorLog w) w in
      set_promise self (Settled (Fulfilled result)) w
  | AwaitApi self _ _, Rejected err =>
      if bool_decide (retryCountRef w < retryCount opt)%nat then
        let w := set_retry (S (retryCountRef w)) (onErrorLog w) w in
        set_loop (frames w) (apiCalls w) (apiPending w)
                 (timers w ++ [(self, now w + earliest (retryDelay opt * Z.of_nat (retryCountRef w)))]) w
      else
        let w := set_retry (retryCountRef w) (onErrorLog w ++ [err]) w in
        set_promise self (Settled (Rejected err)) w
  end.

(** The first suspended function whose awaited promise has an outcome,
    with that outcome and the other frames. *)
Fixpoint runnable (w : world) (fs : list frame) : option (frame * outcome * list frame) :=
  match fs with
  | [] => None
  | f :: rest =>
      match resolved w (awaited_of f) with
      | Some o => Some (f, o, rest)
      | None =>
          match runnable w rest with
          | Some (g, o, rest') => Some (g, o, f :: rest')
          | None => None
          end
      end
  end.

(** Continuations run until none is runnable.  A continuation removes its
    frame and adds none, so as many rounds as there are frames suffice. *)
Fixpoint drain (rounds : nat) (w : world) : world :=
  match rounds with
  | O => w
  | S rounds' =>
      match runnable w (frames w) with
      | Some (f, o, rest) =>
          drain rounds' (resume f o (set_loop rest (apiCalls w) (apiPending w) (timers w) w))
      | None => w
      end
  end.

Definition microtasks (w : world) : world := drain (length (frames w)) w.

(** The promise [p] returned by [apiFunction] settles with [o]. *)
Definition api_settle (p : nat) (o : outcome) (w : world) : world :=
  if bool_decide (p ∈ apiPending w) then
    microtasks
      (set_promise p (Settled o)
         (set_loop (frames w) (apiCalls w) (filter (λ q, q ≠ p) (apiPending w))
                   (timers w) w))
  else w.

(** The retry timer of the inner function with promise [self] fires, no
    earlier than it is due: the function runs [return fetchData(true)], so
    its promise follows the one that call returns. *)
Definition timer_fire (self : nat) (w : world) : world :=
  match list_find (λ t : nat * Z, t.1 = self) (timers w) with
  | Some (i, (_, due)) =>
      if bool_decide (due ≤ now w) then
        let w := set_loop (frames w) (apiCalls w) (apiPending w)
                          (base.delete i (timers w)) w in
        let '(p, w) := fetchData true w in
        microtasks (set_promise self (Follows p) w)
      else w
  | None => w
  end.

Inductive event : Type :=
| Fetch
| ApiSettle (p : nat) (o : outcome)
| TimerFire (self : nat)
| Tick (d : Z).

Definition step (e : event) (w : world) : world :=
  match e with
  | Fetch => microtasks (fetchData false w).2
  | ApiSettle p o => api_settle p o w
  | TimerFire self => timer_fire self w
  | Tick d => if bool_decide (0 ≤ d) then set_now (now w + d) w else w
  end.

Definition run (evs : list event) (w : world) : world :=
  fold_left (λ w e, step e w) evs w.

(** Nothing is left that could change the state: no call of the
    operation is outstanding, no timer is pending and no continuation is
    runnable. *)
Definition quiescent (w : world) : Prop :=
  apiPending w = [] ∧ timers w = [] ∧ runnable w (frames w) = None.

End Hook.

End UseApiCache.

(** ** The batch runner: [useBatchApi] *)

Module UseBatchApi.

(** The state of the hook.  [progress] is a percentage; the model keeps
    the values [executeBatch] sets at its start and in its [finally], the
    ones in between are overwritten before it returns. *)
Record hook : Type := Hook {
  results : list value;
  loading : bool;
  error : value;
  progress : Z
}.

(** [useState([])], [useState(false)], [useState(null)], [useState(0)] *)
Definition hook0 : hook :=
  {| results := []; loading := false; error := VNull; progress := 0 |}.

(** An element of [apiCalls] is represented by the outcome of the promise
    it returns when it is called. *)
Definition apiCall : Type := outcome.

(** [arr.slice(i, j)] for [0 <= i <= j] *)
Definition slice {A : Type} (i j : nat) (arr : list A) : list A :=
  take (j - i) (drop i arr).

(** [arr[idx] = v]: an assignment past the end extends the array, the
    slots in between read as [undefined]. *)
Definition js_set (idx : nat) (v : value) (arr : list value) : list value :=
  if bool_decide (idx < length arr)%nat then <[idx := v]> arr
  else arr ++ replicate (idx - length arr) VUndefined ++ [v].

(** The async arrow function of [batch.map]: after its random delay it
    awaits the call, and its [catch] turns a failure into [null]. *)
Definition guarded (call : apiCall) : outcome :=
  match call with
  | Fulfilled v => Fulfilled v
  | Rejected _ => Fulfilled VNull
  end.

(** The callback of [batchResults.forEach], on the [index]-th result of
    [Promise.allSettled] for the batch that starts at [i]. *)
Definition store (i : nat) (allResults : list value) (index : nat) (result : outcome)
  : list value :=
  match result with
  | Fulfilled v => js_set (i + index) v allResults
  | Rejected _ => js_set (i + index) VNull allResults
  end.

Definition forEach_store (i : nat) (batchResults : list outcome) (allResults : list value)
  : list value :=
  fold_left (λ acc ir, store i acc ir.1 ir.2) (imap pair batchResults) allResults.

(** The calls of a batch are not made in the order of the list: the
    arrow function of [batch.map] waits for a timer of
    [Math.random() * delay] first.  [wait k] is the delay of the timer of
    the call at index [k]; the timers of a batch are set in one task, in
    the order of the list, and fire in the order of their delays, those
    with the same delay in the order they were set. *)
Fixpoint fire_after (wait : nat → Z) (k : nat) (fired : list nat) : list nat :=
  match fired with
  | [] => [k]
  | k' :: rest =>
      if bool_decide (wait k' < wait k) then k' :: fire_after wait k rest
      else k :: k' :: rest
  end.

Definition firing_order (wait : nat → Z) (indices : list nat) : list nat :=
  foldr (fire_after wait) [] indices.

(** The [for] loop of [executeBatch], from index [i]: the final
    [allResults] and the indices of the calls in the order they were
    made.  The loop of the source has no bound of its own; [fuel] bounds
    the number of iterations, and [None] means the bound was reached. *)
Fixpoint loop (fuel : nat) (wait : nat → Z) (apiCalls : list apiCall) (batchSize i : nat)
    (allResults : list value) (called : list nat) : option (list value * list nat) :=
  match fuel with
  | O => None
  | S fuel' =>
      if bool_decide (i < length apiCalls)%nat then
        let batch := slice i (i + batchSize) apiCalls in
        let batchResults := guarded <$> batch in
        loop fuel' wait apiCalls batchSize (i + batchSize)
             (forEach_store i batchResults allResults)
             (called ++ firing_order wait (seq i (length batch)))
      else Some (allResults, called)
  end.

(** [executeBatch()]: the state of the hook when the returned promise
    settles, and the indices of the calls in the order they were made. *)
Definition executeBatch (fuel : nat) (wait : nat → Z) (enabled : bool) (batchSize : nat)
    (apiCalls : list apiCall) (h : hook) : option (hook * list nat) :=
  if negb enabled || bool_decide (length apiCalls = 0%nat) then Some (h, [])
  else
    match loop fuel wait apiCalls batchSize 0 [] [] with
    | Some (allResults, called) =>
        Some ({| results := allResults; loading := false; error := VNull;
                 progress := 100 |}, called)
    | None => None
    end.

(** The output the design document asks for: the value of each call that
    succeeded, [null] for each that failed, in the order of the input. *)
Definition aligned (apiCalls : list apiCall) : list value :=
  (λ call, match call with Fulfilled v => v | Rejected _ => VNull end) <$> apiCalls.

End UseBatchApi.

(** * Properties *)

(** ** The response cache *)

Module RequestCacheProofs.
Import RequestCache.

Lemma lookup_after_set (c : t) (key : string) (d : value) (T : Z) :
  cache (set T key d c) !! key = Some (Entry d T).
Proof. unfold set; simpl. apply lookup_insert_eq. Qed.

Lemma cacheTimeout_set (c : t) (key : string) (d : value) (T : Z) :
  cacheTimeout (set T key d c) = cacheTimeout c.
Proof. reflexivity. Qed.

(** C3, as the design document states it, fails: it asks for [get] to
    return absent whenever [T' - T >= ttl], but an entry stored at [0] is
    still returned at [T' = ttl] exactly. *)
Lemma get_at_ttl_not_absent :
  ¬ (∀ (key : string) (d : value) (T T' : Z),
        T' - T >= cacheTimeout new →
        (get T' key (set T key d new)).1 = VNull).
Proof.
  intros H. specialize (H "k" (VNum 7) 0 300000).
  vm_compute in H. discriminate H; intros Hc; discriminate Hc.
Qed.

(** C3 (amended): a value stored under [key] at time [T] and read at time
    [T'] is returned unchanged, and the cache is left as it is, iff
    [T' - T <= cacheTimeout]; for every read with [T' - T > cacheTimeout],
    [get] returns [null] and deletes the entry as a side effect of the
    lookup. *)
Theorem get_after_set (c : t) (key : string) (d : value) (T T' : Z) :
  get T' key (set T key d c) =
    if bool_decide (T' - T ≤ cacheTimeout c)
    then (d, set T key d c)
    else (VNull, delete key (set T key d c)).
Proof.
  unfold get. rewrite lookup_after_set, cacheTimeout_set. simpl.
  repeat case_bool_decide; try lia; reflexivity.
Qed.

(** The sweep uses the same test and the same single timeout. *)
Lemma cleanup_after_set (c : t) (key : string) (d : value) (T now : Z) :
  cache (cleanup now (set T key d c)) !! key =
    if bool_decide (now - T ≤ cacheTimeout c) then Some (Entry d T) else None.
Proof.
  unfold cleanup; simpl. rewrite map_lookup_filter, lookup_insert_eq. simpl.
  case_bool_decide.
  - rewrite option_guard_True; [done|simpl; lia].
  - rewrite option_guard_False; [done|simpl; lia].
Qed.

(** C4 at its failing inputs.  The tier of a master-data url is ten
    minutes, of a dynamic-data url two minutes, and of a [POST] zero; but
    [get] and the sweep apply the one [cacheTimeout] of five minutes to
    every key, and [set] stores whatever it is given: the master-data
    entry is gone after six minutes, the dynamic-data entry is still
    served after three, and the response of a [POST] is cached. *)
Theorem tiers_not_applied :
  let master := generateKey "/kategori/get-kategori" "GET" VNull in
  let dynamic := generateKey "/kuis/get-kuis" "GET" VNull in
  let mutation := generateKey "/kuis/add-kuis" "POST" (VStr "{}") in
  getCacheTimeout new "/kategori/get-kategori" "GET" = Some 600000
  ∧ (get 360000 master (set 0 master (VNum 1) new)).1 = VNull
  ∧ cache (cleanup 360000 (set 0 master (VNum 1) new)) !! master = None
  ∧ getCacheTimeout new "/kuis/get-kuis" "GET" = Some 120000
  ∧ (get 180000 dynamic (set 0 dynamic (VNum 2) new)).1 = VNum 2
  ∧ cache (cleanup 180000 (set 0 dynamic (VNum 2) new)) !! dynamic
      = Some (Entry (VNum 2) 0)
  ∧ getCacheTimeout new "/kuis/add-kuis" "POST" = Some 0
  ∧ (get 1 mutation (set 0 mutation (VNum 3) new)).1 = VNum 3.
Proof. vm_compute. repeat split; reflexivity. Qed.

End RequestCacheProofs.

(** ** The deduplicator *)

Module DedupProofs.
Import Dedup.

Lemma dedup_run_app (evs1 evs2 : list event) (s : state) :
  run (evs1 ++ evs2) s = run evs2 (run evs1 s).
Proof. unfold run. apply fold_left_app. Qed.

Lemma dedup_run_snoc (evs : list event) (e : event) (s : state) :
  run (evs ++ [e]) s = step e (run evs s).
Proof. rewrite dedup_run_app. reflexivity. Qed.

(** Every suspended call is the one registered under its key. *)
Definition registered_frames (s : state) : Prop :=
  ∀ p k, awaiting s.2 !! p = Some k → s.1 !! k = Some p.

Lemma registered_frames_init : registered_frames init.
Proof. intros p k H. simpl in H. rewrite lookup_empty in H. discriminate. Qed.

Lemma registered_frames_step (e : event) (s : state) :
  permitted e s = true → registered_frames s → registered_frames (step e s).
Proof.
  intros Hne Hinv. destruct s as [pend rt]. destruct e as [key|p o|p|]; simpl.
  - unfold deduplicate. destruct (pend !! key) as [p|] eqn:Hk; [exact Hinv|].
    intros q k; simpl. destruct (decide (q = next rt)) as [->|Hq].
    + rewrite lookup_insert_eq. intros [= <-]. apply lookup_insert_eq.
    + rewrite lookup_insert_ne by done. intros Hq'. pose proof (Hinv _ _ Hq') as Hp.
      simpl in Hp. rewrite lookup_insert_ne; [exact Hp|]. intros ->. congruence.
  - unfold settle. case_bool_decide; exact Hinv.
  - unfold resume. destruct (awaiting rt !! p) as [key|] eqn:Ha; [|exact Hinv].
    destruct (settled rt !! p); [|exact Hinv].
    intros q k; simpl. destruct (decide (q = p)) as [->|Hq].
    + rewrite lookup_delete_eq. discriminate.
    + rewrite lookup_delete_ne by done. intros Hq'. pose proof (Hinv _ _ Hq') as Hp.
      simpl in Hp. rewrite lookup_delete_ne; [exact Hp|].
      intros ->. apply Hinv in Ha. simpl in Ha. congruence.
  - simpl in Hne. apply bool_decide_eq_true in Hne. intros p k; simpl.
    rewrite Hne, lookup_empty. discriminate.
Qed.

Lemma keeps_permitted (p : nat) (e : event) (s : state) : keeps p e → permitted e s = true.
Proof. intros [_ Hclr]. by destruct e. Qed.

Lemma registered_frames_run (evs : list event) (s : state) :
  registered_frames s → permitted_run evs s = true → registered_frames (run evs s).
Proof.
  revert s. induction evs as [|e evs IH]; intros s Hinv Hp; [done|].
  simpl in Hp. apply andb_true_iff in Hp as [He Hp].
  simpl. apply IH; [by apply registered_frames_step|done].
Qed.

Lemma reachable_registered_frames (s : state) : reachable s → registered_frames s.
Proof.
  intros (evs & Hevs & ->).
  apply registered_frames_run; [apply registered_frames_init|done].
Qed.

(** The call suspended on [p] is registered under [key]. *)
Definition registration (key : string) (p : nat) (s : state) : Prop :=
  s.1 !! key = Some p ∧ awaiting s.2 !! p = Some key ∧ (p < next s.2)%nat.

Lemma invocations_snoc (key k : string) (p : nat) (pend : gmap string nat) (rt : runtime) :
  invocations key (pend, {| settled := settled rt; awaiting := <[p := k]> (awaiting rt);
                            invoked := invoked rt ++ [(k, p)];
                            callers := callers rt ++ [(k, p)]; next := S p |})
  = (invocations key (pend, rt) + (if decide (k = key) then 1 else 0))%nat.
Proof.
  unfold invocations; simpl. rewrite filter_app, length_app. f_equal.
  destruct (decide (k = key)) as [->|Hk].
  - rewrite filter_cons_True by done. reflexivity.
  - rewrite filter_cons_False by done. reflexivity.
Qed.

(** The event added no call to the log. *)
Ltac no_new_callers :=
  exists []; rewrite app_nil_r; split; [done|];
  intros ? Hin; by apply elem_of_nil in Hin.

(** One event that keeps the registration of [p]: it is still there
    afterwards, the operation of [key] is not invoked again, and a call
    for [key] made by the event is bound to [p]. *)
Lemma window_step (key : string) (p : nat) (e : event) (s : state) :
  keeps p e → registered_frames s → registration key p s →
  registration key p (step e s)
  ∧ invocations key (step e s) = invocations key s
  ∧ ∃ new, callers (step e s).2 = callers s.2 ++ new
           ∧ ∀ q, (key, q) ∈ new → q = p.
Proof.
  intros [Hres Hclr] Hinv (Hk & Ha & Hlt). destruct s as [pend rt]. simpl in *.
  destruct e as [k|q o|q|]; simpl.
  - unfold deduplicate. destruct (pend !! k) as [q|] eqn:Hq.
    + split; [done|]. split; [done|]. exists [(k, q)]. split; [done|].
      intros q' Hin. apply list_elem_of_singleton in Hin. injection Hin as <- <-.
      congruence.
    + assert (k ≠ key) as Hne by congruence.
      split; [|split].
      * repeat split; simpl.
        -- by rewrite lookup_insert_ne.
        -- rewrite lookup_insert_ne; [done|lia].
        -- lia.
      * rewrite invocations_snoc. destruct (decide (k = key)); [done|].
        unfold invocations; simpl; lia.
      * exists [(k, next rt)]. split; [done|].
        intros q' Hin. apply list_elem_of_singleton in Hin. congruence.
  - unfold settle. case_bool_decide; (split; [done|]; split; [done|]); no_new_callers.
  - assert (q ≠ p) as Hqp by congruence.
    unfold resume. destruct (awaiting rt !! q) as [k|] eqn:Hq.
    2:{ split; [done|]. split; [done|]. no_new_callers. }
    destruct (settled rt !! q).
    2:{ split; [done|]. split; [done|]. no_new_callers. }
    assert (k ≠ key) as Hne.
    { intros ->. apply Hinv in Hq. simpl in Hq. congruence. }
    split; [|split].
    + repeat split; simpl.
      * by rewrite lookup_delete_ne.
      * by rewrite lookup_delete_ne.
      * done.
    + done.
    + no_new_callers.
  - done.
Qed.

Lemma window_run (key : string) (p : nat) (evs : list event) (s : state) :
  Forall (keeps p) evs → registered_frames s → registration key p s →
  registered_frames (run evs s)
  ∧ registration key p (run evs s)
  ∧ invocations key (run evs s) = invocations key s
  ∧ ∃ new, callers (run evs s).2 = callers s.2 ++ new
           ∧ ∀ q, (key, q) ∈ new → q = p.
Proof.
  intros Hevs. induction evs as [|e evs IH] using rev_ind; intros Hinv Hreg.
  - split; [done|]. split; [done|]. split; [done|]. no_new_callers.
  - apply Forall_app in Hevs as [Hevs He]. inversion He as [|? ? Hk _]; subst.
    destruct (IH Hevs Hinv Hreg) as (Hinv' & Hreg' & Hcount & new & Hnew & Hall).
    rewrite dedup_run_snoc.
    destruct (window_step key p e (run evs s) Hk Hinv' Hreg')
      as (Hreg'' & Hcount' & new' & Hnew' & Hall').
    split; [apply registered_frames_step; [by eapply keeps_permitted|done]|].
    split; [done|]. split; [congruence|].
    exists (new ++ new'). rewrite Hnew', Hnew, app_assoc. split; [done|].
    intros q Hin. apply elem_of_app in Hin as [Hin|Hin]; auto.
Qed.

(** The first call for a key that has no registration. *)
Lemma first_call (key : string) (s : state) :
  s.1 !! key = None →
  registration key (next s.2) (step (Call key) s)
  ∧ invocations key (step (Call key) s) = S (invocations key s)
  ∧ callers (step (Call key) s).2 = callers s.2 ++ [(key, next s.2)].
Proof.
  intros Hk. destruct s as [pend rt]; simpl in *. unfold deduplicate. rewrite Hk.
  split; [|split].
  - repeat split; simpl; [apply lookup_insert_eq|apply lookup_insert_eq|lia].
  - rewrite invocations_snoc. destruct (decide (key = key)); [|done].
    unfold invocations; simpl; lia.
  - done.
Qed.

(** C1.  Take a state the deduplicator has reached (with [clear()] not
    called while an operation is in flight) and a key with no
    registration.  The first call for the key invokes its operation, with
    promise [p].  Whatever calls (for any key), settlements (of [p] too)
    and continuations of other calls follow while the call suspended on
    [p] has not continued:
    - the operation of the key has been invoked exactly once more;
    - every call for the key since then, the first included, is bound to
      [p], so each hands its caller the outcome of [p], the same for all;
    - once [p] has settled, with a value or a failure, the continuation
      removes the registration, and the next call for the key invokes the
      operation again. *)
Theorem dedup_in_flight_once (key : string) (s0 : state) (evs : list event) :
  reachable s0 →
  s0.1 !! key = None →
  Forall (keeps (next s0.2)) evs →
  let p := next s0.2 in
  let s2 := run evs (step (Call key) s0) in
  invocations key s2 = S (invocations key s0)
  ∧ callers s2.2 !! length (callers s0.2) = Some (key, p)
  ∧ (∀ c q, (length (callers s0.2) ≤ c)%nat →
            callers s2.2 !! c = Some (key, q) →
            q = p ∧ caller_outcome s2 c = settled s2.2 !! p)
  ∧ (∀ o, settled s2.2 !! p = Some o →
          let s3 := step (Resume p) s2 in
          s3.1 !! key = None
          ∧ invocations key (step (Call key) s3) = S (invocations key s2)).
Proof.
  intros Hreach Hk Hevs p s2.
  pose proof (reachable_registered_frames _ Hreach) as Hinv.
  destruct (first_call key s0 Hk) as (Hreg & Hcount & Hcallers).
  assert (registered_frames (step (Call key) s0)) as Hinv1
    by (by apply registered_frames_step).
  destruct (window_run key p evs _ Hevs Hinv1 Hreg)
    as (Hinv2 & Hreg2 & Hcount2 & new & Hnew & Hall).
  fold s2 in Hinv2, Hreg2, Hcount2, Hnew.
  rewrite Hcallers in Hnew.
  assert (∀ c q, (length (callers s0.2) ≤ c)%nat →
                 callers s2.2 !! c = Some (key, q) → q = p) as Hbound.
  { intros c q Hc Hlook. rewrite Hnew, <- app_assoc in Hlook.
    rewrite lookup_app_r in Hlook by done.
    apply list_elem_of_lookup_2 in Hlook. apply elem_of_cons in Hlook as [Heq|Hin].
    - by injection Heq as ->.
    - by apply Hall. }
  split; [congruence|]. split; [|split].
  - rewrite Hnew, <- app_assoc, lookup_app_r by done.
    by rewrite Nat.sub_diag.
  - intros c q Hc Hlook. pose proof (Hbound c q Hc Hlook) as ->. split; [done|].
    unfold caller_outcome. by rewrite Hlook.
  - intros o Ho s3. destruct Hreg2 as (Hp & Ha & Hlt).
    assert (s3 = (base.delete key s2.1,
                  {| settled := settled s2.2; awaiting := base.delete p (awaiting s2.2);
                     invoked := invoked s2.2; callers := callers s2.2;
                     next := next s2.2 |})) as ->.
    { unfold s3; simpl. unfold resume. by rewrite Ha, Ho. }
    split; [apply lookup_delete_eq|].
    simpl. unfold deduplicate; simpl. rewrite lookup_delete_eq; simpl.
    unfold invocations; simpl. rewrite filter_app, length_app.
    rewrite filter_cons_True by done. simpl. lia.
Qed.

(** An instance: two calls for a key join the first, the operation
    fails, and the next call starts it again. *)
Lemma dedup_in_flight_once_witness :
  let evs := [Call "a"; Call "b"; Call "a"; Settle 0 (Rejected (VStr "down"))] in
  let s2 := run evs (step (Call "a") init) in
  invocations "a" s2 = 1%nat
  ∧ caller_outcome s2 0 = Some (Rejected (VStr "down"))
  ∧ caller_outcome s2 1 = Some (Rejected (VStr "down"))
  ∧ caller_outcome s2 3 = Some (Rejected (VStr "down"))
  ∧ (step (Resume 0) s2).1 !! "a" = None
  ∧ invocations "a" (step (Call "a") (step (Resume 0) s2)) = 2%nat.
Proof.
  assert (reachable init) as Hr by (exists []; split; reflexivity).
  assert (init.1 !! "a" = None) as Hk by reflexivity.
  assert (Forall (keeps (next init.2))
            [Call "a"; Call "b"; Call "a"; Settle 0 (Rejected (VStr "down"))]) as Hevs.
  { repeat constructor; discriminate. }
  destruct (dedup_in_flight_once "a" init _ Hr Hk Hevs) as (H1 & H2 & H3 & H4).
  split; [exact H1|].
  split; [exact (eq_trans (proj2 (H3 0%nat 0%nat (le_n 0) eq_refl)) eq_refl)|].
  split; [exact (eq_trans (proj2 (H3 1%nat 0%nat (le_S _ _ (le_n 0)) eq_refl)) eq_refl)|].
  split; [exact (eq_trans (proj2 (H3 3%nat 0%nat (Nat.le_0_l 3) eq_refl)) eq_refl)|].
  exact (H4 (Rejected (VStr "down")) eq_refl).
Defined.

End DedupProofs.

(** ** [clear()] and the deduplicator of the cache *)

Module ClearProofs.
Import Dedup.

(** What holds of the promises after any events, [clear()] included:
    a registered promise comes from an invocation, and the promises of
    invocations and settlements have been handed out. *)
Definition allocated (s : state) : Prop :=
  (∀ k p, s.1 !! k = Some p → (k, p) ∈ invoked s.2)
  ∧ (∀ k p, (k, p) ∈ invoked s.2 → (p < next s.2)%nat)
  ∧ (∀ p, is_Some (settled s.2 !! p) → (p < next s.2)%nat).

Lemma allocated_init : allocated init.
Proof.
  split; [|split]; simpl.
  - intros k p H. rewrite lookup_empty in H. discriminate.
  - intros k p H. by apply elem_of_nil in H.
  - intros p [o H]. rewrite lookup_empty in H. discriminate.
Qed.

Lemma allocated_step (e : event) (s : state) : allocated s → allocated (step e s).
Proof.
  intros (Hreg & Hinv & Hset). destruct s as [pend rt]. simpl in *.
  destruct e as [key|p o|p|]; simpl.
  - unfold deduplicate. destruct (pend !! key) as [p|] eqn:Hk.
    + split; [|split]; simpl; done.
    + split; [|split]; simpl.
      * intros k p. destruct (decide (key = k)) as [->|Hne].
        -- rewrite lookup_insert_eq. intros [= <-]. apply elem_of_app. right.
           apply list_elem_of_singleton. done.
        -- rewrite lookup_insert_ne by done. intros H. apply elem_of_app. left.
           by apply Hreg.
      * intros k p Hin. apply elem_of_app in Hin as [Hin|Hin].
        -- apply Hinv in Hin. lia.
        -- apply list_elem_of_singleton in Hin. injection Hin as -> ->. lia.
      * intros p Hp. apply Hset in Hp. lia.
  - unfold settle. case_bool_decide as Hc; [|done].
    split; [|split]; simpl; [done|done|].
    intros q. destruct (decide (p = q)) as [->|Hne].
    + intros _. apply Hc.
    + rewrite lookup_insert_ne by done. apply Hset.
  - unfold resume. destruct (awaiting rt !! p) as [key|]; [|done].
    destruct (settled rt !! p); [|done].
    split; [|split]; simpl; [|done|done].
    intros k q. destruct (decide (key = k)) as [->|Hne].
    + rewrite lookup_delete_eq. discriminate.
    + rewrite lookup_delete_ne by done. apply Hreg.
  - split; [|split]; simpl; [|done|done].
    intros k p H. rewrite lookup_empty in H. discriminate.
Qed.

Lemma allocated_run (evs : list event) : allocated (run evs init).
Proof.
  induction evs as [|e evs IH] using rev_ind.
  - apply allocated_init.
  - rewrite DedupProofs.dedup_run_snoc. by apply allocated_step.
Qed.

(** C10.  [clear()] empties the cache map and the map of pending
    requests, registrations of operations still in flight included.  So
    when the operation registered for a key has not settled, a call of
    [deduplicate] for that key after [clear()] invokes the operation it
    is given: a second call for the key is then in flight beside the
    first. *)
Theorem clear_forgets_in_flight (evs : list event) (c : RequestCache.t)
    (rt : runtime) (key : string) (p : nat) :
  (RequestCache.pendingRequests c, rt) = run evs init →
  RequestCache.pendingRequests c !! key = Some p →
  settled rt !! p = None →
  let c1 := RequestCache.clear c in
  let r := RequestCache.deduplicate key c1 rt in
  RequestCache.cache c1 = ∅
  ∧ RequestCache.pendingRequests c1 = ∅
  ∧ invoked r.2 = invoked rt ++ [(key, next rt)]
  ∧ p ∈ RequestCache.in_flight key rt
  ∧ next rt ≠ p
  ∧ RequestCache.in_flight key r.2 = RequestCache.in_flight key rt ++ [next rt].
Proof.
  intros Hrun Hk Hp c1 r.
  pose proof (allocated_run evs) as (Hreg & Hinv & Hset). rewrite <- Hrun in *.
  simpl in *. pose proof (Hreg _ _ Hk) as Hin. pose proof (Hinv _ _ Hin) as Hlt.
  assert (settled rt !! next rt = None) as Hfresh.
  { destruct (settled rt !! next rt) eqn:E; [|done].
    assert (next rt < next rt)%nat by (apply Hset; eauto). lia. }
  split; [done|]. split; [done|].
  unfold r, RequestCache.deduplicate, c1, deduplicate; simpl.
  rewrite lookup_empty; simpl.
  split; [done|]. split; [|split; [lia|]].
  - unfold RequestCache.in_flight. apply list_elem_of_fmap. exists (key, p).
    split; [done|]. apply list_elem_of_filter. done.
  - unfold RequestCache.in_flight; simpl. rewrite filter_app, fmap_app.
    rewrite filter_cons_True by done. done.
Qed.

(** An instance: the operation for a key is in flight, the cache is
    cleared, and the next call for the key starts a second one. *)
Lemma clear_forgets_in_flight_witness :
  let s := run [Call "a"] init in
  let c := RequestCache.with_pending RequestCache.new s.1 in
  RequestCache.in_flight "a"
    (RequestCache.deduplicate "a" (RequestCache.clear c) s.2).2 = [0%nat; 1%nat].
Proof.
  intros s c.
  exact (eq_trans
           (proj2 (proj2 (proj2 (proj2 (proj2
              (clear_forgets_in_flight [Call "a"] c s.2 "a" 0%nat
                 eq_refl eq_refl eq_refl))))))
           eq_refl).
Defined.

End ClearProofs.

(** ** The request queue *)

Module RequestThrottleProofs.
Import RequestThrottle.

Definition ok : outcome := Fulfilled VNull.

Lemma queue_run_app (evs1 evs2 : list event) (w : world) :
  run (evs1 ++ evs2) w = run evs2 (run evs1 w).
Proof. unfold run. apply fold_left_app. Qed.

Lemma queue_run_snoc (evs : list event) (e : event) (w : world) :
  run (evs ++ [e]) w = step e (run evs w).
Proof. rewrite queue_run_app. reflexivity. Qed.

(** *** The parts of the transitions *)

(** The [while] loop takes the first [room] tasks of the queue. *)
Lemma shift_loop_take_drop (room : nat) (queue active : list task) :
  shift_loop room queue active = (drop room queue, active ++ take room queue).
Proof.
  revert queue active. induction room as [|room IH]; intros queue active; simpl.
  - destruct queue; by rewrite app_nil_r.
  - destruct queue as [|task queue]; simpl; [by rewrite app_nil_r|].
    rewrite IH, <- app_assoc. reflexivity.
Qed.

(** [processQueue] either returns at its guard or dispatches the first
    [maxConcurrent] tasks of the queue as one batch. *)
Lemma processQueue_cases (w : world) :
  (processQueue w = w
   ∧ (isProcessing (obj w) = true ∨ requestQueue (obj w) = []))
  ∨ (isProcessing (obj w) = false ∧ requestQueue (obj w) ≠ []
     ∧ processQueue w =
       {| obj := {| pendingRequests := pendingRequests (obj w);
                    requestQueue := drop (maxConcurrent (obj w)) (requestQueue (obj w));
                    isProcessing := true; maxConcurrent := maxConcurrent (obj w);
                    requestDelay := requestDelay (obj w) |};
          frames := frames w ++ [tid <$> take (maxConcurrent (obj w)) (requestQueue (obj w))];
          inFlight := inFlight w ++ (tid <$> take (maxConcurrent (obj w)) (requestQueue (obj w)));
          outcomes := outcomes w; timers := timers w; now := now w;
          nextId := nextId w;
          batches := batches w ++ [Batch (take (maxConcurrent (obj w)) (requestQueue (obj w)))
                                         (now w) (lastBatchEnd w)];
          lastBatchEnd := lastBatchEnd w |}).
Proof.
  unfold processQueue. destruct (isProcessing (obj w)) eqn:Hp; simpl.
  - left. auto.
  - case_bool_decide as Hq.
    + left. split; [done|]. right. by apply nil_length_inv.
    + right. split; [done|]. split; [intros Hnil; by rewrite Hnil in Hq|].
      rewrite shift_loop_take_drop. reflexivity.
Qed.

(** The continuations of [processQueue] touch only the flag, the timers
    and the time of the last batch. *)
Lemma resume_iter_fields (n : nat) (w : world) :
  let w' := Nat.iter n processQueue_resume w in
  requestQueue (obj w') = requestQueue (obj w)
  ∧ maxConcurrent (obj w') = maxConcurrent (obj w)
  ∧ requestDelay (obj w') = requestDelay (obj w)
  ∧ frames w' = frames w ∧ inFlight w' = inFlight w ∧ outcomes w' = outcomes w
  ∧ now w' = now w ∧ nextId w' = nextId w ∧ batches w' = batches w.
Proof.
  induction n as [|n IH]; simpl; [done|].
  destruct IH as (?&?&?&?&?&?&?&?&?). done.
Qed.

Lemma resume_ready_fields (w : world) :
  let w' := resume_ready w in
  requestQueue (obj w') = requestQueue (obj w)
  ∧ maxConcurrent (obj w') = maxConcurrent (obj w)
  ∧ requestDelay (obj w') = requestDelay (obj w)
  ∧ frames w' = filter (λ f, f ≠ []) (frames w)
  ∧ inFlight w' = inFlight w ∧ outcomes w' = outcomes w
  ∧ now w' = now w ∧ nextId w' = nextId w ∧ batches w' = batches w.
Proof.
  unfold resume_ready.
  match goal with |- context [Nat.iter ?n _ ?w0] =>
    destruct (resume_iter_fields n w0) as (?&?&?&?&?&?&?&?&?) end.
  done.
Qed.

(** A property of the state that the continuations of [processQueue]
    keep and every call or callback keeps is kept by every event. *)
Lemma step_keeps (P : world → Prop) (e : event) (w : world) :
  (∀ w, P w → P (resume_ready w)) →
  (∀ w, P w → P (action e w)) →
  P w → P (step e w).
Proof.
  intros Hr Ha Hw. unfold step. destruct (own_task e); auto.
Qed.

Lemma dispatch_order_snoc (bs : list batch) (b : batch) :
  mjoin (b_tasks <$> (bs ++ [b])) = mjoin (b_tasks <$> bs) ++ b_tasks b.
Proof. rewrite fmap_app, join_app. simpl. by rewrite app_nil_r. Qed.

(** *** The queue is kept in dispatch order *)

Lemma elem_of_insert (x y : task) (l : list task) :
  y ∈ insert x l ↔ y = x ∨ y ∈ l.
Proof.
  induction l as [|z l IH]; simpl.
  - rewrite list_elem_of_singleton, elem_of_nil. tauto.
  - destruct (cmp_lt z x); rewrite !elem_of_cons; [rewrite IH|]; tauto.
Qed.

Lemma cmp_lt_spec (a b : task) : cmp_lt a b = true ↔ priority a > priority b.
Proof. unfold cmp_lt. rewrite bool_decide_eq_true. lia. Qed.

Lemma before_priority (a b : task) : before a b → priority a >= priority b.
Proof. unfold before. lia. Qed.

(** Inserting a task that was submitted before all its ties. *)
Lemma insert_sorted (x : task) (l : list task) :
  StronglySorted before l →
  (∀ y, y ∈ l → priority y = priority x → (tid x < tid y)%nat) →
  StronglySorted before (insert x l).
Proof.
  induction l as [|y l IH]; intros Hs Hties; simpl.
  - repeat constructor.
  - apply StronglySorted_cons in Hs as [Hy Hs]. rewrite Forall_forall in Hy.
    destruct (cmp_lt y x) eqn:Hc.
    + apply cmp_lt_spec in Hc. apply StronglySorted_cons. split.
      * apply Forall_forall. intros z Hz. apply elem_of_insert in Hz as [->|Hz].
        -- left. done.
        -- by apply Hy.
      * apply IH; [done|]. intros z Hz. apply Hties. by right.
    + assert (¬ priority y > priority x) as Hle by (rewrite <- cmp_lt_spec; congruence).
      apply StronglySorted_cons. split.
      * apply Forall_forall. intros z Hz.
        assert (priority z <= priority x) as Hzx.
        { apply elem_of_cons in Hz as [->|Hz]; [lia|].
          apply Hy, before_priority in Hz. lia. }
        destruct (decide (priority z = priority x)) as [Heq|Hne].
        -- right. split; [done|]. by apply Hties.
        -- left. lia.
      * apply StronglySorted_cons. split; [by apply Forall_forall|done].
Qed.

(** [push] then [sort], for a task newer than all in the sorted queue. *)
Lemma sort_push (queue : list task) (task : task) :
  StronglySorted before queue →
  (∀ y, y ∈ queue → (tid y < tid task)%nat) →
  StronglySorted before (sort (queue ++ [task]))
  ∧ ∀ y, y ∈ sort (queue ++ [task]) ↔ y ∈ queue ∨ y = task.
Proof.
  unfold sort. rewrite foldr_app. simpl.
  induction queue as [|x queue IH]; intros Hs Hnew; simpl.
  - split; [repeat constructor|]. intros y. rewrite list_elem_of_singleton, elem_of_nil. tauto.
  - apply StronglySorted_cons in Hs as [Hx Hs]. rewrite Forall_forall in Hx.
    destruct IH as [IHs IHe]; [done|intros y Hy; apply Hnew; by right|].
    split.
    + apply insert_sorted; [done|]. intros y Hy Hprio. apply IHe in Hy as [Hy| ->].
      * destruct (Hx _ Hy) as [Hgt|[_ Hlt]]; [lia|done].
      * apply Hnew. by left.
    + intros y. rewrite elem_of_insert, IHe, elem_of_cons. tauto.
Qed.

Lemma filter_sorted (P : task → Prop) `{∀ x, Decision (P x)} (l : list task) :
  StronglySorted before l → StronglySorted before (filter P l).
Proof.
  induction l as [|x l IH]; intros Hs; [constructor|].
  apply StronglySorted_cons in Hs as [Hx Hs]. rewrite Forall_forall in Hx.
  destruct (decide (P x)).
  - rewrite filter_cons_True by done. apply StronglySorted_cons. split; [|by apply IH].
    apply Forall_forall. intros y Hy. apply list_elem_of_filter in Hy as [_ Hy]. by apply Hx.
  - rewrite filter_cons_False by done. by apply IH.
Qed.

(** The queue is sorted by descending priority, first come first served
    among equal priorities, and its tasks have been numbered. *)
Definition queue_sorted (w : world) : Prop :=
  StronglySorted before (requestQueue (obj w))
  ∧ ∀ y, y ∈ requestQueue (obj w) → (tid y < nextId w)%nat.

Lemma queue_sorted_processQueue (w : world) :
  queue_sorted w → queue_sorted (processQueue w).
Proof.
  intros [Hs Hid]. destruct (processQueue_cases w) as [[-> _]|(_ & _ & ->)]; [done|].
  split; simpl.
  - rewrite <- (take_drop (maxConcurrent (obj w)) (requestQueue (obj w))) in Hs.
    by apply StronglySorted_app_1_r in Hs.
  - intros y Hy. apply Hid. by eapply subseteq_drop.
Qed.

Lemma queue_sorted_queueRequest (prio : Z) (w : world) :
  queue_sorted w → queue_sorted (queueRequest prio w).
Proof.
  intros [Hs Hid]. unfold queueRequest. apply queue_sorted_processQueue.
  destruct (sort_push (requestQueue (obj w)) (Task (nextId w) prio (now w)) Hs)
    as [Hs' He']; [intros y Hy; simpl; by apply Hid|].
  split; simpl; [done|]. intros y Hy. apply He' in Hy as [Hy| ->]; simpl; [|lia].
  apply Hid in Hy. lia.
Qed.

Lemma queue_sorted_resume_ready (w : world) :
  queue_sorted w → queue_sorted (resume_ready w).
Proof.
  intros Hs. destruct (resume_ready_fields w) as (Hq & _ & _ & _ & _ & _ & _ & Hn & _).
  unfold queue_sorted. by rewrite Hq, Hn.
Qed.

Lemma queue_sorted_action (e : event) (w : world) :
  queue_sorted w → queue_sorted (action e w).
Proof.
  intros Hw. pose proof Hw as [Hs Hid]. destruct e as [prio|x o|i|d| | |prio|]; simpl.
  - by apply queue_sorted_queueRequest.
  - unfold settle. by case_bool_decide.
  - unfold timer_fire. destruct (timers w !! i); [|done].
    case_bool_decide; [|done]. by apply queue_sorted_processQueue.
  - unfold tick. case_bool_decide; done.
  - split; simpl.
    + by apply filter_sorted.
    + intros y Hy. apply list_elem_of_filter in Hy as [_ Hy]. by apply Hid.
  - split; simpl; [constructor|]. intros y Hy. by apply elem_of_nil in Hy.
  - by apply queue_sorted_queueRequest.
  - split; simpl; [constructor|]. intros y Hy. by apply elem_of_nil in Hy.
Qed.

Lemma queue_sorted_step (e : event) (w : world) :
  queue_sorted w → queue_sorted (step e w).
Proof.
  apply (step_keeps queue_sorted);
    [apply queue_sorted_resume_ready|apply queue_sorted_action].
Qed.

Lemma reachable_queue_sorted (w : world) : reachable w → queue_sorted w.
Proof.
  intros [evs ->]. induction evs as [|e evs IH] using rev_ind.
  - split; simpl; [constructor|]. intros y Hy. by apply elem_of_nil in Hy.
  - rewrite queue_run_snoc. by apply queue_sorted_step.
Qed.

(** What an event dispatches, and what it leaves in the queue. *)
Lemma processQueue_dispatch (w : world) :
  ∃ new, dispatch_order (processQueue w) = dispatch_order w ++ new
         ∧ new ++ requestQueue (obj (processQueue w)) = requestQueue (obj w).
Proof.
  destruct (processQueue_cases w) as [[-> _]|(_ & _ & ->)].
  - exists []. by rewrite app_nil_r.
  - exists (take (maxConcurrent (obj w)) (requestQueue (obj w))).
    unfold dispatch_order; simpl. rewrite dispatch_order_snoc. simpl.
    by rewrite take_drop.
Qed.

Lemma queueRequest_dispatch (prio : Z) (w : world) :
  queue_sorted w →
  ∃ new, dispatch_order (queueRequest prio w) = dispatch_order w ++ new
         ∧ StronglySorted before (new ++ requestQueue (obj (queueRequest prio w))).
Proof.
  intros [Hs Hid]. unfold queueRequest.
  match goal with |- context [processQueue ?w0] =>
    destruct (processQueue_dispatch w0) as (new & Hd & Hq); exists new end.
  split; [exact Hd|]. rewrite Hq. simpl.
  apply (sort_push (requestQueue (obj w)) (Task (nextId w) prio (now w)) Hs).
  intros y Hy; simpl. by apply Hid.
Qed.

Lemma action_dispatch (e : event) (w : world) :
  queue_sorted w →
  ∃ new, dispatch_order (action e w) = dispatch_order w ++ new
         ∧ StronglySorted before (new ++ requestQueue (obj (action e w))).
Proof.
  intros Hs. pose proof (queue_sorted_action e w Hs) as [Hs' _].
  destruct e as [prio|x o|i|d| | |prio|]; simpl in *.
  - by apply queueRequest_dispatch.
  - exists []. rewrite app_nil_r. split; [|done].
    unfold settle. by case_bool_decide.
  - unfold timer_fire in *. destruct (timers w !! i); [|exists []; by rewrite app_nil_r].
    case_bool_decide; [|exists []; by rewrite app_nil_r].
    match goal with |- context [processQueue ?w0] =>
      destruct (processQueue_dispatch w0) as (new & Hd & Hq); exists new end.
    split; [exact Hd|]. rewrite Hq. simpl. apply Hs.
  - exists []. rewrite app_nil_r. split; [|done]. unfold tick. by case_bool_decide.
  - exists []. rewrite app_nil_r. done.
  - exists []. rewrite app_nil_r. done.
  - by apply queueRequest_dispatch.
  - exists []. rewrite app_nil_r. done.
Qed.

Lemma step_dispatch (e : event) (w : world) :
  queue_sorted w →
  ∃ new, dispatch_order (step e w) = dispatch_order w ++ new
         ∧ StronglySorted before (new ++ requestQueue (obj (step e w))).
Proof.
  intros Hs. unfold step. destruct (own_task e); [|by apply action_dispatch].
  destruct (action_dispatch e (resume_ready w)) as (new & Hd & Hq);
    [by apply queue_sorted_resume_ready|].
  exists new. split; [|done]. rewrite Hd. unfold dispatch_order.
  by destruct (resume_ready_fields w) as (_ & _ & _ & _ & _ & _ & _ & _ & ->).
Qed.

(** The log of dispatches only grows. *)
Lemma dispatch_order_grows (evs : list event) (w : world) :
  queue_sorted w → ∃ new, dispatch_order (run evs w) = dispatch_order w ++ new.
Proof.
  intros Hs. induction evs as [|e evs IH] using rev_ind.
  - exists []. by rewrite app_nil_r.
  - destruct IH as [new Hnew]. rewrite queue_run_snoc.
    assert (queue_sorted (run evs w)) as Hs'.
    { clear Hnew. induction evs as [|e' evs IH] using rev_ind; [done|].
      rewrite queue_run_snoc. by apply queue_sorted_step. }
    destruct (step_dispatch e _ Hs') as (new' & Hd & _).
    exists (new ++ new'). by rewrite Hd, Hnew, app_assoc.
Qed.

(** C6, as the design document states it, fails.  A task submitted to an
    idle queue is dispatched by its own [queueRequest], before any later
    submission exists: of the four tasks submitted with priorities
    [1, 5, 1, 10] to a new queue, the first is dispatched first, whatever
    happens afterwards, so the order is never [10, 5, 1, 1]. *)
Lemma submit_order_counterexample :
  ¬ ∃ evs, tid <$> dispatch_order
             (run ([Submit 1; Submit 5; Submit 1; Submit 10] ++ evs) init)
           = [3; 1; 0; 2]%nat.
Proof.
  intros [evs H]. rewrite queue_run_app in H.
  destruct (dispatch_order_grows evs (run [Submit 1; Submit 5; Submit 1; Submit 10] init))
    as [new Hnew].
  { apply reachable_queue_sorted. by eexists. }
  rewrite Hnew in H. vm_compute in H. discriminate H.
Qed.

(** C6 (amended).  After any events, the tasks that the next event
    dispatches, followed by the tasks it leaves in the queue, are in order
    of descending priority, first submitted first among equal priorities:
    a batch is taken from the front of a queue kept in that order.  Tasks
    submitted with priorities [1, 5, 1, 10] while a batch is in flight are
    dispatched in the order [10, 5, 1 (first), 1 (second)]; submitted to
    an idle queue, the first of them is dispatched on submission, and the
    order is [1 (first), 10, 5, 1 (second)]. *)
Theorem dispatch_in_queue_order :
  (∀ (evs : list event) (e : event),
      let w := run evs init in
      ∃ new, dispatch_order (step e w) = dispatch_order w ++ new
             ∧ StronglySorted before (new ++ requestQueue (obj (step e w))))
  ∧ priority <$> dispatch_order
      (run [Submit 7; Submit 1; Submit 5; Submit 1; Submit 10;
            Settle 0 ok; Tick 100; TimerFire 0;
            Settle 4 ok; Settle 2 ok; Settle 1 ok; Tick 100; TimerFire 0] init)
    = [7; 10; 5; 1; 1]
  ∧ tid <$> dispatch_order
      (run [Submit 7; Submit 1; Submit 5; Submit 1; Submit 10;
            Settle 0 ok; Tick 100; TimerFire 0;
            Settle 4 ok; Settle 2 ok; Settle 1 ok; Tick 100; TimerFire 0] init)
    = [0; 4; 2; 1; 3]%nat
  ∧ tid <$> dispatch_order
      (run [Submit 1; Submit 5; Submit 1; Submit 10;
            Settle 0 ok; Tick 100; TimerFire 0;
            Settle 3 ok; Settle 1 ok; Settle 2 ok] init)
    = [0; 3; 1; 2]%nat.
Proof.
  split; [|by vm_compute].
  intros evs e w. apply step_dispatch, reachable_queue_sorted. by eexists.
Qed.

(** *** At most [maxConcurrent] operations in flight *)

(** While the flag is set, one call of [processQueue] is suspended, on a
    batch of at most [maxConcurrent] tasks (when all of them have
    settled, the call is ready to resume); otherwise none is.  The
    operations in flight are those of the suspended call. *)
Definition draining (w : world) : Prop :=
  (0 < maxConcurrent (obj w))%nat
  ∧ inFlight w = mjoin (frames w)
  ∧ if isProcessing (obj w)
    then ∃ f, frames w = [f] ∧ (length f ≤ maxConcurrent (obj w))%nat
    else frames w = [].

Lemma draining_init : draining init.
Proof. split; [simpl; lia|]. done. Qed.

Lemma draining_processQueue (w : world) : draining w → draining (processQueue w).
Proof.
  intros (Hm & Hin & Hfr).
  destruct (processQueue_cases w) as [[-> _]|(Hp & Hq & ->)]; [done|].
  rewrite Hp in Hfr. split; [done|]. simpl. rewrite Hfr, Hin, Hfr. simpl.
  split; [by rewrite app_nil_r|].
  eexists. split; [done|]. rewrite length_fmap, length_take. lia.
Qed.

Lemma draining_settle (x : nat) (o : outcome) (w : world) :
  draining w → draining (settle x o w).
Proof.
  intros (Hm & Hin & Hfr). unfold settle. case_bool_decide as Hx; [|done].
  destruct (isProcessing (obj w)) eqn:Hp.
  2:{ rewrite Hin, Hfr in Hx. by apply elem_of_nil in Hx. }
  destruct Hfr as (f & Hf & Hlen). split; [done|]. simpl. rewrite Hp, Hin, Hf. simpl.
  rewrite !app_nil_r. split; [done|]. eexists. split; [done|].
  pose proof (length_filter (λ y, y ≠ x) f). lia.
Qed.

(** A call that is ready resumes and resets the flag; a call whose batch
    is in flight stays suspended. *)
Lemma draining_resume_ready (w : world) :
  draining w →
  draining (resume_ready w)
  ∧ Forall (λ f, f ≠ []) (frames (resume_ready w))
  ∧ (frames w = [] → resume_ready w = w).
Proof.
  intros (Hm & Hin & Hfr). unfold resume_ready.
  destruct (isProcessing (obj w)) eqn:Hp.
  - destruct Hfr as (f & Hf & Hlen). rewrite Hf.
    destruct (decide (f = [])) as [->|Hne].
    + rewrite filter_cons_True by done. rewrite filter_cons_False by naive_solver.
      rewrite !filter_nil. simpl. rewrite Hf in Hin.
      split; [|split; [constructor|done]]. split; [done|]. simpl. by rewrite Hin.
    + rewrite filter_cons_False by done. rewrite filter_cons_True by done.
      rewrite !filter_nil. simpl.
      split; [|split; [by repeat constructor|done]]. split; [done|]. simpl.
      rewrite Hp, Hin, Hf. split; [done|]. by eexists.
  - rewrite Hfr, !filter_nil. simpl.
    split; [|split; [constructor|]].
    + split; [done|]. simpl. by rewrite Hp, Hin, Hfr.
    + intros _. destruct w as [o ? ? ? ? ? ? ? ?]. simpl in *. by subst.
Qed.

Lemma draining_clear (w : world) : frames w = [] → draining w → draining (clear w).
Proof.
  intros Hf (Hm & Hin & _). split; [done|]. simpl. by rewrite Hin, Hf.
Qed.






(** [clear()] resets the flag whatever the suspended call of
    [processQueue] is doing, so the bound is one of the queue left to
    itself.  After a [clear()] while a batch is in flight, the next
    submission dispatches beside the old batch; after a [clear()] by the
    caller whose task has just settled, the call that is ready to resume
    resets the flag again, under the batch dispatched in between. *)
Lemma clear_resets_flag_mid_batch :
  length (inFlight (run [Submit 1; Submit 1; Submit 1; Submit 1; Settle 0 ok;
                         Tick 100; TimerFire 0; Clear; Submit 1] init)) = 4%nat
  ∧ length (inFlight (run [Submit 1; Settle 0 ok; ThenClear; ThenSubmit 1;
                           ThenSubmit 1; ThenSubmit 1; ThenSubmit 1;
                           Tick 100; TimerFire 0] init)) = 4%nat.
Proof. split; reflexivity. Qed.

(** *** The staleness sweep *)

Lemma insert_perm (x : task) (l : list task) : insert x l ≡ₚ x :: l.
Proof.
  induction l as [|y l IH]; simpl; [done|].
  destruct (cmp_lt y x); [|done]. rewrite IH. apply Permutation_swap.
Qed.

Lemma sort_perm (l : list task) : sort l ≡ₚ l.
Proof.
  induction l as [|x l IH]; simpl; [done|]. by rewrite insert_perm, IH.
Qed.

Lemma NoDup_fmap_filter (P : task → Prop) `{∀ x, Decision (P x)} (l : list task) :
  NoDup (tid <$> l) → NoDup (tid <$> filter P l).
Proof.
  induction l as [|x l IH]; simpl; [done|]. rewrite NoDup_cons. intros [Hx Hl].
  destruct (decide (P x)).
  - rewrite filter_cons_True by done. simpl. apply NoDup_cons. split; [|by apply IH].
    intros Hin. apply Hx. apply list_elem_of_fmap in Hin as (y & -> & Hy).
    apply list_elem_of_filter in Hy as [_ Hy]. by apply list_elem_of_fmap_2.
  - rewrite filter_cons_False by done. by apply IH.
Qed.

Lemma NoDup_fmap_eq (l : list task) (a b : task) :
  NoDup (tid <$> l) → a ∈ l → b ∈ l → tid a = tid b → a = b.
Proof.
  induction l as [|x l IH]; simpl; [by intros _ Ha; apply elem_of_nil in Ha|].
  rewrite NoDup_cons. intros [Hx Hl] Ha Hb Heq.
  apply elem_of_cons in Ha as [->|Ha]; apply elem_of_cons in Hb as [->|Hb].
  - done.
  - exfalso. apply Hx. rewrite Heq. by apply list_elem_of_fmap_2.
  - exfalso. apply Hx. rewrite <- Heq. by apply list_elem_of_fmap_2.
  - by apply IH.
Qed.

(** The numbers of the tasks whose operation has been invoked. *)
Definition started (w : world) : list nat := tid <$> dispatch_order w.

(** Tasks are numbered apart: the queued tasks have distinct numbers that
    have been handed out, a task that was dispatched is no longer queued,
    and only dispatched tasks are in flight or settled. *)
Definition numbered (w : world) : Prop :=
  (∀ t, t ∈ requestQueue (obj w) → (tid t < nextId w)%nat)
  ∧ NoDup (tid <$> requestQueue (obj w))
  ∧ (∀ x, x ∈ started w → (x < nextId w)%nat ∧ x ∉ tid <$> requestQueue (obj w))
  ∧ (∀ x, x ∈ inFlight w → x ∈ started w)
  ∧ (∀ x, is_Some (outcomes w !! x) → x ∈ started w).

Lemma started_processQueue (w : world) :
  processQueue w = w
  ∨ (started (processQueue w)
       = started w ++ (tid <$> take (maxConcurrent (obj w)) (requestQueue (obj w)))
     ∧ requestQueue (obj (processQueue w))
       = drop (maxConcurrent (obj w)) (requestQueue (obj w))
     ∧ inFlight (processQueue w)
       = inFlight w ++ (tid <$> take (maxConcurrent (obj w)) (requestQueue (obj w)))
     ∧ outcomes (processQueue w) = outcomes w
     ∧ nextId (processQueue w) = nextId w).
Proof.
  destruct (processQueue_cases w) as [[-> _]|(_ & _ & ->)]; [by left|right].
  unfold started, dispatch_order; simpl. by rewrite dispatch_order_snoc, fmap_app.
Qed.

Lemma numbered_processQueue (w : world) : numbered w → numbered (processQueue w).
Proof.
  intros (N1 & N2 & N3 & N4 & N5).
  destruct (started_processQueue w) as [->|(Hs & Hq & Hi & Ho & Hn)]; [done|].
  unfold numbered. rewrite Hs, Hq, Hi, Ho, Hn.
  rewrite <- (take_drop (maxConcurrent (obj w)) (requestQueue (obj w))) in N2.
  rewrite fmap_app in N2. apply NoDup_app in N2 as (_ & Hdisj & Hdrop).
  assert (∀ x, x ∈ tid <$> drop (maxConcurrent (obj w)) (requestQueue (obj w)) →
               x ∈ tid <$> requestQueue (obj w)) as Hsub.
  { intros x Hx. apply list_elem_of_fmap in Hx as (t & -> & Ht).
    apply list_elem_of_fmap_2. by eapply subseteq_drop. }
  split; [|split; [|split; [|split]]].
  - intros t Ht. apply N1. by eapply subseteq_drop.
  - done.
  - intros x Hx. apply elem_of_app in Hx as [Hx|Hx].
    + destruct (N3 x Hx) as [Hlt Hnq]. split; [done|]. intros Hin. by apply Hnq, Hsub.
    + split; [|by apply Hdisj].
      apply list_elem_of_fmap in Hx as (t & -> & Ht). apply N1. by eapply subseteq_take.
  - intros x Hx. apply elem_of_app. apply elem_of_app in Hx as [Hx|Hx]; auto.
  - intros x Hx. apply elem_of_app. left. by apply N5.
Qed.

Lemma numbered_queueRequest (prio : Z) (w : world) :
  numbered w → numbered (queueRequest prio w).
Proof.
  intros (N1 & N2 & N3 & N4 & N5).
  - unfold queueRequest. apply numbered_processQueue.
    unfold numbered, started, dispatch_order; simpl.
    assert (∀ x, x ∈ tid <$> sort (requestQueue (obj w) ++ [Task (nextId w) prio (now w)])
                 ↔ x ∈ tid <$> requestQueue (obj w) ∨ x = nextId w) as Hmem.
    { intros x. rewrite sort_perm, fmap_app, elem_of_app. simpl.
      by rewrite list_elem_of_singleton. }
    split; [|split; [|split; [|split]]].
    + intros t Ht. rewrite sort_perm in Ht. apply elem_of_app in Ht as [Ht|Ht].
      * apply N1 in Ht. lia.
      * apply list_elem_of_singleton in Ht as ->. simpl. lia.
    + rewrite sort_perm, fmap_app. apply NoDup_app. split; [done|]. split.
      * intros x Hx Hin. simpl in Hin. apply list_elem_of_singleton in Hin as ->.
        apply list_elem_of_fmap in Hx as (t & Heq & Ht). apply N1 in Ht. lia.
      * simpl. apply NoDup_singleton.
    + intros x Hx. destruct (N3 x Hx) as [Hlt Hnq]. split; [lia|].
      rewrite Hmem. intros [Hin| ->]; [done|lia].
    + done.
    + done.
Qed.

Lemma numbered_clear (w : world) : numbered w → numbered (clear w).
Proof.
  intros (N1 & N2 & N3 & N4 & N5).
  unfold numbered, started, dispatch_order; simpl.
  split; [|split; [|split; [|split]]]; [| | |done|done].
  - intros t Ht. by apply elem_of_nil in Ht.
  - apply NoDup_nil_2.
  - intros x Hx. destruct (N3 x Hx) as [Hlt _]. split; [done|].
    intros Hin. by apply elem_of_nil in Hin.
Qed.

Lemma numbered_resume_ready (w : world) : numbered w → numbered (resume_ready w).
Proof.
  intros Hn.
  destruct (resume_ready_fields w) as (Hq & _ & _ & _ & Hi & Ho & _ & Hid & Hb).
  unfold numbered, started, dispatch_order. by rewrite Hq, Hi, Ho, Hid, Hb.
Qed.

Lemma numbered_action (e : event) (w : world) : numbered w → numbered (action e w).
Proof.
  intros Hw. pose proof Hw as (N1 & N2 & N3 & N4 & N5).
  destruct e as [prio|x o|i|d| | |prio|]; simpl.
  - by apply numbered_queueRequest.
  - unfold settle. case_bool_decide as Hx; [|done].
    unfold numbered, started, dispatch_order. simpl.
    split; [done|]. split; [done|]. split; [done|]. split.
    + intros y Hy. apply list_elem_of_filter in Hy as [_ Hy]. by apply N4.
    + intros y. destruct (decide (x = y)) as [->|Hne].
      * intros _. by apply N4.
      * rewrite lookup_insert_ne by done. apply N5.
  - unfold timer_fire. destruct (timers w !! i); [|done].
    case_bool_decide; [|done]. by apply numbered_processQueue.
  - unfold tick. case_bool_decide; done.
  - unfold numbered, started, dispatch_order; simpl.
    split; [|split; [|split; [|split]]]; [| |  |done|done].
    + intros t Ht. apply list_elem_of_filter in Ht as [_ Ht]. by apply N1.
    + by apply NoDup_fmap_filter.
    + intros x Hx. destruct (N3 x Hx) as [Hlt Hnq]. split; [done|].
      intros Hin. apply Hnq. apply list_elem_of_fmap in Hin as (t & -> & Ht).
      apply list_elem_of_filter in Ht as [_ Ht]. by apply list_elem_of_fmap_2.
  - by apply numbered_clear.
  - by apply numbered_queueRequest.
  - by apply numbered_clear.
Qed.

Lemma numbered_step (e : event) (w : world) : numbered w → numbered (step e w).
Proof.
  apply (step_keeps numbered); [apply numbered_resume_ready|apply numbered_action].
Qed.

Lemma numbered_run (evs : list event) (w : world) : numbered w → numbered (run evs w).
Proof.
  intros Hn. induction evs as [|e evs IH] using rev_ind; [done|].
  rewrite queue_run_snoc. by apply numbered_step.
Qed.

Lemma numbered_init : numbered init.
Proof.
  unfold numbered, started, dispatch_order; simpl.
  split; [|split; [|split; [|split]]].
  - intros t Ht. by apply elem_of_nil in Ht.
  - apply NoDup_nil_2.
  - intros x Hx. by apply elem_of_nil in Hx.
  - intros x Hx. by apply elem_of_nil in Hx.
  - intros x [o Hx]. rewrite lookup_empty in Hx. discriminate.
Qed.

(** Task [x] has a number, is not queued and was never dispatched. *)
Definition abandoned (x : nat) (w : world) : Prop :=
  (x < nextId w)%nat ∧ (x ∉ tid <$> requestQueue (obj w)) ∧ (x ∉ started w).

Lemma abandoned_processQueue (x : nat) (w : world) :
  abandoned x w → abandoned x (processQueue w).
Proof.
  intros (Hlt & Hq & Hs).
  destruct (started_processQueue w) as [->|(Hs' & Hq' & _ & _ & Hn)]; [done|].
  unfold abandoned. rewrite Hs', Hq', Hn. split; [done|]. split.
  - intros Hin. apply Hq. apply list_elem_of_fmap in Hin as (t & -> & Ht).
    apply list_elem_of_fmap_2. by eapply subseteq_drop.
  - intros Hin. apply elem_of_app in Hin as [Hin|Hin]; [done|].
    apply Hq. apply list_elem_of_fmap in Hin as (t & -> & Ht).
    apply list_elem_of_fmap_2. by eapply subseteq_take.
Qed.

Lemma abandoned_queueRequest (x : nat) (prio : Z) (w : world) :
  abandoned x w → abandoned x (queueRequest prio w).
Proof.
  intros (Hlt & Hq & Hs). unfold queueRequest. apply abandoned_processQueue.
  unfold abandoned, started, dispatch_order; simpl. split; [lia|]. split; [|done].
  rewrite sort_perm, fmap_app, elem_of_app. simpl. rewrite list_elem_of_singleton.
  intros [Hin| ->]; [done|lia].
Qed.

Lemma abandoned_clear (x : nat) (w : world) : abandoned x w → abandoned x (clear w).
Proof.
  intros (Hlt & Hq & Hs).
  unfold abandoned, started, dispatch_order; simpl. split; [done|]. split; [|done].
  intros Hin. by apply elem_of_nil in Hin.
Qed.

Lemma abandoned_resume_ready (x : nat) (w : world) :
  abandoned x w → abandoned x (resume_ready w).
Proof.
  intros Ha. destruct (resume_ready_fields w) as (Hq & _ & _ & _ & _ & _ & _ & Hn & Hb).
  unfold abandoned, started, dispatch_order. by rewrite Hq, Hn, Hb.
Qed.

Lemma abandoned_action (x : nat) (e : event) (w : world) :
  abandoned x w → abandoned x (action e w).
Proof.
  intros Hw. pose proof Hw as (Hlt & Hq & Hs).
  destruct e as [prio|y o|i|d| | |prio|]; simpl.
  - by apply abandoned_queueRequest.
  - unfold settle. by case_bool_decide.
  - unfold timer_fire. destruct (timers w !! i); [|done].
    case_bool_decide; [|done]. by apply abandoned_processQueue.
  - unfold tick. case_bool_decide; done.
  - unfold abandoned, started, dispatch_order; simpl. split; [done|]. split; [|done].
    intros Hin. apply Hq. apply list_elem_of_fmap in Hin as (t & -> & Ht).
    apply list_elem_of_filter in Ht as [_ Ht]. by apply list_elem_of_fmap_2.
  - by apply abandoned_clear.
  - by apply abandoned_queueRequest.
  - by apply abandoned_clear.
Qed.

(** Nothing brings an abandoned task back. *)
Lemma abandoned_step (x : nat) (e : event) (w : world) :
  abandoned x w → abandoned x (step e w).
Proof.
  apply (step_keeps (abandoned x)); [apply abandoned_resume_ready|apply abandoned_action].
Qed.

Lemma abandoned_run (x : nat) (evs : list event) (w : world) :
  abandoned x w → abandoned x (run evs w).
Proof.
  intros Ha. induction evs as [|e evs IH] using rev_ind; [done|].
  rewrite queue_run_snoc. by apply abandoned_step.
Qed.

(** C9.  Take any state of the queue and a queued task older than 30
    seconds.  The sweep removes it from the queue; and after the sweep,
    whatever happens, the task is not queued again, its operation is
    never invoked, and its promise is never settled: the caller is left
    waiting, without a result and without an error. *)
Theorem swept_task_abandoned (evs0 evs : list event) (t : task) :
  let w := run evs0 init in
  t ∈ requestQueue (obj w) →
  now w - timestamp t > 30000 →
  let w' := run evs (sweep w) in
  (tid t ∉ tid <$> requestQueue (obj w'))
  ∧ (t ∉ dispatch_order w')
  ∧ (tid t ∉ inFlight w')
  ∧ outcomes w' !! tid t = None.
Proof.
  intros w Ht Hage w'.
  pose proof (numbered_run evs0 init numbered_init) as Hnum. fold w in Hnum.
  assert (abandoned (tid t) (sweep w)) as Hab.
  { destruct Hnum as (N1 & N2 & N3 & _ & _).
    unfold abandoned, started, dispatch_order; simpl. split; [by apply N1|]. split.
    - intros Hin. apply list_elem_of_fmap in Hin as (t' & Heq & Ht').
      apply list_elem_of_filter in Ht' as [Hyoung Ht'].
      assert (t = t') as <- by (by eapply NoDup_fmap_eq). lia.
    - intros Hin. apply N3 in Hin as [_ Hnq]. apply Hnq. by apply list_elem_of_fmap_2. }
  pose proof (abandoned_run _ evs _ Hab) as (_ & Hq & Hs). fold w' in Hq, Hs.
  pose proof (numbered_run evs _ (numbered_action Sweep w Hnum)) as (_ & _ & _ & N4 & N5).
  simpl in N4, N5. fold w' in N4, N5.
  split; [done|]. split; [|split].
  - intros Hin. apply Hs. by apply list_elem_of_fmap_2.
  - intros Hin. by apply Hs, N4.
  - destruct (outcomes w' !! tid t) eqn:E; [|done]. exfalso. apply Hs, N5. eauto.
Qed.

(** An instance: the second task waits while the first is in flight for
    more than thirty seconds; it is swept, and the queue goes on without
    it. *)
Lemma swept_task_abandoned_witness :
  let evs0 := [Submit 1; Submit 1; Tick 30001] in
  let evs := [Settle 0 ok; Submit 5; Settle 2 ok; Tick 100] in
  let w' := run evs (sweep (run evs0 init)) in
  outcomes w' !! 1%nat = None ∧ outcomes w' !! 2%nat = Some ok.
Proof.
  intros evs0 evs w'. split; [|reflexivity].
  assert (Task 1 1 0 ∈ requestQueue (obj (run evs0 init))) as Hin
    by (apply list_elem_of_singleton; reflexivity).
  assert (now (run evs0 init) - timestamp (Task 1 1 0) > 30000) as Hage by reflexivity.
  exact (proj2 (proj2 (proj2 (swept_task_abandoned evs0 evs (Task 1 1 0) Hin Hage)))).
Defined.

(** *** The delay between batches *)

(** The guard of [processQueue] looks at the flag only, and
    [queueRequest] calls [processQueue()] at once: a submission that
    finds the flag unset dispatches a batch then and there, whatever the
    time of the last batch and whether or not the timer of the drain loop
    is pending. *)
Lemma submit_dispatches_at_once (prio : Z) (w : world) :
  isProcessing (obj w) = false →
  ∃ b, batches (queueRequest prio w) = batches w ++ [b]
       ∧ b_start b = now w ∧ b_prev_end b = lastBatchEnd w
       ∧ timers (queueRequest prio w) = timers w.
Proof.
  intros Hp. unfold queueRequest.
  match goal with |- context [processQueue ?w0] =>
    destruct (processQueue_cases w0) as [[_ [Hc|Hc]]|(_ & _ & ->)]; try (simpl in Hc) end.
  - congruence.
  - exfalso. pose proof (sort_perm (requestQueue (obj w) ++ [Task (nextId w) prio (now w)])) as Hperm.
    rewrite Hc in Hperm. apply Permutation_nil_l in Hperm. symmetry in Hperm.
    by apply app_eq_nil in Hperm as [_ ?].
  - simpl. by eexists.
Qed.

(** C7 at its failing input.  Two tasks are submitted; the first is
    dispatched at once and settles at time [40] while the second waits:
    [processQueue] resets the flag and arms the timer of the next pass
    for time [140].  A third task is submitted at time [50]: the second
    batch, with the task that was waiting for the timer, is dispatched at
    time [50], ten milliseconds after the first settled, and the timer is
    still pending.  And so for every submission that finds the flag
    unset: its batch starts at the time of the submission. *)
Theorem submit_bypasses_delay_timer :
  (let w := run [Submit 5; Submit 5; Tick 40; Settle 0 ok; Tick 10] init in
   let w' := step (Submit 5) w in
   lastBatchEnd w = Some 40 ∧ timers w = [140] ∧ now w = 50
   ∧ requestQueue (obj w) = [Task 1 5 0]
   ∧ batches w' = [Batch [Task 0 5 0] 0 None;
                   Batch [Task 1 5 0; Task 2 5 50] 50 (Some 40)]
   ∧ timers w' = [140])
  ∧ ∀ (evs : list event) (prio : Z),
      let w := resume_ready (run evs init) in
      isProcessing (obj w) = false →
      ∃ b, batches (step (Submit prio) (run evs init)) = batches w ++ [b]
           ∧ b_start b = now w ∧ b_prev_end b = lastBatchEnd w.
Proof.
  split; [by vm_compute|].
  intros evs prio w Hp. simpl. fold w.
  destruct (submit_dispatches_at_once prio w Hp) as (b & Hb & Hs & He & _). eauto.
Qed.

(** The statement of the design document, for runs without [clear()],
    fails at the shortest such run. *)
Lemma submit_in_delay_window_counterexample :
  ¬ (∀ evs b t,
        Forall (λ e, e ≠ Clear) evs →
        b ∈ batches (run evs init) →
        b_prev_end b = Some t →
        t + requestDelay (obj (run evs init)) ≤ b_start b).
Proof.
  intros H.
  specialize (H [Submit 5; Submit 5; Settle 0 ok; Submit 5]
                (Batch [Task 1 5 0; Task 2 5 0] 0 (Some 0)) 0).
  assert (0 + 100 ≤ 0) as Habs; [|lia].
  apply H; [repeat constructor; discriminate| |reflexivity].
  vm_compute. apply elem_of_cons. right. by apply list_elem_of_singleton.
Qed.

(** *** When the delay holds *)

(** The events that leave the delay alone, judged on the state the call
    finds: a task is submitted while a call of [processQueue] is
    suspended (the flag is set), or when no timer of the drain loop is
    pending and the last batch, if there was one, completed
    [requestDelay] ago or more; [clear()] is called when no call of
    [processQueue] is suspended. *)
Definition allowed_at (e : event) (w : world) : bool :=
  match e with
  | Clear | ThenClear => bool_decide (frames w = [])
  | Submit _ | ThenSubmit _ =>
      isProcessing (obj w)
      || (bool_decide (timers w = [])
          && match lastBatchEnd w with
             | Some t => bool_decide (t + requestDelay (obj w) ≤ now w)
             | None => true
             end)
  | _ => true
  end.

Definition allowed (e : event) (w : world) : bool :=
  allowed_at e (if own_task e then resume_ready w else w).

Fixpoint orderly (evs : list event) (w : world) : bool :=
  match evs with
  | [] => true
  | e :: evs' => allowed e w && orderly evs' (step e w)
  end.

(** While a call of [processQueue] is suspended no timer is pending;
    otherwise at most one is, armed [requestDelay] after the last batch
    completed.  Every batch in the log kept its distance from the batch
    before it. *)
Definition spaced (w : world) : Prop :=
  draining w
  ∧ (if isProcessing (obj w) then timers w = []
     else timers w = []
          ∨ ∃ t, lastBatchEnd w = Some t ∧ timers w = [t + requestDelay (obj w)])
  ∧ ∀ b t, b ∈ batches w → b_prev_end b = Some t →
           t + requestDelay (obj w) ≤ b_start b.

Lemma spaced_init : spaced init.
Proof.
  split; [apply draining_init|]. split; [by left|].
  intros b t Hb. by apply elem_of_nil in Hb.
Qed.

(** A pass of [processQueue] made when no timer is left pending and the
    last batch, if any, completed [requestDelay] ago or more. *)
Lemma spaced_processQueue (w : world) :
  draining w →
  timers w = [] →
  (∀ t, lastBatchEnd w = Some t → isProcessing (obj w) = false →
        t + requestDelay (obj w) ≤ now w) →
  (∀ b t, b ∈ batches w → b_prev_end b = Some t →
          t + requestDelay (obj w) ≤ b_start b) →
  spaced (processQueue w).
Proof.
  intros Hd Ht Hlast Hb. pose proof (draining_processQueue w Hd) as Hd'.
  destruct (processQueue_cases w) as [[Heq _]|(Hp & _ & Heq)]; rewrite Heq in *.
  - split; [done|]. split; [|done]. destruct (isProcessing (obj w)); [done|by left].
  - split; [done|]. simpl. split; [done|].
    intros b t Hin Hprev. apply elem_of_app in Hin as [Hin|Hin]; [by apply Hb|].
    apply list_elem_of_singleton in Hin as ->. simpl in *. by apply Hlast.
Qed.

Lemma spaced_queueRequest (prio : Z) (w : world) :
  allowed_at (Submit prio) w = true → spaced w → spaced (queueRequest prio w).
Proof.
  intros Hal (Hd & Ht & Hb). simpl in Hal. unfold queueRequest.
  apply spaced_processQueue; simpl.
  - exact Hd.
  - destruct (isProcessing (obj w)); [done|]. simpl in Hal.
    apply andb_true_iff in Hal as [Hal _]. by apply bool_decide_eq_true in Hal.
  - intros t Hl Hp. rewrite Hp, Hl in Hal. simpl in Hal.
    apply andb_true_iff in Hal as [_ Hal]. by apply bool_decide_eq_true in Hal.
  - exact Hb.
Qed.

Lemma spaced_clear (w : world) : frames w = [] → spaced w → spaced (clear w).
Proof.
  intros Hf (Hd & Ht & Hb). split; [by apply draining_clear|]. simpl. split; [|done].
  destruct (isProcessing (obj w)); [|done]. by left.
Qed.

Lemma spaced_resume_ready (w : world) : spaced w → spaced (resume_ready w).
Proof.
  intros (Hd & Ht & Hb). destruct (draining_resume_ready w Hd) as (Hd' & _ & _).
  split; [done|]. clear Hd'. destruct Hd as (Hm & Hin & Hfr). unfold resume_ready.
  destruct (isProcessing (obj w)) eqn:Hp.
  - destruct Hfr as (f & Hf & Hlen). rewrite Hf.
    destruct (decide (f = [])) as [->|Hne].
    + rewrite filter_cons_True by done. rewrite filter_cons_False by naive_solver.
      rewrite !filter_nil. simpl. split; [|done].
      rewrite Ht. case_bool_decide; [right|by left]. eauto.
    + rewrite filter_cons_False by done. rewrite filter_cons_True by done.
      rewrite !filter_nil. simpl. by rewrite Hp.
  - rewrite Hfr, !filter_nil. simpl. by rewrite Hp.
Qed.

Lemma spaced_action (e : event) (w : world) :
  allowed_at e w = true → spaced w → spaced (action e w).
Proof.
  intros Hal Hw. pose proof Hw as (Hd & Ht & Hb).
  destruct e as [prio|x o|i|d| | |prio|]; simpl in *.
  - by apply spaced_queueRequest.
  - split; [by apply draining_settle|]. unfold settle. by case_bool_decide.
  - unfold timer_fire. destruct (timers w !! i) as [due|] eqn:Hi; [|done].
    case_bool_decide as Hdue; [|done].
    destruct (isProcessing (obj w)) eqn:Hp; [by rewrite Ht in Hi|].
    destruct Ht as [Ht|(t & Hl & Ht)]; [by rewrite Ht in Hi|].
    rewrite Ht in Hi. destruct i as [|i]; [|done]. injection Hi as <-.
    apply spaced_processQueue; simpl.
    + exact Hd.
    + by rewrite Ht.
    + intros t' Hl' _. congruence.
    + exact Hb.
  - unfold tick. case_bool_decide; done.
  - done.
  - apply spaced_clear; [|done]. by apply bool_decide_eq_true in Hal.
  - by apply spaced_queueRequest.
  - apply spaced_clear; [|done]. by apply bool_decide_eq_true in Hal.
Qed.

Lemma spaced_step (e : event) (w : world) :
  allowed e w = true → spaced w → spaced (step e w).
Proof.
  unfold allowed, step. intros Hal Hs. apply spaced_action; [done|].
  destruct (own_task e); [by apply spaced_resume_ready|done].
Qed.

Lemma spaced_run (evs : list event) (w : world) :
  spaced w → orderly evs w = true → spaced (run evs w).
Proof.
  revert w. induction evs as [|e evs IH]; intros w Hs Ho; [done|].
  simpl in Ho. apply andb_true_iff in Ho as [Hal Ho].
  simpl. apply IH; [by apply spaced_step|done].
Qed.

(** X21.  Where the delay holds.  In a run of the queue in which every task is
    submitted while a call of [processQueue] is suspended, or when no
    timer of the drain loop is pending and the last batch completed
    [requestDelay] ago or more, and [clear()] is called only when no call
    of [processQueue] is suspended, each batch is dispatched no earlier
    than [requestDelay] after the batch before it completed; and at most
    one timer of the drain loop is pending, none while a batch is in
    flight. *)
Theorem batches_spaced (evs : list event) :
  orderly evs init = true →
  let w := run evs init in
  (∀ b t, b ∈ batches w → b_prev_end b = Some t → t + requestDelay (obj w) ≤ b_start b)
  ∧ (length (timers w) ≤ 1)%nat
  ∧ (inFlight w ≠ [] → timers w = []).
Proof.
  intros Ho w. destruct (spaced_run evs init spaced_init Ho) as (Hd & Ht & Hb).
  fold w in Hd, Ht, Hb. split; [exact Hb|].
  destruct Hd as (_ & Hin & Hfr). destruct (isProcessing (obj w)).
  - rewrite Ht. split; [simpl; lia|done].
  - split.
    + destruct Ht as [->|(t & _ & ->)]; simpl; lia.
    + intros Hne. by rewrite Hin, Hfr in Hne.
Qed.

(** An instance: three tasks arrive while the first is in flight, and the
    second batch is dispatched by the timer, [100] after the first
    completed at [40]; a minute after the second batch has completed a
    task is submitted to the idle queue and dispatched at once. *)
Lemma batches_spaced_witness :
  let evs := [Submit 5; Submit 1; Submit 10; Submit 5; Tick 40; Settle 0 ok;
              Tick 100; TimerFire 0; Settle 2 ok; Settle 3 ok; Settle 1 ok;
              Tick 60000; Submit 7] in
  batches (run evs init)
  = [Batch [Task 0 5 0] 0 None;
     Batch [Task 2 10 0; Task 3 5 0; Task 1 1 0] 140 (Some 40);
     Batch [Task 4 7 60140] 60140 (Some 140)]
  ∧ 40 + 100 ≤ 140 ∧ 140 + 100 ≤ 60140.
Proof.
  intros evs.
  assert (orderly evs init = true) as Ho by (vm_compute; reflexivity).
  assert (batches (run evs init)
          = [Batch [Task 0 5 0] 0 None;
             Batch [Task 2 10 0; Task 3 5 0; Task 1 1 0] 140 (Some 40);
             Batch [Task 4 7 60140] 60140 (Some 140)]) as Hb
    by (vm_compute; reflexivity).
  destruct (batches_spaced evs Ho) as (Hsp & _ & _).
  split; [exact Hb|]. split.
  - apply (Hsp (Batch [Task 2 10 0; Task 3 5 0; Task 1 1 0] 140 (Some 40)) 40);
      [|reflexivity].
    rewrite Hb. apply elem_of_cons. right. apply elem_of_cons. by left.
  - apply (Hsp (Batch [Task 4 7 60140] 60140 (Some 140)) 140); [|reflexivity].
    rewrite Hb. apply elem_of_cons. right. apply elem_of_cons. right.
    by apply list_elem_of_singleton.
Defined.

End RequestThrottleProofs.

(** ** The batch runner *)

Module UseBatchApiProofs.
Import UseBatchApi.

(** The value a call leaves in its slot. *)
Definition slot (call : apiCall) : value :=
  match call with Fulfilled v => v | Rejected _ => VNull end.

Lemma aligned_app (l1 l2 : list apiCall) : aligned (l1 ++ l2) = aligned l1 ++ aligned l2.
Proof. unfold aligned. apply fmap_app. Qed.

Lemma length_aligned (l : list apiCall) : length (aligned l) = length l.
Proof. unfold aligned. apply length_fmap. Qed.

(** An assignment to the slot just past the end appends. *)
Lemma js_set_end (v : value) (arr : list value) :
  js_set (length arr) v arr = arr ++ [v].
Proof.
  unfold js_set. rewrite bool_decide_eq_false_2 by lia.
  by rewrite Nat.sub_diag.
Qed.

Lemma store_guarded (i index : nat) (allResults : list value) (call : apiCall) :
  length allResults = (i + index)%nat →
  store i allResults index (guarded call) = allResults ++ [slot call].
Proof.
  intros Hlen. destruct call as [v|e]; simpl; rewrite <- Hlen; apply js_set_end.
Qed.

(** [forEach] stores the results of a batch behind what is there. *)
Lemma forEach_from (i k : nat) (batch : list apiCall) (allResults : list value) :
  length allResults = (i + k)%nat →
  fold_left (λ acc ir, store i acc ir.1 ir.2)
            (imap (λ j r, ((k + j)%nat, r)) (guarded <$> batch)) allResults
  = allResults ++ aligned batch.
Proof.
  revert k allResults. induction batch as [|call batch IH]; intros k allResults Hlen; simpl.
  - by rewrite app_nil_r.
  - rewrite Nat.add_0_r, store_guarded by done.
    rewrite (imap_ext _ (λ j r, ((S k + j)%nat, r))).
    + rewrite IH by (rewrite length_app; simpl; lia). by rewrite <- app_assoc.
    + intros j r _. simpl. f_equal. lia.
Qed.

Lemma forEach_store_batch (i : nat) (batch : list apiCall) (allResults : list value) :
  length allResults = i →
  forEach_store i (guarded <$> batch) allResults = allResults ++ aligned batch.
Proof.
  intros Hlen. unfold forEach_store.
  rewrite (imap_ext _ (λ j r, ((0 + j)%nat, r))) by done.
  apply forEach_from. lia.
Qed.

(** The timers of a batch fire in some order, each once. *)
Lemma fire_after_perm (wait : nat → Z) (k : nat) (fired : list nat) :
  fire_after wait k fired ≡ₚ k :: fired.
Proof.
  induction fired as [|k' fired IH]; simpl; [done|].
  case_bool_decide; [|done]. rewrite IH. apply Permutation_swap.
Qed.

Lemma firing_order_perm (wait : nat → Z) (indices : list nat) :
  firing_order wait indices ≡ₚ indices.
Proof.
  induction indices as [|k indices IH]; simpl; [done|].
  by rewrite fire_after_perm, IH.
Qed.

(** With equal delays the calls are made in the order of the list. *)
Lemma firing_order_equal_delays (d : Z) (indices : list nat) :
  firing_order (λ _, d) indices = indices.
Proof.
  induction indices as [|k indices IH]; simpl; [done|]. rewrite IH.
  destruct indices; simpl; [done|]. by rewrite bool_decide_eq_false_2 by lia.
Qed.

(** The loop from index [i], entered with the slots of the first [i]
    calls filled and those calls made: with a positive batch size it
    ends, with every slot filled and every call made once. *)
Lemma loop_from (fuel batchSize i : nat) (wait : nat → Z) (apiCalls : list apiCall)
    (called : list nat) :
  (0 < batchSize)%nat →
  (length apiCalls - i < fuel)%nat →
  called ≡ₚ seq 0 (i `min` length apiCalls) →
  ∃ called',
    loop fuel wait apiCalls batchSize i (aligned (take i apiCalls)) called
    = Some (aligned apiCalls, called')
    ∧ called' ≡ₚ seq 0 (length apiCalls).
Proof.
  intros Hb. revert i called. induction fuel as [|fuel IH]; intros i called Hfuel Hc; [lia|].
  simpl. case_bool_decide as Hi.
  - rewrite forEach_store_batch by (rewrite length_aligned, length_take; lia).
    unfold slice. rewrite <- aligned_app, take_take_drop.
    replace (i + batchSize - i)%nat with batchSize by lia.
    rewrite length_take, length_drop.
    apply IH; [lia|]. rewrite Hc, firing_order_perm.
    replace (i `min` length apiCalls)%nat with i by lia.
    replace ((i + batchSize) `min` length apiCalls)%nat
      with (i + batchSize `min` (length apiCalls - i))%nat by lia.
    by rewrite seq_app.
  - rewrite take_ge by lia. exists called. split; [done|].
    by replace (i `min` length apiCalls)%nat with (length apiCalls) in Hc by lia.
Qed.

(** A batch size of zero is no batch size: the index of the loop never
    advances, and [executeBatch] does not return. *)
Lemma zero_batch_size_never_returns (fuel : nat) (wait : nat → Z) (call : apiCall)
    (apiCalls : list apiCall) (h : hook) :
  executeBatch fuel wait true 0 (call :: apiCalls) h = None.
Proof.
  unfold executeBatch. simpl.
  assert (∀ acc called, loop fuel wait (call :: apiCalls) 0 0 acc called = None) as Hloop.
  { induction fuel as [|fuel IH]; intros acc called; [done|].
    simpl. apply IH. }
  by rewrite Hloop.
Qed.

(** C8, as the design document states it (every input list, every batch
    size), fails twice over, even where the list is not empty and even
    where the batch size is positive.  With a batch size of zero and one
    call, [executeBatch] never returns.  With an empty list it returns
    at its guard and leaves [results] as the run before left it: here a
    list of one value for an input of none. *)
Lemma executeBatch_counterexample :
  ¬ (∀ (wait : nat → Z) (batchSize : nat) (apiCalls : list apiCall) (h : hook),
        apiCalls ≠ [] →
        ∃ fuel h' called,
          executeBatch fuel wait true batchSize apiCalls h = Some (h', called)
          ∧ results h' = aligned apiCalls)
  ∧ ¬ (∀ (wait : nat → Z) (batchSize : nat) (apiCalls : list apiCall) (h : hook),
          (0 < batchSize)%nat →
          ∃ fuel h' called,
            executeBatch fuel wait true batchSize apiCalls h = Some (h', called)
            ∧ results h' = aligned apiCalls).
Proof.
  split; intros H.
  - destruct (H (λ _, 0) 0%nat [Fulfilled (VNum 1)] hook0) as (fuel & h' & called & Hrun & _);
      [done|].
    by rewrite zero_batch_size_never_returns in Hrun.
  - destruct (H (λ _, 0) 3%nat []
                {| results := [VNum 1]; loading := false; error := VNull; progress := 100 |})
      as (fuel & h' & called & Hrun & Hres); [lia|].
    injection Hrun as <- _. discriminate Hres.
Qed.

(** C8 (amended).  For every list of calls that is not empty, every
    positive batch size, whatever the random delays and whichever calls
    fail, [executeBatch] of an enabled hook returns, and leaves in
    [results] a list of the length of the input in which the slot of each
    call that failed holds [null] and the slot of each call that
    succeeded holds its value.  Every call was made, once: a failure
    aborts and skips nothing.  For an empty list, or when the hook is
    disabled, [executeBatch] returns at once and leaves the hook as it
    is. *)
Theorem executeBatch_aligned (fuel batchSize : nat) (wait : nat → Z)
    (apiCalls : list apiCall) (h : hook) :
  (0 < batchSize)%nat →
  (length apiCalls < fuel)%nat →
  apiCalls ≠ [] →
  (∃ h' called,
      executeBatch fuel wait true batchSize apiCalls h = Some (h', called)
      ∧ results h' = aligned apiCalls
      ∧ length (results h') = length apiCalls
      ∧ called ≡ₚ seq 0 (length apiCalls))
  ∧ executeBatch fuel wait true batchSize [] h = Some (h, [])
  ∧ executeBatch fuel wait false batchSize apiCalls h = Some (h, []).
Proof.
  intros Hb Hfuel Hne. split; [|done]. unfold executeBatch. simpl.
  rewrite bool_decide_eq_false_2 by (by destruct apiCalls).
  destruct (loop_from fuel batchSize 0 wait apiCalls [] Hb) as (called & Hloop & Hc);
    [lia|done|].
  rewrite take_0 in Hloop. simpl in Hloop. rewrite Hloop.
  eexists _, _. split; [done|]. simpl. split; [done|]. split; [apply length_aligned|done].
Qed.

(** The instance of the design document: the second of three calls
    fails, the batch size is two.  The timer of the second call fires
    before that of the first. *)
Lemma executeBatch_aligned_witness :
  let wait := λ k : nat, match k with O => 30 | 1%nat => 10 | _ => 20 end in
  let apiCalls := [Fulfilled (VNum 1); Rejected (VStr "down"); Fulfilled (VNum 3)] in
  ∃ h' called,
    executeBatch 4 wait true 2 apiCalls hook0 = Some (h', called)
    ∧ results h' = [VNum 1; VNull; VNum 3]
    ∧ length (results h') = 3%nat
    ∧ called = [1; 0; 2]%nat.
Proof.
  intros wait apiCalls.
  destruct (executeBatch_aligned 4 2 wait apiCalls hook0
              (le_S _ _ (le_n 1)) (le_n 4) ltac:(discriminate))
    as ((h' & called & Hrun & Hres & Hlen & _) & _).
  exists h', called. split; [exact Hrun|]. split; [exact Hres|]. split; [exact Hlen|].
  vm_compute in Hrun. by injection Hrun as _ <-.
Defined.

End UseBatchApiProofs.

(** ** The cache-aware fetch hook *)

Module UseApiCacheProofs.
Import UseApiCache.

Lemma hook_run_app (o : options) (evs1 evs2 : list event) (w : world) :
  run o (evs1 ++ evs2) w = run o evs2 (run o evs1 w).
Proof. unfold run. apply fold_left_app. Qed.

Lemma hook_run_snoc (o : options) (evs : list event) (e : event) (w : world) :
  run o (evs ++ [e]) w = step o e (run o evs w).
Proof. rewrite hook_run_app. reflexivity. Qed.

Section Retry.

(** The number of retries configured is [S more]: at least one. *)
Variable more : nat.

(** The options of the dashboard for its list of quizzes, with the
    default [cacheDuration] and [retryDelay]. *)
Definition opt : options :=
  {| cacheKey := "dashboard_kuis"; cacheDuration := CACHE_DURATION;
     enabled := true; retryCount := S more; retryDelay := 1000 |}.

(** The first call of [fetchData] is promise [0], its request promise is
    [1], the promise of the first call of the operation is [2].  The
    operation fails with [err], and a second later the retry timer
    fires. *)
Definition first_failure (err : value) : list event :=
  [Fetch; ApiSettle 2 (Rejected err); Tick 1000; TimerFire 1].

(** The state the retry leaves behind.  The registration made for the
    request promise [1] is still in [pendingRequests] when the retry calls
    [fetchData(true)], so that call (promise [3]) joins it instead of
    calling the operation: [1] follows [3], and [3] waits for [1].  The
    operation was called once, nothing is outstanding, and every
    suspended function waits for [1]. *)
Definition knotted (w : world) : Prop :=
  globalCache w !! cacheKey opt = None
  ∧ pendingRequests w !! cacheKey opt = Some 1%nat
  ∧ promises w !! 0%nat = Some Pending
  ∧ promises w !! 1%nat = Some (Follows 3)
  ∧ promises w !! 3%nat = Some Pending
  ∧ Forall (λ f, awaited_of f = 1%nat) (frames w)
  ∧ apiCalls w = 1%nat
  ∧ apiPending w = []
  ∧ timers w = []
  ∧ (3 < next w)%nat.

Lemma knotted_first_failure (err : value) : knotted (run opt (first_failure err) init).
Proof.
  unfold knotted. repeat split; try reflexivity.
  - repeat constructor.
  - vm_compute. lia.
Qed.

Lemma knotted_unresolved (w : world) (p : nat) :
  knotted w → p = 0%nat ∨ p = 1%nat ∨ p = 3%nat → resolved w p = None.
Proof.
  intros (_ & _ & H0 & H1 & H3 & _ & _ & _ & _ & Hn) Hp. unfold resolved.
  destruct (next w) as [|[|[|n]]]; try lia.
  destruct Hp as [->|[->| ->]]; simpl.
  - by rewrite H0.
  - by rewrite H1, H3.
  - by rewrite H3.
Qed.

Lemma knotted_runnable (w : world) : knotted w → runnable w (frames w) = None.
Proof.
  intros Hk. pose proof (knotted_unresolved w 1 Hk) as Hun.
  destruct Hk as (_ & _ & _ & _ & _ & Hfr & _).
  induction Hfr as [|f fs Hf _ IH]; simpl; [done|].
  rewrite Hf, Hun by auto. by rewrite IH.
Qed.

Lemma knotted_microtasks (w : world) : knotted w → microtasks opt w = w.
Proof.
  intros Hk. unfold microtasks. destruct (length (frames w)); simpl; [done|].
  by rewrite knotted_runnable.
Qed.

(** Nothing unties the knot: not time, not a settlement or a timer (none
    is outstanding), and not another call of [fetchData], which joins the
    same registration. *)
Lemma knotted_step (e : event) (w : world) : knotted w → knotted (step opt e w).
Proof.
  intros Hk. pose proof Hk as (Hc & Hp & H0 & H1 & H3 & Hfr & Hcalls & Hap & Ht & Hn).
  destruct e as [|p o|self|d]; simpl.
  - assert (knotted (fetchData opt false w).2) as Hk'.
    { unfold fetchData, alloc, cache_hit; simpl. simpl in Hc, Hp. rewrite Hc, Hp. simpl.
      unfold knotted; simpl.
      rewrite !lookup_insert_ne by lia.
      repeat split; try done; [|lia].
      apply Forall_app. split; [done|]. by repeat constructor. }
    by rewrite knotted_microtasks.
  - unfold api_settle. rewrite Hap. by rewrite bool_decide_eq_false_2 by apply not_elem_of_nil.
  - unfold timer_fire. by rewrite Ht.
  - case_bool_decide; done.
Qed.

Lemma knotted_run (evs : list event) (w : world) : knotted w → knotted (run opt evs w).
Proof.
  intros Hk. induction evs as [|e evs IH] using rev_ind; [done|].
  rewrite hook_run_snoc. by apply knotted_step.
Qed.

End Retry.

(** C2 at its failing inputs: any number of retries from one up (the
    default is three), and an operation that fails.  After the first
    failure the retry is armed, one [retryDelay] ahead; when it runs, it
    joins its own request.  From then on, whatever happens (time, other
    calls of [fetchData]), the operation has been called once, not
    [retryCount + 1] times, and the promise of the caller does not settle:
    the caller sees neither the retries nor the failure, and [loading]
    stays set. *)
Theorem retry_joins_own_request (more : nat) (err : value) :
  timers (run (opt more) [Fetch; ApiSettle 2 (Rejected err)] init) = [(1%nat, 1000)]
  ∧ st_loading (run (opt more) (first_failure err) init) = true
  ∧ ∀ evs,
      let w := run (opt more) (first_failure err ++ evs) init in
      apiCalls w = 1%nat
      ∧ apiPending w = []
      ∧ timers w = []
      ∧ runnable w (frames w) = None
      ∧ resolved w 0 = None.
Proof.
  split; [reflexivity|]. split; [reflexivity|]. intros evs w.
  assert (knotted more w) as Hk.
  { unfold w. rewrite hook_run_app. apply knotted_run, knotted_first_failure. }
  pose proof Hk as (_ & _ & _ & _ & _ & _ & Hcalls & Hap & Ht & _).
  repeat split; try done.
  - by apply knotted_runnable with more.
  - apply knotted_unresolved with more; auto.
Qed.

(** With no retries configured the claim holds: one attempt, and the
    failure reaches the caller. *)
Lemma no_retry_surfaces_failure (err : value) :
  let w := run {| cacheKey := "dashboard_kuis"; cacheDuration := CACHE_DURATION;
                  enabled := true; retryCount := 0; retryDelay := 1000 |}
               [Fetch; ApiSettle 2 (Rejected err)] init in
  apiCalls w = 1%nat ∧ resolved w 0 = Some (Rejected err) ∧ st_error w = err
  ∧ pendingRequests w = ∅.
Proof. repeat split; reflexivity. Qed.

End UseApiCacheProofs.

(** * Further properties of the code *)

(** ** The response cache: invalidation, sweep and keys *)

Module RequestCacheMore.
Import RequestCache.

(** [clearPattern(pattern)].  The pattern enters only through
    [regex.test(key)] of the [RegExp] built from it (a regular expression
    without flags, so the test has no state): [test] is that function.
    (A pattern that is no regular expression makes [new RegExp] throw
    before any key is looked at.) *)
Definition clearPattern (test : string → bool) (c : t) : t :=
  with_cache c (filter (λ kv : string * entry, test kv.1 = false) (cache c)).

(** A url, a method or a body without a colon. *)
Fixpoint colon_free (s : string) : bool :=
  match s with
  | EmptyString => true
  | String a s' => negb (Ascii.eqb a ":"%char) && colon_free s'
  end.

Lemma t_eq (c1 c2 : t) :
  cache c1 = cache c2 → cacheTimeout c1 = cacheTimeout c2 →
  pendingRequests c1 = pendingRequests c2 → c1 = c2.
Proof. destruct c1, c2; simpl; by intros -> -> ->. Qed.

(** [get] in terms of the entry found. *)
Lemma get_lookup (now : Z) (key : string) (c : t) :
  get now key c =
    match cache c !! key with
    | Some cached =>
        if bool_decide (now - timestamp cached ≤ cacheTimeout c)
        then (data cached, c)
        else (VNull, delete key c)
    | None => (VNull, c)
    end.
Proof.
  unfold get. destruct (cache c !! key) as [cached|]; [|done].
  repeat case_bool_decide; try lia; done.
Qed.

(** X1.  Pattern invalidation.  After [clearPattern], a key that matches is
    absent; for a key that does not match, [get] returns what it would
    have returned, and the two operations commute.  The pending requests
    are not touched. *)
Theorem clearPattern_get (test : string → bool) (now : Z) (key : string) (c : t) :
  get now key (clearPattern test c) =
    (if test key then (VNull, clearPattern test c)
     else ((get now key c).1, clearPattern test (get now key c).2))
  ∧ pendingRequests (clearPattern test c) = pendingRequests c.
Proof.
  split; [|done]. rewrite !get_lookup. unfold clearPattern at 1; simpl.
  rewrite map_lookup_filter. destruct (cache c !! key) as [cached|] eqn:Hk; simpl.
  - destruct (test key) eqn:Ht.
    + rewrite option_guard_False by (simpl; congruence). done.
    + rewrite option_guard_True by done. simpl.
      case_bool_decide; simpl; [done|]. f_equal.
      apply t_eq; simpl; [|done|done]. by rewrite map_filter_delete.
  - by destruct (test key).
Qed.

(** X2.  The last [set] wins and restarts the clock of the entry; [delete]
    undoes a [set]; and after [delete] the key is absent, whether it was
    present or not. *)
Theorem set_overwrites_delete_removes (c : t) (key : string) (d1 d2 : value)
    (T1 T2 now : Z) :
  set T2 key d2 (set T1 key d1 c) = set T2 key d2 c
  ∧ delete key (set T1 key d1 c) = delete key c
  ∧ get now key (delete key c) = (VNull, delete key c).
Proof.
  split; [|split].
  - apply t_eq; simpl; [apply insert_insert_eq|done|done].
  - apply t_eq; simpl; [apply delete_insert_eq|done|done].
  - rewrite get_lookup. simpl. by rewrite lookup_delete_eq.
Qed.

(** X3.  [set] and [delete] on one key do not change what [get] returns for
    another. *)
Theorem other_keys_untouched (c : t) (key other : string) (d : value) (T now : Z) :
  key ≠ other →
  (get now other (set T key d c)).1 = (get now other c).1
  ∧ (get now other (delete key c)).1 = (get now other c).1.
Proof.
  intros Hne. rewrite !get_lookup. simpl.
  rewrite lookup_insert_ne, lookup_delete_ne by done.
  destruct (cache c !! other); [|done]. by case_bool_decide.
Qed.

Lemma other_keys_untouched_witness :
  (get 10 "/kelas/get-kelas" (set 5 "/kuis/get-kuis" (VNum 2)
     (set 0 "/kelas/get-kelas" (VNum 1) new))).1 = VNum 1.
Proof.
  exact (eq_trans
           (proj1 (other_keys_untouched (set 0 "/kelas/get-kelas" (VNum 1) new)
                     "/kuis/get-kuis" "/kelas/get-kelas" (VNum 2) 5 10
                     ltac:(discriminate)))
           eq_refl).
Defined.

(** X4.  The sweep and the lookup agree.  A sweep at time [swept] changes the
    result of no lookup at that time or later: what it removes, the
    lookup would have found expired.  Sweeping twice at the same time is
    sweeping once, and the sweep leaves the pending requests alone. *)
Theorem cleanup_agrees_with_get (c : t) (key : string) (swept now : Z) :
  swept ≤ now →
  (get now key (cleanup swept c)).1 = (get now key c).1
  ∧ cleanup swept (cleanup swept c) = cleanup swept c
  ∧ pendingRequests (cleanup swept c) = pendingRequests c.
Proof.
  intros Hle. split; [|split; [|done]].
  - rewrite !get_lookup. unfold cleanup; simpl. rewrite map_lookup_filter.
    destruct (cache c !! key) as [cached|]; simpl; [|done].
    destruct (decide (swept - timestamp cached > cacheTimeout c)) as [Hold|Hyoung].
    + rewrite option_guard_False by (simpl; tauto). simpl.
      rewrite bool_decide_eq_false_2 by lia. done.
    + rewrite option_guard_True by done. simpl. by case_bool_decide.
  - apply t_eq; simpl; [|done|done]. apply map_filter_filter_l.
    intros k e _ H. exact H.
Qed.

Lemma cleanup_agrees_with_get_witness :
  (get 400000 "a" (cleanup 350000 (set 0 "a" (VNum 1) new))).1 = VNull
  ∧ (get 400000 "b" (cleanup 350000 (set 200000 "b" (VNum 2) new))).1 = VNum 2.
Proof.
  split.
  - exact (eq_trans
             (proj1 (cleanup_agrees_with_get (set 0 "a" (VNum 1) new) "a" 350000 400000
                       ltac:(discriminate)))
             eq_refl).
  - exact (eq_trans
             (proj1 (cleanup_agrees_with_get (set 200000 "b" (VNum 2) new) "b" 350000 400000
                       ltac:(discriminate)))
             eq_refl).
Defined.

(** [clear()] is idempotent and leaves nothing to count. *)
Lemma clear_idempotent (c : t) :
  clear (clear c) = clear c ∧ getStats (clear c) = (0%nat, 0%nat).
Proof.
  split; [done|]. unfold getStats, clear; simpl. by rewrite !map_size_empty.
Qed.

(** *** [generateKey] *)

Lemma append_colon_inj (a b x y : string) :
  colon_free a = true → colon_free b = true →
  a +:+ ":" +:+ x = b +:+ ":" +:+ y → a = b ∧ x = y.
Proof.
  revert b. induction a as [|ch a IH]; intros [|ch' b]; simpl; intros Ha Hb Heq.
  - by injection Heq.
  - injection Heq as <- _. discriminate Hb.
  - injection Heq as -> _. discriminate Ha.
  - injection Heq as -> Heq. apply andb_true_iff in Ha as [_ Ha].
    apply andb_true_iff in Hb as [_ Hb].
    destruct (IH b Ha Hb Heq) as [-> ->]. done.
Qed.

(** The body text determines a truthy body.  A number is written without
    a quotation mark and a string inside two; the characters of a string
    are written in a code that can be read back, one character at a
    time. *)
Lemma app_String (a : ascii) (s r : string) : String a s +:+ r = String a (s +:+ r).
Proof. reflexivity. Qed.

Lemma app_assoc_string (a b c : string) : (a +:+ b) +:+ c = a +:+ (b +:+ c).
Proof.
  induction a as [|x a IH]; [reflexivity|]. by rewrite !app_String, IH.
Qed.

Definition unhex (a : ascii) : nat :=
  let n := nat_of_ascii a in if (n <? 58)%nat then (n - 48)%nat else (n - 87)%nat.

(** The character that the text of a string starts with, and the rest of
    the text; [None] at the closing quotation mark. *)
Definition json_unchar (s : string) : option (ascii * string) :=
  match s with
  | EmptyString => None
  | String a rest =>
      if Ascii.eqb a quote_char then None
      else if Ascii.eqb a backslash then
        match rest with
        | String d rest' =>
            if Ascii.eqb d "u" then
              match rest' with
              | String _ (String _ (String h (String l rest''))) =>
                  Some (ascii_of_nat (16 * unhex h + unhex l), rest'')
              | _ => None
              end
            else if Ascii.eqb d "b" then Some (ascii_of_nat 8, rest')
            else if Ascii.eqb d "t" then Some (ascii_of_nat 9, rest')
            else if Ascii.eqb d "n" then Some (ascii_of_nat 10, rest')
            else if Ascii.eqb d "f" then Some (ascii_of_nat 12, rest')
            else if Ascii.eqb d "r" then Some (ascii_of_nat 13, rest')
            else Some (d, rest')
        | EmptyString => None
        end
      else Some (a, rest)
  end.

Lemma json_unchar_char (c : ascii) (rest : string) :
  json_unchar (json_char c +:+ rest) = Some (c, rest).
Proof. destruct c as [[] [] [] [] [] [] [] []]; reflexivity. Qed.

Lemma json_chars_inj (s s' t t' : string) :
  json_chars s +:+ String quote_char t = json_chars s' +:+ String quote_char t' →
  s = s' ∧ t = t'.
Proof.
  revert s'. induction s as [|c s IH]; intros [|c' s'] Heq.
  - by injection Heq.
  - apply (f_equal json_unchar) in Heq. revert Heq.
    change (json_chars (String c' s')) with (json_char c' +:+ json_chars s').
    by rewrite app_assoc_string, json_unchar_char.
  - apply (f_equal json_unchar) in Heq. revert Heq.
    change (json_chars (String c s)) with (json_char c +:+ json_chars s).
    by rewrite app_assoc_string, json_unchar_char.
  - apply (f_equal json_unchar) in Heq. revert Heq.
    change (json_chars (String c s)) with (json_char c +:+ json_chars s).
    change (json_chars (String c' s')) with (json_char c' +:+ json_chars s').
    rewrite !app_assoc_string, !json_unchar_char. intros [= -> Heq].
    by destruct (IH _ Heq) as [-> ->].
Qed.

(** The digits of a number: no quotation mark in front, and at least one
    digit. *)
Lemma pretty_N_go_unquoted (x : N) (s : string) :
  (∀ t, s ≠ String quote_char t) → ∀ t, pretty_N_go x s ≠ String quote_char t.
Proof.
  revert s. induction (N.lt_wf_0 x) as [x _ IH]; intros s Hs t.
  destruct (decide (x = 0%N)) as [->|Hx]; [rewrite pretty_N_go_0; apply Hs|].
  rewrite pretty_N_go_step by lia. apply IH; [apply N.div_lt; lia|].
  intros t' [= Hd _]. revert Hd. unfold pretty_N_char. by repeat case_match.
Qed.

Lemma pretty_N_go_nonempty (x : N) (s : string) :
  pretty_N_go x s = EmptyString → s = EmptyString ∧ x = 0%N.
Proof.
  revert s. induction (N.lt_wf_0 x) as [x _ IH]; intros s Heq.
  destruct (decide (x = 0%N)) as [->|Hx]; [by rewrite pretty_N_go_0 in Heq|].
  rewrite pretty_N_go_step in Heq by lia.
  apply IH in Heq as [Heq _]; [discriminate Heq|apply N.div_lt; lia].
Qed.

Lemma pretty_Z_unquoted (n : Z) (t : string) : pretty n ≠ String quote_char t.
Proof.
  destruct n as [|p|p]; [done| |done].
  unfold pretty, pretty_Z, pretty, pretty_positive, pretty, pretty_N.
  rewrite decide_False by done. by apply pretty_N_go_unquoted.
Qed.

Lemma pretty_Z_nonempty (n : Z) : pretty n ≠ EmptyString.
Proof.
  destruct n as [|p|p]; [done| |done].
  unfold pretty, pretty_Z, pretty, pretty_positive, pretty, pretty_N.
  rewrite decide_False by done. intros Heq.
  by apply pretty_N_go_nonempty in Heq as [_ ?].
Qed.

Lemma JSON_stringify_inj (v1 v2 : value) :
  truthy v1 = true → truthy v2 = true →
  JSON_stringify v1 = JSON_stringify v2 → v1 = v2.
Proof.
  intros H1 H2 Heq.
  destruct v1 as [| |n1|s1], v2 as [| |n2|s2]; try discriminate; clear H1 H2; simpl in Heq.
  - by apply (inj pretty) in Heq as ->.
  - by apply pretty_Z_unquoted in Heq.
  - symmetry in Heq. by apply pretty_Z_unquoted in Heq.
  - injection Heq as Heq. by apply json_chars_inj in Heq as [-> _].
Qed.

Lemma bodyStr_truthy (v : value) : truthy v = true → bodyStr v ≠ EmptyString.
Proof.
  intros Hv. unfold bodyStr. rewrite Hv.
  destruct v as [| |n|s]; try discriminate. apply pretty_Z_nonempty.
Qed.

(** X6.  The key of a request whose method and url contain no colon
    determines the method and the url, and it determines the body where
    the body is truthy.  It does not tell the falsy bodies apart: the
    text that stands for [null], [undefined], [0] and [''] is empty, so
    requests that differ in such bodies share the key of the request
    without a body. *)
Theorem generateKey_injective (url1 method1 url2 method2 : string) (body1 body2 : value) :
  colon_free method1 = true → colon_free method2 = true →
  colon_free url1 = true → colon_free url2 = true →
  generateKey url1 method1 body1 = generateKey url2 method2 body2 →
  url1 = url2 ∧ method1 = method2
  ∧ (body1 = body2 ∨ (truthy body1 = false ∧ truthy body2 = false))
  ∧ (truthy body1 = false → generateKey url1 method1 body1 = generateKey url1 method1 VNull).
Proof.
  intros Hm1 Hm2 Hu1 Hu2 Heq. unfold generateKey in Heq.
  apply append_colon_inj in Heq as [-> Heq]; [|done|done].
  apply append_colon_inj in Heq as [-> Hb]; [|done|done].
  split; [done|]. split; [done|]. split.
  - destruct (truthy body1) eqn:H1, (truthy body2) eqn:H2.
    + left. apply JSON_stringify_inj; [done|done|]. unfold bodyStr in Hb. by rewrite H1, H2 in Hb.
    + exfalso. apply (bodyStr_truthy body1 H1). rewrite Hb. unfold bodyStr. by rewrite H2.
    + exfalso. apply (bodyStr_truthy body2 H2). rewrite <- Hb. unfold bodyStr. by rewrite H1.
    + by right.
  - intros Hf. unfold generateKey, bodyStr. by rewrite Hf.
Qed.

(** An instance: two requests that differ in their bodies, [0] and
    [null], and have the same key. *)
Lemma generateKey_injective_witness :
  generateKey "/kelas/get-kelas" "GET" (VNum 0) = generateKey "/kelas/get-kelas" "GET" VNull
  ∧ VNum 0 ≠ VNull
  ∧ (VNum 0 = VNull ∨ (truthy (VNum 0) = false ∧ truthy VNull = false)).
Proof.
  split; [reflexivity|]. split; [discriminate|].
  exact (proj1 (proj2 (proj2 (generateKey_injective "/kelas/get-kelas" "GET"
           "/kelas/get-kelas" "GET" (VNum 0) VNull
           eq_refl eq_refl eq_refl eq_refl eq_refl)))).
Defined.

(** With a colon in the method two different requests can share a key. *)
Lemma generateKey_colon_collision :
  generateKey "a:b" "GET" (VNum 1) = generateKey "b" "GET:a" (VNum 1).
Proof. reflexivity. Qed.

End RequestCacheMore.

(** ** The deduplicator: registrations and suspended calls *)

Module DedupMore.
Import Dedup.

(** Every registration belongs to a suspended call, and the promises in
    use have been handed out. *)
Definition tidy (s : state) : Prop :=
  (∀ k p, s.1 !! k = Some p → awaiting s.2 !! p = Some k ∧ (p < next s.2)%nat)
  ∧ (∀ p k, awaiting s.2 !! p = Some k → (p < next s.2)%nat).

Lemma tidy_init : tidy init.
Proof.
  split; simpl; intros ? ? H; rewrite lookup_empty in H; discriminate.
Qed.

Lemma tidy_step (e : event) (s : state) :
  permitted e s = true → tidy s → tidy (step e s).
Proof.
  intros Hperm [Hreg Haw]. destruct s as [pend rt]. simpl in *.
  destruct e as [key|p o|p|]; simpl.
  - unfold deduplicate. destruct (pend !! key) as [p|] eqn:Hk; [done|].
    split; simpl.
    + intros k p. destruct (decide (key = k)) as [->|Hne].
      * rewrite lookup_insert_eq. intros [= <-]. rewrite lookup_insert_eq. split; [done|lia].
      * rewrite lookup_insert_ne by done. intros Hp. destruct (Hreg _ _ Hp) as [Ha Hlt].
        rewrite lookup_insert_ne by lia. split; [done|lia].
    + intros p k. destruct (decide (next rt = p)) as [<-|Hne]; [lia|].
      rewrite lookup_insert_ne by done. intros Hp. apply Haw in Hp. lia.
  - unfold settle. case_bool_decide; done.
  - unfold resume. destruct (awaiting rt !! p) as [key|] eqn:Ha; [|done].
    destruct (settled rt !! p); [|done]. split; simpl.
    + intros k q. destruct (decide (key = k)) as [->|Hne].
      * rewrite lookup_delete_eq. discriminate.
      * rewrite lookup_delete_ne by done. intros Hq. destruct (Hreg _ _ Hq) as [Hq' Hlt].
        split; [|done]. rewrite lookup_delete_ne; [done|]. intros ->. congruence.
    + intros q k. destruct (decide (p = q)) as [->|Hne].
      * rewrite lookup_delete_eq. discriminate.
      * rewrite lookup_delete_ne by done. apply Haw.
  - apply bool_decide_eq_true in Hperm. split; simpl.
    + intros k p H. rewrite lookup_empty in H. discriminate.
    + done.
Qed.

Lemma tidy_run (evs : list event) (s : state) :
  tidy s → permitted_run evs s = true → tidy (run evs s).
Proof.
  revert s. induction evs as [|e evs IH]; intros s Ht Hp; [done|].
  simpl in Hp. apply andb_true_iff in Hp as [He Hp].
  simpl. apply IH; [by apply tidy_step|done].
Qed.

(** X7.  As long as [clear()] is not called while an operation is in flight,
    registrations and suspended calls correspond one to one: a key is
    registered with promise [p] exactly when the call suspended on [p] is
    the call for that key.  So no two operations for one key are in
    flight, and no registration is left behind: when no call is suspended,
    [pendingRequests] is empty. *)
Theorem registrations_match_calls (s : state) :
  reachable s →
  (∀ k p, s.1 !! k = Some p ↔ awaiting s.2 !! p = Some k)
  ∧ (∀ p q k, awaiting s.2 !! p = Some k → awaiting s.2 !! q = Some k → p = q)
  ∧ (awaiting s.2 = ∅ → s.1 = ∅).
Proof.
  intros Hr. pose proof (DedupProofs.reachable_registered_frames s Hr) as Hfr.
  destruct Hr as (evs & Hevs & ->).
  destruct (tidy_run evs init tidy_init Hevs) as [Hreg _].
  split; [|split].
  - intros k p. split; [intros H; by apply Hreg|apply Hfr].
  - intros p q k Hp Hq. apply Hfr in Hp, Hq. congruence.
  - intros Hempty. apply map_empty. intros k.
    destruct ((run evs init).1 !! k) as [p|] eqn:Hk; [|done].
    apply Hreg in Hk as [Hk _]. rewrite Hempty, lookup_empty in Hk. discriminate.
Qed.

Lemma registrations_match_calls_witness :
  let s := run [Call "a"; Call "b"; Call "a"; Settle 0 (Fulfilled VNull); Resume 0] init in
  s.1 !! "b" = Some 1%nat ∧ awaiting s.2 !! 1%nat = Some "b" ∧ s.1 !! "a" = None.
Proof.
  intros s.
  assert (reachable s) as Hr.
  { exists [Call "a"; Call "b"; Call "a"; Settle 0 (Fulfilled VNull); Resume 0].
    split; reflexivity. }
  destruct (registrations_match_calls s Hr) as (Hiff & _ & _).
  split; [reflexivity|]. split; [exact (proj1 (Hiff "b" 1%nat) eq_refl)|reflexivity].
Defined.

(** The promise of every suspended call has been handed out, after any
    events. *)
Lemma awaiting_allocated (evs : list event) (p : nat) (k : string) :
  awaiting (run evs init).2 !! p = Some k → (p < next (run evs init).2)%nat.
Proof.
  revert p k. induction evs as [|e evs IH] using rev_ind; intros p k.
  - simpl. rewrite lookup_empty. discriminate.
  - rewrite DedupProofs.dedup_run_snoc. destruct (run evs init) as [pend rt]. simpl in *.
    destruct e as [key|q o|q|]; simpl.
    + unfold deduplicate. destruct (pend !! key); simpl; [apply IH|].
      destruct (decide (next rt = p)) as [<-|Hne]; [lia|].
      rewrite lookup_insert_ne by done. intros H. apply IH in H. lia.
    + unfold settle. case_bool_decide; simpl; apply IH.
    + unfold resume. destruct (awaiting rt !! q); [|apply IH].
      destruct (settled rt !! q); [|apply IH]. simpl.
      destruct (decide (q = p)) as [->|Hne]; [by rewrite lookup_delete_eq|].
      rewrite lookup_delete_ne by done. apply IH.
    + apply IH.
Qed.

(** X8.  The continuation deletes by key, not by promise.  When [clear()] was
    called while the call suspended on [p] was waiting, and the key has
    been registered again since, the continuation of the old call removes
    the registration of the new operation: that operation is still in
    flight, and the next call for the key starts another one beside
    it. *)
Theorem stale_continuation_unregisters (evs : list event) (key : string) (p : nat)
    (o : outcome) :
  let s := run evs init in
  awaiting s.2 !! p = Some key →
  settled s.2 !! p = Some o →
  let s' := step (Resume p) (step (Call key) (step Clear s)) in
  s'.1 !! key = None
  ∧ awaiting s'.2 !! next s.2 = Some key
  ∧ invoked (step (Call key) s').2
    = invoked s.2 ++ [(key, next s.2); (key, S (next s.2))].
Proof.
  intros s Ha Ho. pose proof (awaiting_allocated evs p key Ha) as Hlt. fold s in Hlt.
  destruct s as [pend rt]. simpl in *.
  set (rt1 := {| settled := settled rt; awaiting := <[next rt := key]> (awaiting rt);
                 invoked := invoked rt ++ [(key, next rt)];
                 callers := callers rt ++ [(key, next rt)]; next := S (next rt) |}).
  assert (deduplicate key ∅ rt = (<[key := next rt]> ∅, rt1)) as ->
    by (unfold deduplicate; by rewrite lookup_empty).
  simpl.
  set (rt2 := {| settled := settled rt1; awaiting := base.delete p (awaiting rt1);
                 invoked := invoked rt1; callers := callers rt1; next := next rt1 |}).
  assert (resume p (<[key := next rt]> ∅) rt1
          = (base.delete key (<[key := next rt]> ∅), rt2)) as ->.
  { unfold resume. simpl. rewrite lookup_insert_ne by lia. by rewrite Ha, Ho. }
  simpl. split; [apply lookup_delete_eq|]. split.
  - rewrite lookup_delete_ne by lia. apply lookup_insert_eq.
  - unfold deduplicate. rewrite lookup_delete_eq. simpl. by rewrite <- app_assoc.
Qed.

Lemma stale_continuation_unregisters_witness :
  let s := run [Call "a"; Settle 0 (Fulfilled VNull)] init in
  let s' := step (Resume 0) (step (Call "a") (step Clear s)) in
  s'.1 !! "a" = None ∧ awaiting s'.2 !! 1%nat = Some "a"
  ∧ invoked (step (Call "a") s').2 = [("a", 0%nat); ("a", 1%nat); ("a", 2%nat)].
Proof.
  exact (stale_continuation_unregisters [Call "a"; Settle 0 (Fulfilled VNull)] "a" 0
           (Fulfilled VNull) eq_refl eq_refl).
Defined.

End DedupMore.

(** ** The request queue: position, progress, outcomes *)

Module RequestThrottleMore.
Import RequestThrottle RequestThrottleProofs.

(** *** Where a new task goes *)

Lemma filter_none {A} (P : A → Prop) `{∀ x, Decision (P x)} (l : list A) :
  (∀ y, y ∈ l → ¬ P y) → filter P l = [].
Proof.
  induction l as [|x l IH]; intros Hall; [done|].
  rewrite filter_cons_False by (apply Hall; by left). apply IH.
  intros y Hy. apply Hall. by right.
Qed.

Lemma filter_all {A} (P : A → Prop) `{∀ x, Decision (P x)} (l : list A) :
  (∀ y, y ∈ l → P y) → filter P l = l.
Proof.
  induction l as [|x l IH]; intros Hall; [done|].
  rewrite filter_cons_True by (apply Hall; by left). f_equal. apply IH.
  intros y Hy. apply Hall. by right.
Qed.

(** A task at least as urgent as the head of the list goes in front. *)
Lemma insert_front (x : task) (l : list task) :
  (∀ y, head l = Some y → priority y ≤ priority x) → insert x l = x :: l.
Proof.
  destruct l as [|y l]; simpl; [done|]. intros Hy.
  destruct (cmp_lt y x) eqn:Hc; [|done].
  apply cmp_lt_spec in Hc. specialize (Hy y eq_refl). lia.
Qed.

Lemma sort_push_position (queue : list task) (t : task) :
  StronglySorted before queue →
  sort (queue ++ [t])
  = filter (λ y, priority t ≤ priority y) queue
    ++ t :: filter (λ y, priority y < priority t) queue.
Proof.
  unfold sort. rewrite foldr_app. simpl.
  induction queue as [|x queue IH]; intros Hs; [done|].
  apply StronglySorted_cons in Hs as [Hx Hs]. rewrite Forall_forall in Hx.
  simpl. rewrite IH by done.
  destruct (decide (priority t ≤ priority x)) as [Hle|Hgt].
  - rewrite filter_cons_True by done. rewrite (filter_cons_False (λ y, priority y < _)) by lia.
    simpl. apply insert_front. intros y Hy.
    destruct (filter (λ y, priority t ≤ priority y) queue) as [|z l] eqn:Hf; simpl in Hy.
    + injection Hy as <-. done.
    + injection Hy as <-.
      assert (z ∈ queue) as Hz.
      { assert (z ∈ filter (λ y, priority t ≤ priority y) queue) as Hin
          by (rewrite Hf; by left).
        by apply list_elem_of_filter in Hin as [_ Hin]. }
      apply Hx, before_priority in Hz. lia.
  - rewrite filter_cons_False by done. rewrite (filter_cons_True (λ y, priority y < _)) by lia.
    assert (∀ y, y ∈ queue → priority y ≤ priority x) as Hbelow.
    { intros y Hy. apply Hx, before_priority in Hy. lia. }
    rewrite filter_none by (intros y Hy; apply Hbelow in Hy; lia).
    rewrite filter_all by (intros y Hy; apply Hbelow in Hy; lia).
    simpl. rewrite (proj2 (cmp_lt_spec t x)) by lia. f_equal.
    apply insert_front. intros y Hy. apply Hbelow. destruct queue; [done|].
    injection Hy as <-. by left.
Qed.

(** X9.  After any events, a submission puts the new task behind every
    waiting task of the same or a higher priority and in front of every
    waiting task of a lower priority, and leaves the waiting tasks in
    their order; what the submission dispatches at once is taken from the
    front of that list. *)
Theorem submit_position (evs : list event) (prio : Z) :
  let w := run evs init in
  let w' := step (Submit prio) w in
  ∃ new,
    dispatch_order w' = dispatch_order w ++ new
    ∧ new ++ requestQueue (obj w')
      = filter (λ y, prio ≤ priority y) (requestQueue (obj w))
        ++ Task (nextId w) prio (now w)
           :: filter (λ y, priority y < prio) (requestQueue (obj w)).
Proof.
  intros w w'. unfold w'. simpl. unfold queueRequest.
  destruct (resume_ready_fields w) as (Hq & _ & _ & _ & _ & _ & Hnow & Hn & Hb).
  match goal with |- context [processQueue ?w0] =>
    destruct (processQueue_dispatch w0) as (new & Hd & Hq'); exists new end.
  split.
  - rewrite Hd. unfold dispatch_order. simpl. by rewrite Hb.
  - rewrite Hq'. simpl. rewrite Hq, Hnow, Hn.
    apply (sort_push_position (requestQueue (obj w)) (Task (nextId w) prio (now w))).
    apply reachable_queue_sorted. by eexists.
Qed.

(** *** A waiting task is never stranded *)

Lemma join_fmap_filter (P : nat → Prop) `{∀ x, Decision (P x)} (fs : list (list nat)) :
  mjoin ((λ f, filter P f) <$> fs) = filter P (mjoin fs).
Proof.
  induction fs as [|f fs IH]; [done|].
  change (filter P f ++ mjoin ((λ f, filter P f) <$> fs) = filter P (f ++ mjoin fs)).
  by rewrite filter_app, IH.
Qed.

Lemma join_filter_nonempty (fs : list (list nat)) :
  mjoin (filter (λ f, f ≠ []) fs) = mjoin fs.
Proof.
  induction fs as [|f fs IH]; simpl; [done|].
  destruct (decide (f ≠ [])) as [Hf|Hf].
  - rewrite filter_cons_True by done. simpl. by rewrite IH.
  - rewrite filter_cons_False by done. apply dec_stable in Hf. subst f. simpl. exact IH.
Qed.

(** The operations in flight are those the suspended calls of
    [processQueue] wait for, and while the flag is set there is such a
    call. *)
Definition awaited (w : world) : Prop :=
  (0 < maxConcurrent (obj w))%nat
  ∧ inFlight w = mjoin (frames w)
  ∧ (isProcessing (obj w) = true → frames w ≠ []).

(** Someone will look at the queue again: a timer is pending, or the
    flag is set. *)
Definition attended (w : world) : Prop :=
  requestQueue (obj w) = [] ∨ timers w ≠ [] ∨ isProcessing (obj w) = true.

Lemma awaited_processQueue (w : world) :
  awaited w → awaited (processQueue w) ∧ attended (processQueue w).
Proof.
  intros (Hm & Hin & Hfl).
  destruct (processQueue_cases w) as [[-> Hcase]|(Hp & Hq & ->)].
  - split; [done|]. unfold attended. destruct Hcase as [Hp|Hq]; auto.
  - split; [|right; right; done]. split; [done|]. simpl. split.
    + rewrite join_app, Hin. simpl. by rewrite app_nil_r.
    + intros _ Hnil. by apply app_eq_nil in Hnil as [_ ?].
Qed.

Lemma resume_iter_flag (n : nat) (w : world) :
  let w' := Nat.iter (S n) processQueue_resume w in
  isProcessing (obj w') = false
  ∧ (requestQueue (obj w') = [] ∨ timers w' ≠ []).
Proof.
  simpl. split; [done|].
  destruct (resume_iter_fields n w) as (Hq & _).
  rewrite Hq. destruct (requestQueue (obj w)) as [|t q]; [by left|right].
  rewrite bool_decide_eq_true_2 by (simpl; lia).
  intros Hnil. by apply app_eq_nil in Hnil as [_ ?].
Qed.

Lemma awaited_settle (x : nat) (o : outcome) (w : world) :
  awaited w → attended w →
  awaited (settle x o w) ∧ attended (settle x o w).
Proof.
  intros (Hm & Hin & Hfl) Hat. unfold settle. case_bool_decide as Hx; [|done].
  split; [|exact Hat]. split; [done|]. simpl. split.
  - by rewrite join_fmap_filter, Hin.
  - intros Hp Hnil. apply fmap_nil_inv in Hnil. by apply Hfl.
Qed.

(** The calls that are ready resume: no ready call is left, and if there
    was one, the flag is reset and the timer armed for the tasks that
    wait. *)
Lemma awaited_resume_ready (w : world) :
  awaited w → attended w →
  awaited (resume_ready w) ∧ attended (resume_ready w)
  ∧ Forall (λ f, f ≠ []) (frames (resume_ready w))
  ∧ ((∃ f, f ∈ frames w ∧ f = []) →
     isProcessing (obj (resume_ready w)) = false
     ∧ (requestQueue (obj (resume_ready w)) = [] ∨ timers (resume_ready w) ≠ [])).
Proof.
  intros (Hm & Hin & Hfl) Hat.
  destruct (resume_ready_fields w) as (Hq & Hmx & _ & Hfr & Hif & _).
  assert (Forall (λ f, f ≠ []) (frames (resume_ready w))) as Hne.
  { rewrite Hfr. apply Forall_forall. intros f Hf. by apply list_elem_of_filter in Hf as [? _]. }
  assert (inFlight (resume_ready w) = mjoin (frames (resume_ready w))) as Hin'.
  { by rewrite Hif, Hfr, join_filter_nonempty. }
  revert Hq Hmx Hfr Hif Hne Hin'. unfold resume_ready.
  destruct (length (filter (λ f, f = []) (frames w))) as [|n] eqn:Hn;
    intros Hq Hmx Hfr Hif Hne Hin'.
  - simpl in *. apply nil_length_inv in Hn.
    assert (filter (λ f, f ≠ []) (frames w) = frames w) as Hall.
    { apply filter_all. intros f Hf Hf'.
      assert (f ∈ filter (λ f, f = []) (frames w)) as Hin'' by (by apply list_elem_of_filter).
      rewrite Hn in Hin''. by apply elem_of_nil in Hin''. }
    split; [|split; [exact Hat|split; [done|]]].
    + split; [done|]. split; [done|]. simpl. intros Hp. rewrite Hall. by apply Hfl.
    + intros (f & Hf & ->). exfalso.
      assert ([] ∈ filter (λ f : list nat, f = []) (frames w)) as Hin''
        by (by apply list_elem_of_filter).
      rewrite Hn in Hin''. by apply elem_of_nil in Hin''.
  - match goal with |- context [Nat.iter (S n) _ ?w0] =>
      destruct (resume_iter_flag n w0) as (Hflag & Htimer) end.
    split; [|split; [|split; [done|done]]].
    + split; [by rewrite Hmx|]. split; [done|]. rewrite Hflag. discriminate.
    + unfold attended. destruct Htimer; auto.
Qed.

Lemma awaited_clear (w : world) : awaited w → awaited (clear w) ∧ attended (clear w).
Proof.
  intros (Hm & Hin & _). split; [|by left]. split; [done|]. split; [done|]. discriminate.
Qed.

Lemma awaited_action (e : event) (w : world) :
  awaited w → attended w → awaited (action e w) ∧ attended (action e w).
Proof.
  intros Haw Hat. destruct e as [prio|x o|i|d| | |prio|]; simpl.
  - unfold queueRequest. apply awaited_processQueue. exact Haw.
  - by apply awaited_settle.
  - unfold timer_fire. destruct (timers w !! i); [|done].
    case_bool_decide; [|done]. apply awaited_processQueue. exact Haw.
  - unfold tick. case_bool_decide; done.
  - split; [exact Haw|]. unfold attended in *. simpl.
    destruct Hat as [Hq|Hat]; [|by right]. left. by rewrite Hq.
  - by apply awaited_clear.
  - unfold queueRequest. apply awaited_processQueue. exact Haw.
  - by apply awaited_clear.
Qed.

Lemma awaited_step (e : event) (w : world) :
  awaited w → attended w → awaited (step e w) ∧ attended (step e w).
Proof.
  intros Haw Hat. unfold step. destruct (own_task e); [|by apply awaited_action].
  destruct (awaited_resume_ready w Haw Hat) as (Haw' & Hat' & _).
  by apply awaited_action.
Qed.

Lemma awaited_run (evs : list event) :
  awaited (run evs init) ∧ attended (run evs init).
Proof.
  induction evs as [|e evs [IH1 IH2]] using rev_ind.
  - split; [|by left]. split; [simpl; lia|]. split; [done|discriminate].
  - rewrite queue_run_snoc. by apply awaited_step.
Qed.

(** X10.  After any events, [clear()] included, a waiting task is not
    stranded.  Either a timer of the drain loop is pending, or the flag
    is set.  While the flag is set, a call of [processQueue] is
    suspended: on an operation that is in flight, or ready to resume
    because its batch has settled.  And a call that is ready resumes
    before the next task of the event loop: it resets the flag and, if a
    task waits, arms the timer; no call is left ready. *)
Theorem waiting_task_attended (evs : list event) :
  let w := run evs init in
  (requestQueue (obj w) = [] ∨ timers w ≠ [] ∨ isProcessing (obj w) = true)
  ∧ (isProcessing (obj w) = true →
     ∃ f, f ∈ frames w ∧ (f = [] ∨ ∃ x, x ∈ f ∧ x ∈ inFlight w))
  ∧ Forall (λ f, f ≠ []) (frames (resume_ready w))
  ∧ ((∃ f, f ∈ frames w ∧ f = []) →
     isProcessing (obj (resume_ready w)) = false
     ∧ (requestQueue (obj (resume_ready w)) = [] ∨ timers (resume_ready w) ≠ [])).
Proof.
  intros w. destruct (awaited_run evs) as [Haw Hat]. fold w in Haw, Hat.
  destruct (awaited_resume_ready w Haw Hat) as (_ & _ & Hne & Hready).
  destruct Haw as (Hm & Hin & Hfl).
  split; [exact Hat|]. split; [|split; [exact Hne|exact Hready]].
  intros Hp. specialize (Hfl Hp).
  destruct (frames w) as [|f fs] eqn:Hf; [done|].
  exists f. split; [by left|]. destruct f as [|x f]; [by left|right].
  exists x. split; [by left|]. rewrite Hin. simpl. by left.
Qed.

(** *** Outcomes *)

(** A settled task is out of the queue and out of flight. *)
Definition retired (w : world) : Prop :=
  ∀ x, is_Some (outcomes w !! x) →
       (x ∉ inFlight w) ∧ (x ∉ tid <$> requestQueue (obj w)) ∧ (x < nextId w)%nat.

Lemma retired_processQueue (w : world) : retired w → retired (processQueue w).
Proof.
  intros Hr. destruct (started_processQueue w) as [->|(_ & Hq & Hi & Ho & Hn)]; [done|].
  intros x Hx. rewrite Ho in Hx. destruct (Hr x Hx) as (Hfl & Hqu & Hlt).
  rewrite Hq, Hi, Hn. split; [|split; [|done]].
  - intros Hin. apply elem_of_app in Hin as [Hin|Hin]; [done|]. apply Hqu.
    apply list_elem_of_fmap in Hin as (t & -> & Ht).
    apply list_elem_of_fmap_2. by eapply subseteq_take.
  - intros Hin. apply Hqu. apply list_elem_of_fmap in Hin as (t & -> & Ht).
    apply list_elem_of_fmap_2. by eapply subseteq_drop.
Qed.

Lemma retired_queueRequest (prio : Z) (w : world) :
  retired w → retired (queueRequest prio w).
Proof.
  intros Hr. unfold queueRequest. apply retired_processQueue. intros x Hx. simpl in *.
  destruct (Hr x Hx) as (Hfl & Hqu & Hlt). split; [done|]. split; [|lia].
  rewrite sort_perm, fmap_app, elem_of_app. simpl. rewrite list_elem_of_singleton.
  intros [Hin| ->]; [done|lia].
Qed.

Lemma retired_clear (w : world) : retired w → retired (clear w).
Proof.
  intros Hr x Hx. simpl in *. destruct (Hr x Hx) as (Hfl & Hqu & Hlt).
  split; [done|]. split; [|done]. intros Hin. by apply elem_of_nil in Hin.
Qed.

Lemma retired_resume_ready (w : world) : retired w → retired (resume_ready w).
Proof.
  intros Hr. destruct (resume_ready_fields w) as (Hq & _ & _ & _ & Hi & Ho & _ & Hn & _).
  unfold retired. by rewrite Hq, Hi, Ho, Hn.
Qed.

Lemma retired_action (e : event) (w : world) :
  numbered w → retired w → retired (action e w).
Proof.
  intros (N1 & N2 & N3 & N4 & N5) Hr. destruct e as [prio|y o|i|d| | |prio|]; simpl.
  - by apply retired_queueRequest.
  - unfold settle. case_bool_decide as Hy; [|done]. intros x. simpl.
    destruct (decide (y = x)) as [->|Hne].
    + intros _. destruct (N3 x (N4 x Hy)) as [Hlt Hqu]. split; [|done].
      intros Hin. by apply list_elem_of_filter in Hin as [? _].
    + rewrite lookup_insert_ne by done. intros Hx.
      destruct (Hr x Hx) as (Hfl & Hqu & Hlt). split; [|done].
      intros Hin. by apply list_elem_of_filter in Hin as [_ ?].
  - unfold timer_fire. destruct (timers w !! i); [|done].
    case_bool_decide; [|done]. by apply retired_processQueue.
  - unfold tick. case_bool_decide; done.
  - intros x Hx. simpl in *. destruct (Hr x Hx) as (Hfl & Hqu & Hlt).
    split; [done|]. split; [|done]. intros Hin. apply Hqu.
    apply list_elem_of_fmap in Hin as (t & -> & Ht).
    apply list_elem_of_filter in Ht as [_ Ht]. by apply list_elem_of_fmap_2.
  - by apply retired_clear.
  - by apply retired_queueRequest.
  - by apply retired_clear.
Qed.

Lemma retired_step (e : event) (w : world) :
  numbered w → retired w → retired (step e w).
Proof.
  intros Hn Hr. unfold step. destruct (own_task e); [|by apply retired_action].
  apply retired_action; [by apply numbered_resume_ready|by apply retired_resume_ready].
Qed.

Lemma retired_run (evs : list event) : retired (run evs init).
Proof.
  induction evs as [|e evs IH] using rev_ind.
  - intros x [o Hx]. simpl in Hx. rewrite lookup_empty in Hx. discriminate.
  - rewrite queue_run_snoc. apply retired_step; [|done].
    apply numbered_run, numbered_init.
Qed.

(** What a call or callback does to the outcome of a task. *)
Lemma outcomes_action (e : event) (w : world) (x : nat) :
  outcomes (action e w) !! x =
    match e with
    | Settle y o =>
        if bool_decide (y ∈ inFlight w ∧ y = x) then Some o else outcomes w !! x
    | _ => outcomes w !! x
    end.
Proof.
  assert (∀ prio, outcomes (queueRequest prio w) = outcomes w) as Hsub.
  { intros prio. unfold queueRequest.
    match goal with |- context [processQueue ?w0] =>
      destruct (started_processQueue w0) as [->|(_ & _ & _ & -> & _)]; done end. }
  destruct e as [prio|y o|i|d| | |prio|]; simpl.
  - by rewrite Hsub.
  - unfold settle. case_bool_decide as Hy.
    + simpl. case_bool_decide as Hyx.
      * destruct Hyx as [_ ->]. apply lookup_insert_eq.
      * rewrite lookup_insert_ne; [done|]. intros ->. by apply Hyx.
    + rewrite bool_decide_eq_false_2; [done|]. by intros [? _].
  - unfold timer_fire. destruct (timers w !! i); [|done]. case_bool_decide; [|done].
    match goal with |- context [processQueue ?w0] =>
      destruct (started_processQueue w0) as [->|(_ & _ & _ & -> & _)]; done end.
  - unfold tick. by case_bool_decide.
  - done.
  - done.
  - by rewrite Hsub.
  - done.
Qed.

Lemma outcomes_step (e : event) (w : world) (x : nat) :
  outcomes (step e w) !! x =
    match e with
    | Settle y o =>
        if bool_decide (y ∈ inFlight w ∧ y = x) then Some o else outcomes w !! x
    | _ => outcomes w !! x
    end.
Proof.
  unfold step. rewrite outcomes_action.
  destruct (resume_ready_fields w) as (_ & _ & _ & _ & _ & Ho & _).
  destruct e; simpl; by rewrite ?Ho.
Qed.

(** X11.  The outcome of a task is its own and final.  Once the promise
    of a task has been settled, nothing that happens later, [clear()]
    included, changes that.  And the settlement of an operation, success
    or failure, settles the promise of its own task and no other: every
    other task is left as it is, its promise is not settled by it, and if
    its operation is in flight it stays in flight. *)
Theorem outcome_own_and_final (evs0 evs : list event) (x y : nat) (o o' : outcome) :
  let w := run evs0 init in
  (outcomes w !! x = Some o → outcomes (run evs w) !! x = Some o)
  ∧ (x ∈ inFlight w →
     outcomes (step (Settle x o') w) !! x = Some o'
     ∧ x ∉ inFlight (step (Settle x o') w))
  ∧ (y ≠ x →
     outcomes (step (Settle x o') w) !! y = outcomes w !! y
     ∧ (y ∈ inFlight (step (Settle x o') w) ↔ y ∈ inFlight w)).
Proof.
  intros w. split; [|split].
  - intros Hx. induction evs as [|e evs IH] using rev_ind; [done|].
    rewrite queue_run_snoc, outcomes_step. destruct e as [prio|z oz|i|d| | |prio|]; try done.
    case_bool_decide as Hz; [|done]. destruct Hz as [Hz ->]. exfalso.
    unfold w in *. rewrite <- queue_run_app in *.
    destruct (retired_run (evs0 ++ evs) x) as (Hfl & _); [eauto|done].
  - intros Hin. rewrite outcomes_step. rewrite bool_decide_eq_true_2 by done.
    split; [done|]. simpl. unfold settle. rewrite bool_decide_eq_true_2 by done. simpl.
    intros Hin'. by apply list_elem_of_filter in Hin' as [? _].
  - intros Hne. rewrite outcomes_step.
    rewrite bool_decide_eq_false_2 by (intros [_ ?]; congruence). split; [done|].
    simpl. unfold settle. case_bool_decide as Hin; [|done].
    simpl. rewrite list_elem_of_filter. tauto.
Qed.

(** An instance: of a batch of two, one operation fails; the other stays
    in flight and unsettled, and the failure stays what it is. *)
Lemma outcome_own_and_final_witness :
  let w := run [Submit 1; Submit 5; Submit 3; Settle 0 ok; Tick 100; TimerFire 0] init in
  let w' := step (Settle 1 (Rejected (VStr "down"))) w in
  inFlight w = [1; 2]%nat
  ∧ outcomes w' !! 1%nat = Some (Rejected (VStr "down"))
  ∧ outcomes w' !! 2%nat = None ∧ 2%nat ∈ inFlight w'
  ∧ outcomes (run [Settle 1 ok; Clear; Submit 1; Settle 0 (Rejected VNull)] w) !! 0%nat
    = Some ok.
Proof.
  intros w w'.
  destruct (outcome_own_and_final
              [Submit 1; Submit 5; Submit 3; Settle 0 ok; Tick 100; TimerFire 0]
              [Settle 1 ok; Clear; Submit 1; Settle 0 (Rejected VNull)]
              1 2 ok (Rejected (VStr "down"))) as (_ & Hown & Hother).
  destruct (outcome_own_and_final
              [Submit 1; Submit 5; Submit 3; Settle 0 ok; Tick 100; TimerFire 0]
              [Settle 1 ok; Clear; Submit 1; Settle 0 (Rejected VNull)]
              0 2 ok (Rejected (VStr "down"))) as (Hfinal & _ & _).
  split; [reflexivity|].
  split; [apply Hown; apply elem_of_cons; by left|].
  destruct (Hother ltac:(discriminate)) as [Hout Hfl].
  split; [exact (eq_trans Hout eq_refl)|].
  split; [apply Hfl; apply elem_of_cons; right; by apply list_elem_of_singleton|].
  exact (Hfinal eq_refl).
Defined.

(** *** No task is dropped but by the sweep and [clear()] *)

Definition keeps_tasks (e : event) : bool :=
  match e with
  | Sweep | Clear | ThenClear => false
  | _ => true
  end.

(** Every task submitted so far is queued, in flight or settled. *)
Definition accounted (w : world) : Prop :=
  ∀ x, (x < nextId w)%nat →
       x ∈ tid <$> requestQueue (obj w) ∨ x ∈ inFlight w ∨ is_Some (outcomes w !! x).

Lemma accounted_processQueue (w : world) : accounted w → accounted (processQueue w).
Proof.
  intros Ha. destruct (started_processQueue w) as [->|(_ & Hq & Hi & Ho & Hn)]; [done|].
  intros x Hx. rewrite Hn in Hx. rewrite Hq, Hi, Ho.
  destruct (Ha x Hx) as [Hin|[Hin|Hin]]; [|right; left; apply elem_of_app; by left|by right; right].
  rewrite <- (take_drop (maxConcurrent (obj w)) (requestQueue (obj w))) in Hin.
  rewrite fmap_app in Hin. apply elem_of_app in Hin as [Hin|Hin]; [|by left].
  right; left. apply elem_of_app. by right.
Qed.

Lemma accounted_queueRequest (prio : Z) (w : world) :
  accounted w → accounted (queueRequest prio w).
Proof.
  intros Ha. unfold queueRequest. apply accounted_processQueue. intros x Hx. simpl in *.
  rewrite sort_perm, fmap_app, elem_of_app. simpl. rewrite list_elem_of_singleton.
  destruct (decide (x = nextId w)) as [->|Hne]; [by left; right|].
  destruct (Ha x) as [Hin|[Hin|Hin]]; [lia|by left; left|by right; left|by right; right].
Qed.

Lemma accounted_resume_ready (w : world) : accounted w → accounted (resume_ready w).
Proof.
  intros Ha. destruct (resume_ready_fields w) as (Hq & _ & _ & _ & Hi & Ho & _ & Hn & _).
  unfold accounted. by rewrite Hq, Hi, Ho, Hn.
Qed.

Lemma accounted_action (e : event) (w : world) :
  keeps_tasks e = true → accounted w → accounted (action e w).
Proof.
  intros Hk Ha. destruct e as [prio|y o|i|d| | |prio|]; simpl; try discriminate.
  - by apply accounted_queueRequest.
  - unfold settle. case_bool_decide as Hy; [|done].
    intros x. simpl. intros Hx.
    destruct (decide (y = x)) as [->|Hne].
    + right; right. rewrite lookup_insert_eq. eauto.
    + rewrite lookup_insert_ne by done. rewrite list_elem_of_filter.
      destruct (Ha x Hx) as [Hin|[Hin|Hin]]; auto.
  - unfold timer_fire. destruct (timers w !! i); [|done].
    case_bool_decide; [|done]. by apply accounted_processQueue.
  - unfold tick. case_bool_decide; done.
  - by apply accounted_queueRequest.
Qed.

Lemma accounted_step (e : event) (w : world) :
  keeps_tasks e = true → accounted w → accounted (step e w).
Proof.
  intros Hk. apply (step_keeps accounted);
    [apply accounted_resume_ready|intros w0; by apply accounted_action].
Qed.

(** X12.  As long as neither the sweep runs nor [clear()] is called, every
    task that was submitted is waiting in the queue, in flight, or
    settled: the queue itself loses no task. *)
Theorem no_task_lost (evs : list event) (x : nat) :
  forallb keeps_tasks evs = true →
  let w := run evs init in
  (x < nextId w)%nat →
  x ∈ tid <$> requestQueue (obj w) ∨ x ∈ inFlight w ∨ is_Some (outcomes w !! x).
Proof.
  intros Hk w. assert (accounted w) as Ha; [|by apply Ha].
  unfold w. clear w. induction evs as [|e evs IH] using rev_ind.
  - intros y Hy. simpl in Hy. lia.
  - rewrite forallb_app in Hk. apply andb_true_iff in Hk as [Hk He]. simpl in He.
    rewrite andb_true_r in He. rewrite queue_run_snoc. apply accounted_step; auto.
Qed.

Lemma no_task_lost_witness :
  let w := run [Submit 1; Submit 5; Submit 1; Submit 10; Submit 5; Settle 0 ok] init in
  4%nat ∈ tid <$> requestQueue (obj w) ∨ 4%nat ∈ inFlight w
  ∨ is_Some (outcomes w !! 4%nat).
Proof.
  exact (no_task_lost [Submit 1; Submit 5; Submit 1; Submit 10; Submit 5; Settle 0 ok]
           4 eq_refl ltac:(vm_compute; lia)).
Defined.

End RequestThrottleMore.

(** ** The request queue: [clear()] *)

Module RequestThrottleClear.
Import RequestThrottle RequestThrottleProofs RequestThrottleMore.

(** X13.  [clear()] of the queue abandons what waits and spares what runs.
    A task that is queued when [clear()] is called is never dispatched
    and its promise is never settled, whatever happens later: like the
    sweep, [clear()] tells no caller.  An operation that is in flight is
    not cancelled: it still settles, and its outcome still reaches its
    caller. *)
Theorem clear_abandons_queued_tasks (evs0 evs : list event) (t : task) :
  let w := run evs0 init in
  t ∈ requestQueue (obj w) →
  let w' := run evs (step Clear w) in
  (t ∉ dispatch_order w')
  ∧ outcomes w' !! tid t = None
  ∧ ∀ x o, x ∈ inFlight w → outcomes (step (Settle x o) (step Clear w)) !! x = Some o.
Proof.
  intros w Ht w'.
  pose proof (numbered_run evs0 init numbered_init) as Hnum. fold w in Hnum.
  destruct (resume_ready_fields w) as (Hq & _ & _ & _ & Hi & _).
  assert (abandoned (tid t) (step Clear w)) as Hab.
  { destruct (numbered_resume_ready w Hnum) as (N1 & N2 & N3 & _ & _).
    unfold abandoned, started, dispatch_order; simpl. split; [apply N1; by rewrite Hq|]. split.
    - intros Hin. by apply elem_of_nil in Hin.
    - intros Hin. apply N3 in Hin as [_ Hnq]. apply Hnq. rewrite Hq.
      by apply list_elem_of_fmap_2. }
  pose proof (abandoned_run _ evs _ Hab) as (_ & _ & Hs). fold w' in Hs.
  pose proof (numbered_run evs _ (numbered_step Clear w Hnum)) as (_ & _ & _ & _ & N5).
  fold w' in N5.
  split; [|split].
  - intros Hin. apply Hs. by apply list_elem_of_fmap_2.
  - destruct (outcomes w' !! tid t) eqn:E; [|done]. exfalso. apply Hs, N5. eauto.
  - intros x o Hx. rewrite outcomes_step. simpl.
    rewrite bool_decide_eq_true_2; [done|]. split; [|done]. by rewrite Hi.
Qed.

Lemma clear_abandons_queued_tasks_witness :
  let w := run [Submit 1; Submit 5] init in
  let w' := run [Settle 0 ok; Submit 1; Settle 2 ok] (step Clear w) in
  outcomes w' !! 1%nat = None ∧ outcomes w' !! 0%nat = Some ok.
Proof.
  intros w w'.
  assert (Task 1 5 0 ∈ requestQueue (obj w)) as Hin
    by (apply list_elem_of_singleton; reflexivity).
  split; [|reflexivity].
  exact (proj1 (proj2 (clear_abandons_queued_tasks [Submit 1; Submit 5]
                         [Settle 0 ok; Submit 1; Settle 2 ok] (Task 1 5 0) Hin))).
Defined.

End RequestThrottleClear.

(** ** [debounce] and [throttle]

    Both methods of [RequestThrottle] return a closure over one variable
    ([timeoutId], [inThrottle]).  The closure is embedded as a state
    machine over that variable, the timers it has set and the clock.
    [func] is represented by the log of its invocations; it does not
    call the closure from within.  The timers are those of [setTimeout]:
    a timer set with the delay [ms] fires no earlier than [Js.earliest ms]
    later. *)

Module Debounce.

Definition args : Type := list value.

(** [timeoutId] is the variable of the closure; [timers] are the pending
    timers by their identifier, each with the arguments its callback will
    pass and the earliest time it can fire.  [calls] logs the calls of
    the debounced function; [invocations] logs the calls of [func], each
    with the number of calls of the debounced function made until then.
    [func] is called from the callback of the timer: whether it returns
    or throws makes no difference to the closure. *)
Record state : Type := State {
  timeoutId : option nat;
  timers : gmap nat (args * Z);
  nextTimer : nat;
  now : Z;
  calls : list (args * Z);
  invocations : list (args * Z * nat)
}.

Definition init : state :=
  {| timeoutId := None; timers := ∅; nextTimer := 0%nat; now := 0; calls := [];
     invocations := [] |}.

Section Debounced.

(** [delay], 300 by default. *)
Variable delay : Z.

(** [clearTimeout(timeoutId)]: nothing happens for [undefined] or for a
    timer that has fired. *)
Definition clearTimeout (id : option nat) (ts : gmap nat (args * Z)) : gmap nat (args * Z) :=
  match id with
  | Some i => base.delete i ts
  | None => ts
  end.

(** The returned function:
    [clearTimeout(timeoutId); timeoutId = setTimeout(..., delay)]. *)
Definition debounced (a : args) (s : state) : state :=
  {| timeoutId := Some (nextTimer s);
     timers := <[nextTimer s := (a, now s + earliest delay)]>
                 (clearTimeout (timeoutId s) (timers s));
     nextTimer := S (nextTimer s);
     now := now s;
     calls := calls s ++ [(a, now s)];
     invocations := invocations s |}.

(** Timer [i] fires, no earlier than [setTimeout] allows:
    [func.apply(this, args)]. *)
Definition fire (i : nat) (s : state) : state :=
  match timers s !! i with
  | Some (a, due) =>
      if bool_decide (due ≤ now s) then
        {| timeoutId := timeoutId s; timers := base.delete i (timers s);
           nextTimer := nextTimer s; now := now s; calls := calls s;
           invocations := invocations s ++ [(a, now s, length (calls s))] |}
      else s
  | None => s
  end.

Inductive event : Type :=
| Invoke (a : args)
| Fire (i : nat)
| Tick (d : Z).

Definition step (e : event) (s : state) : state :=
  match e with
  | Invoke a => debounced a s
  | Fire i => fire i s
  | Tick d =>
      if bool_decide (0 ≤ d) then
        {| timeoutId := timeoutId s; timers := timers s; nextTimer := nextTimer s;
           now := now s + d; calls := calls s; invocations := invocations s |}
      else s
  end.

Definition run (evs : list event) (s : state) : state :=
  fold_left (λ s e, step e s) evs s.

(** Either no timer is pending, or the one pending timer is that of the
    latest call; [func] has been invoked for calls that had become the
    latest, once each at most. *)
Definition settled_down (s : state) : Prop :=
  ((timers s = ∅ ∧ (length (invocations s) ≤ length (calls s))%nat)
   ∨ (∃ i a t0, timers s = {[i := (a, t0 + earliest delay)]} ∧ timeoutId s = Some i
                ∧ last (calls s) = Some (a, t0)
                ∧ (length (invocations s) < length (calls s))%nat))
  ∧ ∀ a t n, (a, t, n) ∈ invocations s →
             (n ≤ length (calls s))%nat
             ∧ ∃ t0, last (take n (calls s)) = Some (a, t0) ∧ t0 + earliest delay ≤ t.

Lemma settled_down_step (e : event) (s : state) :
  settled_down s → settled_down (step e s).
Proof.
  intros [Hpend Hlog]. destruct e as [a|i|d]; simpl.
  - split.
    + right. exists (nextTimer s), a, (now s). simpl.
      split; [|split; [done|split; [by rewrite last_snoc|]]].
      * destruct Hpend as [[-> _]|(i & a' & t0 & -> & -> & _)]; simpl.
        -- destruct (timeoutId s); simpl; [rewrite delete_empty|]; done.
        -- by rewrite delete_singleton_eq.
      * rewrite length_app. simpl.
        destruct Hpend as [[_ ?]|(_ & _ & _ & _ & _ & _ & ?)]; lia.
    + simpl. intros a' t n Hin. destruct (Hlog a' t n Hin) as (Hn & t0 & Hlast & Hle).
      split; [rewrite length_app; lia|]. exists t0. split; [|done].
      by rewrite take_app_le by lia.
  - unfold fire. destruct (timers s !! i) as [[a due]|] eqn:Hi; [|done].
    case_bool_decide as Hdue; [|done].
    destruct Hpend as [[He _]|(j & a' & t0 & Hts & Hid & Hlast & Hlen)].
    { rewrite He, lookup_empty in Hi. discriminate. }
    rewrite Hts in Hi. apply lookup_singleton_Some in Hi as [<- [= <- <-]].
    split; simpl.
    + left. rewrite Hts, delete_singleton_eq. split; [done|].
      rewrite length_app. simpl. lia.
    + intros a'' t n Hin. apply elem_of_app in Hin as [Hin|Hin]; [by apply Hlog|].
      apply list_elem_of_singleton in Hin as [= -> -> ->].
      split; [done|]. exists t0. rewrite take_ge by lia. split; [done|lia].
  - case_bool_decide; [|done]. split; [exact Hpend|exact Hlog].
Qed.

End Debounced.

Lemma settled_down_run (delay : Z) (evs : list event) :
  settled_down delay (run delay evs init).
Proof.
  induction evs as [|e evs IH] using rev_ind.
  - split; [left; simpl; split; [done|lia]|]. intros a t n Hin. by apply elem_of_nil in Hin.
  - unfold run. rewrite fold_left_app. simpl. by apply settled_down_step.
Qed.

Lemma earliest_in_range (ms : Z) : 0 ≤ ms ≤ 2147483647 → earliest ms = ms.
Proof. intros H. unfold earliest. by rewrite bool_decide_eq_true_2. Qed.

(** X14.  A debounced function passes on the latest call only, and late.
    After any calls, timers and passing of time: at most one timer is
    pending; every invocation of [func] has the arguments of the call
    that was the latest one at that moment (every call before it was
    cancelled by the next), made at least [Js.earliest delay] earlier,
    which is [delay] itself for a delay from [0] to [2^31 - 1], the
    delays that [setTimeout] honours; and [func] has been invoked no more
    often than the debounced function was called. *)
Theorem debounce_passes_latest_call (delay : Z) (evs : list event) :
  let s := run delay evs init in
  (size (timers s) ≤ 1)%nat
  ∧ (length (invocations s) ≤ length (calls s))%nat
  ∧ ∀ a t n, (a, t, n) ∈ invocations s →
             ∃ t0, last (take n (calls s)) = Some (a, t0)
                   ∧ t0 + earliest delay ≤ t
                   ∧ (0 ≤ delay ≤ 2147483647 → t0 + delay ≤ t).
Proof.
  intros s. destruct (settled_down_run delay evs) as [Hpend Hlog]. fold s in Hpend, Hlog.
  split; [|split].
  - destruct Hpend as [[-> _]|(i & a & t0 & -> & _)].
    + rewrite map_size_empty. lia.
    + rewrite map_size_singleton. lia.
  - destruct Hpend as [[_ ?]|(_ & _ & _ & _ & _ & _ & ?)]; lia.
  - intros a t n Hin. destruct (Hlog a t n Hin) as (_ & t0 & Hlast & Hle).
    exists t0. split; [done|]. split; [done|]. intros Hr.
    by rewrite earliest_in_range in Hle.
Qed.

(** Three calls in quick succession, then quiet: one invocation, with the
    arguments of the third.  With a delay beyond the range of the timer
    the invocation can come at once. *)
Lemma debounce_burst :
  invocations (run 300 [Invoke [VNum 1]; Tick 100; Invoke [VNum 2]; Tick 100;
                        Invoke [VNum 3]; Tick 300; Fire 0; Fire 1; Fire 2] init)
  = [([VNum 3], 500, 3%nat)]
  ∧ invocations (run 2147483648 [Invoke [VNum 1]; Fire 0] init) = [([VNum 1], 0, 1%nat)].
Proof. split; reflexivity. Qed.

End Debounce.

Module Throttle.

Definition args : Type := list value.

(** [inThrottle] is the variable of the closure ([undefined] at first,
    which the test [!inThrottle] reads as false); [timers] are the
    earliest times at which the pending
    [setTimeout(() => inThrottle = false, limit)] can fire.
    [invocations] logs the calls of [func], each with its time and with
    whether it returned ([true]) or threw ([false]). *)
Record state : Type := State {
  inThrottle : bool;
  timers : list Z;
  now : Z;
  invocations : list (args * Z * bool)
}.

Definition init : state :=
  {| inThrottle := false; timers := []; now := 0; invocations := [] |}.

Section Throttled.

(** [limit], 1000 by default. *)
Variable limit : Z.

(** The returned function:
<<
    if (!inThrottle) {
      func.apply(this, args);
      inThrottle = true;
      setTimeout(() => inThrottle = false, limit);
    }
>>
    [returned] tells how this call of [func] ends.  When [func] throws,
    the exception leaves the function before [inThrottle] is set and
    before the timer is. *)
Definition throttled (a : args) (returned : bool) (s : state) : state :=
  if negb (inThrottle s) then
    if returned then
      {| inThrottle := true; timers := timers s ++ [now s + earliest limit];
         now := now s; invocations := invocations s ++ [(a, now s, true)] |}
    else
      {| inThrottle := inThrottle s; timers := timers s; now := now s;
         invocations := invocations s ++ [(a, now s, false)] |}
  else s.

(** The [i]-th pending timer fires, no earlier than [setTimeout] allows. *)
Definition fire (i : nat) (s : state) : state :=
  match timers s !! i with
  | Some due =>
      if bool_decide (due ≤ now s) then
        {| inThrottle := false; timers := base.delete i (timers s); now := now s;
           invocations := invocations s |}
      else s
  | None => s
  end.

Inductive event : Type :=
| Invoke (a : args) (returned : bool)
| Fire (i : nat)
| Tick (d : Z).

Definition step (e : event) (s : state) : state :=
  match e with
  | Invoke a returned => throttled a returned s
  | Fire i => fire i s
  | Tick d =>
      if bool_decide (0 ≤ d) then
        {| inThrottle := inThrottle s; timers := timers s; now := now s + d;
           invocations := invocations s |}
      else s
  end.

Definition run (evs : list event) (s : state) : state :=
  fold_left (λ s e, step e s) evs s.

(** After an invocation that returned, the next invocation is at least
    [gap] later. *)
Fixpoint apart (gap : Z) (log : list (args * Z * bool)) : Prop :=
  match log with
  | [] => True
  | (_, t1, returned) :: rest =>
      match rest with
      | [] => True
      | (_, t2, _) :: _ => returned = true → t1 + gap ≤ t2
      end ∧ apart gap rest
  end.

Lemma apart_snoc (gap : Z) (log : list (args * Z * bool)) (a : args) (t : Z) (r : bool) :
  apart gap log → (∀ a' t', last log = Some (a', t', true) → t' + gap ≤ t) →
  apart gap (log ++ [(a, t, r)]).
Proof.
  induction log as [|[[a1 t1] r1] log IH]; intros Hap Hlast; simpl; [done|].
  destruct Hap as [Hhead Hap]. destruct log as [|[[a2 t2] r2] log].
  - simpl. split; [|done]. intros ->. by eapply Hlast.
  - split; [done|]. apply IH; [done|]. intros a' t' Hl. by eapply Hlast.
Qed.

(** While [inThrottle] is set, the last invocation returned, and the one
    pending timer is that of this invocation; otherwise no timer is
    pending, and if the last invocation returned, it did so long enough
    ago. *)
Definition cooled (s : state) : Prop :=
  apart (earliest limit) (invocations s)
  ∧ if inThrottle s
    then ∃ a t, last (invocations s) = Some (a, t, true)
                ∧ timers s = [t + earliest limit] ∧ t ≤ now s
    else timers s = []
         ∧ ∀ a t, last (invocations s) = Some (a, t, true) → t + earliest limit ≤ now s.

Lemma cooled_step (e : event) (s : state) : cooled s → cooled (step e s).
Proof.
  intros [Hap Hst]. destruct e as [a r|i|d]; simpl.
  - unfold throttled. destruct (inThrottle s) eqn:Hin; simpl; [by split; [|rewrite Hin]|].
    destruct Hst as [Ht Hlast]. destruct r; split; simpl.
    + apply apart_snoc; [done|]. exact Hlast.
    + exists a, (now s). rewrite last_snoc, Ht. done.
    + apply apart_snoc; [done|]. exact Hlast.
    + split; [done|]. intros a' t'. rewrite last_snoc. discriminate.
  - unfold fire. destruct (timers s !! i) as [due|] eqn:Hi; [|by split].
    case_bool_decide as Hdue; [|by split].
    destruct (inThrottle s) eqn:Hin.
    + destruct Hst as (a & t & Hlast & Hts & Hle). rewrite Hts in Hi.
      destruct i as [|i]; [|done]. injection Hi as <-.
      split; simpl; [done|]. rewrite Hts. split; [done|].
      intros a' t' Hl. rewrite Hlast in Hl. injection Hl as <- <-. done.
    + destruct Hst as [Hts _]. by rewrite Hts in Hi.
  - case_bool_decide as Hd; [|by split]. split; simpl; [done|].
    destruct (inThrottle s).
    + destruct Hst as (a & t & Hlast & Hts & Hle). exists a, t. split; [done|]. split; [done|lia].
    + destruct Hst as [Hts Hlast]. split; [done|]. intros a t Hl. apply Hlast in Hl. lia.
Qed.

End Throttled.

Lemma cooled_run (limit : Z) (evs : list event) : cooled limit (run limit evs init).
Proof.
  induction evs as [|e evs IH] using rev_ind.
  - split; simpl; [done|]. split; [done|]. discriminate.
  - unfold run. rewrite fold_left_app. simpl. by apply cooled_step.
Qed.

(** X15.  A throttled function holds calls back after a call of [func]
    that returned.  After any calls, timers and passing of time: an
    invocation of [func] that returned is followed by the next invocation
    no earlier than [Js.earliest limit] later, which is [limit] itself
    for a limit from [0] to [2^31 - 1]; at most one timer is pending; a
    call made while [inThrottle] is set invokes nothing, then or later;
    and a call made while it is not set invokes [func] at once.  An
    invocation that threw holds nothing back: [inThrottle] stays unset
    and no timer is set. *)
Theorem throttle_spaces_invocations (limit : Z) (evs : list event) (a : args) (r : bool) :
  let s := run limit evs init in
  apart (earliest limit) (invocations s)
  ∧ (0 ≤ limit ≤ 2147483647 → apart limit (invocations s))
  ∧ (length (timers s) ≤ 1)%nat
  ∧ step limit (Invoke a r) s
    = if inThrottle s then s
      else {| inThrottle := r;
              timers := if r then [now s + earliest limit] else [];
              now := now s;
              invocations := invocations s ++ [(a, now s, r)] |}.
Proof.
  intros s. destruct (cooled_run limit evs) as [Hap Hst]. fold s in Hap, Hst.
  split; [done|]. split; [intros Hr; by rewrite Debounce.earliest_in_range in Hap|].
  simpl. unfold throttled. destruct (inThrottle s) eqn:Hin; simpl.
  - destruct Hst as (a' & t & _ & Hts & _). rewrite Hts. simpl. split; [lia|done].
  - destruct Hst as [Hts _]. rewrite Hts. simpl. split; [lia|]. by destruct r.
Qed.

(** Calls at 0, 400 and 1000 with a limit of 1000: the call at 400 is
    dropped, the call at 1000 runs once the timer has reset the flag.
    When the first call of [func] throws, the call at 400 runs. *)
Lemma throttle_drops_calls_in_between :
  invocations (run 1000 [Invoke [VNum 1] true; Tick 400; Invoke [VNum 2] true; Tick 600;
                         Fire 0; Invoke [VNum 3] true] init)
  = [([VNum 1], 0, true); ([VNum 3], 1000, true)]
  ∧ invocations (run 1000 [Invoke [VNum 1] false; Tick 400; Invoke [VNum 2] true] init)
    = [([VNum 1], 0, false); ([VNum 2], 400, true)].
Proof. split; reflexivity. Qed.

End Throttle.

(** ** The fetch hook: its own key, the network, the cache stamp *)

Module UseApiCacheMore.
Import UseApiCache.

(** [clearCache()] of the hook: [globalCache.delete(finalCacheKey)]. *)
Definition clearCache (opt : options) (w : world) : world :=
  set_maps (base.delete (cacheKey opt) (globalCache w)) (pendingRequests w) w.

(** [refetch()]: [globalCache.delete(finalCacheKey); return fetchData()]. *)
Definition refetch (opt : options) (w : world) : nat * world :=
  fetchData opt false (clearCache opt w).

(** [clearAllCache()] *)
Definition clearAllCache (w : world) : world := set_maps ∅ ∅ w.

(** [getCacheStats()], without the list of keys. *)
Definition getCacheStats (w : world) : nat * nat :=
  (size (globalCache w), size (pendingRequests w)).

(** The cleanup of the effect: [mountedRef.current = false]. *)
Definition unmount (w : world) : world :=
  {| globalCache := globalCache w; pendingRequests := pendingRequests w;
     st_data := st_data w; st_loading := st_loading w; st_error := st_error w;
     retryCountRef := retryCountRef w; mountedRef := false;
     promises := promises w; frames := frames w;
     apiCalls := apiCalls w; apiPending := apiPending w; timers := timers w;
     now := now w; next := next w; onErrorLog := onErrorLog w |}.

Section OneHook.

Variable opt : options.

(** *** A hook touches the shared maps at its own key only *)

Definition same_elsewhere (w w' : world) : Prop :=
  ∀ key, key ≠ cacheKey opt →
         globalCache w' !! key = globalCache w !! key
         ∧ pendingRequests w' !! key = pendingRequests w !! key.

Lemma same_elsewhere_refl (w : world) : same_elsewhere w w.
Proof. by intros key _. Qed.

Lemma same_elsewhere_trans (w1 w2 w3 : world) :
  same_elsewhere w1 w2 → same_elsewhere w2 w3 → same_elsewhere w1 w3.
Proof.
  intros H12 H23 key Hne. destruct (H12 key Hne) as [Hc Hp].
  destruct (H23 key Hne) as [Hc' Hp']. split; congruence.
Qed.

Lemma fetchData_elsewhere (isRetry : bool) (w : world) :
  same_elsewhere w (fetchData opt isRetry w).2.
Proof.
  intros key Hne. unfold fetchData, alloc. simpl.
  destruct (enabled opt); simpl; [|done].
  destruct (cache_hit _ _ _); simpl; [done|].
  destruct (pendingRequests w !! cacheKey opt); simpl; [done|].
  destruct (mountedRef w); simpl; [|done].
  by rewrite lookup_insert_ne.
Qed.

Lemma resume_elsewhere (f : frame) (o : outcome) (w : world) :
  same_elsewhere w (resume opt f o w).
Proof.
  intros key Hne.
  destruct f, o; simpl; destruct (mountedRef w); simpl;
    try case_bool_decide; simpl;
    rewrite ?lookup_delete_ne, ?lookup_insert_ne by done; done.
Qed.

Lemma drain_elsewhere (rounds : nat) (w : world) :
  same_elsewhere w (drain opt rounds w).
Proof.
  revert w. induction rounds as [|rounds IH]; intros w; simpl; [apply same_elsewhere_refl|].
  destruct (runnable w (frames w)) as [[[f o] rest]|]; [|apply same_elsewhere_refl].
  eapply same_elsewhere_trans; [|apply IH].
  eapply same_elsewhere_trans; [|apply resume_elsewhere]. by intros key _.
Qed.

Lemma step_elsewhere (e : event) (w : world) : same_elsewhere w (step opt e w).
Proof.
  destruct e as [|p o|self|d]; simpl.
  - eapply same_elsewhere_trans; [apply (fetchData_elsewhere false)|apply drain_elsewhere].
  - unfold api_settle. case_bool_decide; [|apply same_elsewhere_refl].
    eapply same_elsewhere_trans; [|apply drain_elsewhere]. by intros key _.
  - unfold timer_fire. destruct (list_find _ _) as [[i [q due]]|]; [|apply same_elsewhere_refl].
    case_bool_decide; [|apply same_elsewhere_refl].
    match goal with |- context [fetchData opt true ?w0] =>
      pose proof (fetchData_elsewhere true w0) as Hf;
      destruct (fetchData opt true w0) as [p w1] end.
    eapply same_elsewhere_trans; [|apply drain_elsewhere].
    intros key Hne. destruct (Hf key Hne) as [Hc Hp]. simpl in *. by rewrite Hc, Hp.
  - case_bool_decide; [|apply same_elsewhere_refl]. by intros key _.
Qed.

End OneHook.

(** X16.  The dashboard uses the hook five times, with five keys, over the
    same two maps.  Whatever a hook does (fetching, joining, retrying,
    caching a response, removing its registration), the cache entries and
    the registrations under every other key stay as they are. *)
Theorem hook_touches_own_key_only (opt : options) (evs : list event) (w : world)
    (key : string) :
  key ≠ cacheKey opt →
  globalCache (run opt evs w) !! key = globalCache w !! key
  ∧ pendingRequests (run opt evs w) !! key = pendingRequests w !! key.
Proof.
  intros Hne. assert (same_elsewhere opt w (run opt evs w)) as Hs; [|by apply Hs].
  induction evs as [|e evs IH] using rev_ind; [apply same_elsewhere_refl|].
  rewrite UseApiCacheProofs.hook_run_snoc.
  eapply same_elsewhere_trans; [exact IH|apply step_elsewhere].
Qed.

Lemma hook_touches_own_key_only_witness :
  let w := run (defaults "dashboard_kelas") [Fetch; ApiSettle 2 (Fulfilled (VNum 7))] init in
  globalCache (run (defaults "dashboard_kuis")
                 [Fetch; ApiSettle 5 (Rejected VNull); Tick 1000; TimerFire 4] w)
    !! "dashboard_kelas" = Some (Entry (VNum 7) 0).
Proof.
  intros w.
  exact (eq_trans
           (proj1 (hook_touches_own_key_only (defaults "dashboard_kuis")
                     [Fetch; ApiSettle 5 (Rejected VNull); Tick 1000; TimerFire 4] w
                     "dashboard_kelas" ltac:(discriminate)))
           eq_refl).
Defined.

End UseApiCacheMore.

(** ** The fetch hook: when the network is used *)

Module UseApiCacheNet.
Import UseApiCache UseApiCacheMore.

Section OneHook.

Variable opt : options.

(** *** When the network is used *)

Lemma apiCalls_resume (f : frame) (o : outcome) (w : world) :
  apiCalls (resume opt f o w) = apiCalls w.
Proof.
  destruct f, o; simpl; destruct (mountedRef w); simpl; try case_bool_decide; done.
Qed.

Lemma apiCalls_drain (rounds : nat) (w : world) :
  apiCalls (drain opt rounds w) = apiCalls w.
Proof.
  revert w. induction rounds as [|rounds IH]; intros w; simpl; [done|].
  destruct (runnable w (frames w)) as [[[f o] rest]|]; [|done].
  by rewrite IH, apiCalls_resume.
Qed.

(** The test of [fetchData] for calling [apiFunction]. *)
Definition goes_to_network (isRetry : bool) (w : world) : bool :=
  enabled opt
  && bool_decide (cache_hit opt isRetry w = None)
  && bool_decide (pendingRequests w !! cacheKey opt = None)
  && mountedRef w.

Lemma apiCalls_fetchData (isRetry : bool) (w : world) :
  apiCalls (fetchData opt isRetry w).2 =
    if goes_to_network isRetry w then S (apiCalls w) else apiCalls w.
Proof.
  unfold fetchData, goes_to_network, alloc. simpl.
  destruct (enabled opt); simpl; [|done].
  assert (cache_hit opt isRetry
            {| globalCache := globalCache w; pendingRequests := pendingRequests w;
               st_data := st_data w; st_loading := st_loading w; st_error := st_error w;
               retryCountRef := retryCountRef w; mountedRef := mountedRef w;
               promises := <[next w := Pending]> (promises w); frames := frames w;
               apiCalls := apiCalls w; apiPending := apiPending w; timers := timers w;
               now := now w; next := S (next w); onErrorLog := onErrorLog w |}
          = cache_hit opt isRetry w) as -> by done.
  destruct (cache_hit opt isRetry w); simpl; [done|].
  destruct (pendingRequests w !! cacheKey opt); simpl; [done|].
  by destruct (mountedRef w).
Qed.

End OneHook.

(** X17.  A fetch calls the operation exactly when the hook is enabled and
    mounted, the cache holds no fresh entry for the key and no request is
    registered for it; the continuations that run afterwards call
    nothing.  [refetch] deletes the entry first, so it does not look at
    the cache: with no request registered it calls the operation however
    fresh the entry was, and with one registered it joins that request
    without a call. *)
Theorem network_use (opt : options) (w : world) :
  apiCalls (step opt Fetch w)
  = (if goes_to_network opt false w then S (apiCalls w) else apiCalls w)
  ∧ apiCalls (refetch opt w).2
    = (if enabled opt && bool_decide (pendingRequests w !! cacheKey opt = None)
          && mountedRef w
       then S (apiCalls w) else apiCalls w)
  ∧ globalCache (refetch opt w).2 !! cacheKey opt = None.
Proof.
  split; [|split].
  - simpl. unfold microtasks. by rewrite apiCalls_drain, apiCalls_fetchData.
  - unfold refetch. rewrite apiCalls_fetchData. unfold goes_to_network, cache_hit, clearCache.
    simpl. rewrite lookup_delete_eq. simpl.
    by rewrite andb_true_r.
  - unfold refetch, fetchData, alloc, cache_hit, clearCache. simpl.
    rewrite lookup_delete_eq. simpl.
    destruct (enabled opt); simpl; [|apply lookup_delete_eq].
    destruct (pendingRequests w !! cacheKey opt); simpl; [apply lookup_delete_eq|].
    destruct (mountedRef w); simpl; apply lookup_delete_eq.
Qed.

(** X18.  [clearAllCache()] empties both maps, the registrations of requests
    in flight included: the next fetch of an enabled, mounted hook calls
    the operation, whether or not a request for its key is still in
    flight. *)
Theorem clearAllCache_forgets_requests (opt : options) (w : world) :
  getCacheStats (clearAllCache w) = (0%nat, 0%nat)
  ∧ apiCalls (step opt Fetch (clearAllCache w))
    = if enabled opt && mountedRef w then S (apiCalls w) else apiCalls w.
Proof.
  split.
  - unfold getCacheStats, clearAllCache. simpl. by rewrite !map_size_empty.
  - simpl. unfold microtasks. rewrite apiCalls_drain, apiCalls_fetchData.
    unfold goes_to_network, cache_hit, clearAllCache. simpl. rewrite !lookup_empty.
    rewrite !bool_decide_eq_true_2 by done. by rewrite !andb_true_r.
Qed.

End UseApiCacheNet.

(** ** The fetch hook: the time stamp of a cached response *)

Module UseApiCacheStamp.
Import UseApiCache UseApiCacheMore.

Section OneHook.

Variable opt : options.

(** The state after a first [fetchData()] on a hook at rest. *)
Definition requested (w : world) : world :=
  {| globalCache := globalCache w;
     pendingRequests := <[cacheKey opt := S (next w)]> (pendingRequests w);
     st_data := st_data w; st_loading := true; st_error := VNull;
     retryCountRef := retryCountRef w; mountedRef := mountedRef w;
     promises := <[S (S (next w)) := Pending]>
                   (<[S (next w) := Pending]> (<[next w := Pending]> (promises w)));
     frames := [AwaitApi (S (next w)) (S (S (next w))) (now w);
                AwaitRequest (next w) (S (next w))];
     apiCalls := S (apiCalls w);
     apiPending := apiPending w ++ [S (S (next w))];
     timers := timers w; now := now w; next := S (S (S (next w)));
     onErrorLog := onErrorLog w |}.

Lemma fetch_at_rest (w : world) :
  enabled opt = true → mountedRef w = true → frames w = [] →
  pendingRequests w !! cacheKey opt = None →
  cache_hit opt false w = None →
  step opt Fetch w = requested w.
Proof.
  intros He Hm Hf Hp Hc. simpl.
  assert ((fetchData opt false w).2 = requested w) as ->.
  { unfold fetchData, alloc. simpl. rewrite He. simpl.
    match goal with |- context [cache_hit opt false ?w0] =>
      assert (cache_hit opt false w0 = None) as -> by exact Hc end.
    rewrite Hp, Hm. simpl. unfold requested, add_frame, set_maps, set_loop. simpl.
      by rewrite Hf, Hm. }
  unfold microtasks. simpl. unfold resolved. simpl.
  rewrite lookup_insert_eq. rewrite lookup_insert_ne by lia. rewrite lookup_insert_eq.
  done.
Qed.

(** Two states with the same fields are the same state. *)
Lemma world_ext (a b : world) :
  globalCache a = globalCache b → pendingRequests a = pendingRequests b →
  st_data a = st_data b → st_loading a = st_loading b → st_error a = st_error b →
  retryCountRef a = retryCountRef b → mountedRef a = mountedRef b →
  promises a = promises b → frames a = frames b →
  apiCalls a = apiCalls b → apiPending a = apiPending b → timers a = timers b →
  now a = now b → next a = next b → onErrorLog a = onErrorLog b →
  a = b.
Proof. destruct a, b; simpl; intros; by subst. Qed.

(** The state after the response [v] to that request has arrived, [d]
    later. *)
Definition responded (w : world) (d : Z) (v : value) : world :=
  {| globalCache := <[cacheKey opt := Entry v (now w)]> (globalCache w);
     pendingRequests :=
       base.delete (cacheKey opt) (<[cacheKey opt := S (next w)]> (pendingRequests w));
     st_data := v; st_loading := false; st_error := VNull;
     retryCountRef := 0%nat; mountedRef := mountedRef w;
     promises := <[next w := Settled (Fulfilled v)]>
                   (<[S (next w) := Settled (Fulfilled v)]>
                      (<[S (S (next w)) := Settled (Fulfilled v)]>
                         (promises (requested w))));
     frames := [];
     apiCalls := S (apiCalls w);
     apiPending := filter (λ q, q ≠ S (S (next w))) (apiPending w ++ [S (S (next w))]);
     timers := timers w; now := now w + d; next := S (S (S (next w)));
     onErrorLog := onErrorLog w |}.

Lemma run_cons (e : event) (evs : list event) (w : world) :
  run opt (e :: evs) w = run opt evs (step opt e w).
Proof. reflexivity. Qed.

Lemma step_tick (d : Z) (w : world) :
  0 ≤ d → step opt (Tick d) w = set_now (now w + d) w.
Proof. intros Hd. simpl. by rewrite bool_decide_eq_true_2. Qed.

Lemma api_settle_pending (p : nat) (o : outcome) (w : world) :
  p ∈ apiPending w →
  api_settle opt p o w
  = microtasks opt
      (set_promise p (Settled o)
         (set_loop (frames w) (apiCalls w) (filter (λ q, q ≠ p) (apiPending w))
                   (timers w) w)).
Proof. intros Hp. unfold api_settle. by rewrite bool_decide_eq_true_2. Qed.

Lemma resolved_settled (w : world) (p : nat) (o : outcome) :
  promises w !! p = Some (Settled o) → resolved w p = Some o.
Proof. unfold resolved. simpl. by intros ->. Qed.

Lemma runnable_head (w : world) (f : frame) (rest : list frame) (o : outcome) :
  resolved w (awaited_of f) = Some o → runnable w (f :: rest) = Some (f, o, rest).
Proof. simpl. by intros ->. Qed.

Lemma drain_round (n : nat) (w : world) (f : frame) (o : outcome) (rest : list frame) :
  runnable w (frames w) = Some (f, o, rest) →
  drain opt (S n) w
  = drain opt n (resume opt f o (set_loop rest (apiCalls w) (apiPending w) (timers w) w)).
Proof. intros Hr. simpl. by rewrite Hr. Qed.

Lemma resume_request_mounted (self a : nat) (result : value) (w : world) :
  mountedRef w = true →
  resume opt (AwaitRequest self a) (Fulfilled result) w
  = set_promise self (Settled (Fulfilled result))
      (set_maps (globalCache w) (base.delete (cacheKey opt) (pendingRequests w))
         (set_state result false (st_error w) w)).
Proof. intros Hm. unfold resume. by rewrite Hm. Qed.

Lemma response_arrives (w : world) (d : Z) (v : value) :
  mountedRef w = true → 0 ≤ d →
  run opt [Tick d; ApiSettle (S (S (next w))) (Fulfilled v)] (requested w)
  = responded w d v.
Proof.
  intros Hm Hd. rewrite !run_cons, (step_tick d) by done.
  change (run opt [] ?x) with x. change (step opt (ApiSettle ?p ?o) ?x) with (api_settle opt p o x).
  rewrite api_settle_pending by (apply elem_of_app; right; by left).
  unfold microtasks.
  match goal with |- drain opt ?n ?x = _ => change n with 2%nat end.
  erewrite drain_round
    by (apply (runnable_head _ (AwaitApi _ _ _)), resolved_settled, lookup_insert_eq).
  erewrite drain_round
    by (apply (runnable_head _ (AwaitRequest _ _)), resolved_settled, lookup_insert_eq).
  rewrite resume_request_mounted by exact Hm.
  apply world_ext; reflexivity.
Qed.

End OneHook.

(** X20.  A response is cached under the time its request started, not the
    time it arrived.  On a hook at rest (enabled, mounted, nothing
    suspended, no fresh entry and no registration for the key), a fetch
    whose response [v] arrives [d] later ends with [v] shown and returned,
    the registration removed, and the entry [{data: v, timestamp}] stamped
    with the time of the fetch.  So the next fetch is served from the
    cache only if [d < cacheDuration]: a response that took
    [cacheDuration] or longer is fetched again at once. *)
Theorem response_stamped_with_request_time (opt : options) (w : world) (d : Z) (v : value) :
  enabled opt = true → mountedRef w = true → frames w = [] →
  pendingRequests w !! cacheKey opt = None →
  cache_hit opt false w = None →
  0 ≤ d →
  let w1 := run opt [Fetch; Tick d; ApiSettle (S (S (next w))) (Fulfilled v)] w in
  globalCache w1 !! cacheKey opt = Some (Entry v (now w))
  ∧ pendingRequests w1 !! cacheKey opt = None
  ∧ resolved w1 (next w) = Some (Fulfilled v)
  ∧ (st_data w1, st_loading w1, st_error w1) = (v, false, VNull)
  ∧ apiCalls w1 = S (apiCalls w)
  ∧ apiCalls (step opt Fetch w1)
    = if bool_decide (d < cacheDuration opt) then S (apiCalls w) else S (S (apiCalls w)).
Proof.
  intros He Hm Hf Hp Hc Hd w1.
  assert (w1 = responded opt w d v) as ->.
  { unfold w1. change (run opt (Fetch :: ?evs) w) with (run opt evs (step opt Fetch w)).
    rewrite fetch_at_rest by done. by apply response_arrives. }
  split; [apply lookup_insert_eq|]. split; [apply lookup_delete_eq|].
  split; [|split; [done|split; [done|]]].
  - unfold resolved. simpl. by rewrite lookup_insert_eq.
  - simpl. unfold microtasks.
    rewrite UseApiCacheNet.apiCalls_drain, UseApiCacheNet.apiCalls_fetchData.
    unfold UseApiCacheNet.goes_to_network, cache_hit. simpl.
    rewrite He, Hm, lookup_insert_eq, lookup_delete_eq. simpl.
    replace (now w + d - now w) with d by lia.
    by destruct (bool_decide (d < cacheDuration opt)).
Qed.

Lemma response_stamped_with_request_time_witness :
  let opt := defaults "dashboard_kuis" in
  let w1 := run opt [Fetch; Tick 300000; ApiSettle 2 (Fulfilled (VNum 7))] init in
  globalCache w1 !! "dashboard_kuis" = Some (Entry (VNum 7) 0)
  ∧ apiCalls (step opt Fetch w1) = 2%nat.
Proof.
  intros opt w1.
  destruct (response_stamped_with_request_time opt init 300000 (VNum 7)
              eq_refl eq_refl eq_refl eq_refl eq_refl ltac:(discriminate))
    as (Hc & _ & _ & _ & _ & Hn).
  split; [exact Hc|exact Hn].
Defined.

End UseApiCacheStamp.

(** ** The fetch hook after its component has unmounted *)

Module UseApiCacheUnmount.
Import UseApiCache UseApiCacheMore UseApiCacheStamp.

Section OneHook.

Variable opt : options.

(** The state of the hook as the component sees it. *)
Definition shown (w : world) : value * bool * value := (st_data w, st_loading w, st_error w).

Definition frozen (w w' : world) : Prop :=
  shown w' = shown w ∧ mountedRef w' = false.

Lemma cache_hit_retry (w : world) : cache_hit opt true w = None.
Proof.
  unfold cache_hit. destruct (globalCache w !! cacheKey opt); [|done].
  by rewrite andb_false_r.
Qed.

Lemma resume_frozen (f : frame) (o : outcome) (w : world) :
  mountedRef w = false → frozen w (resume opt f o w).
Proof.
  intros Hm. destruct f, o; simpl; rewrite ?Hm; simpl; try case_bool_decide; done.
Qed.

Lemma drain_frozen (rounds : nat) (w : world) :
  mountedRef w = false → frozen w (drain opt rounds w).
Proof.
  revert w. induction rounds as [|rounds IH]; intros w Hm; simpl; [done|].
  destruct (runnable w (frames w)) as [[[f o] rest]|]; [|done].
  match goal with |- frozen _ (drain _ _ (resume _ _ _ ?w0)) =>
    destruct (resume_frozen f o w0 Hm) as [Hs Hm'];
    destruct (IH _ Hm') as [Hs' Hm''] end.
  split; [|done]. by rewrite Hs', Hs.
Qed.

Lemma retry_frozen (w : world) :
  mountedRef w = false → frozen w (fetchData opt true w).2.
Proof.
  intros Hm. unfold fetchData, alloc. simpl.
  destruct (enabled opt); simpl; [|done].
  match goal with |- context [cache_hit opt true ?w0] => rewrite (cache_hit_retry w0) end.
  simpl. destruct (pendingRequests w !! cacheKey opt); simpl; [done|].
  rewrite Hm. done.
Qed.

Lemma step_frozen (e : event) (w : world) :
  e ≠ Fetch → mountedRef w = false → frozen w (step opt e w).
Proof.
  intros He Hm. destruct e as [|p o|self|d]; simpl; [done| | |].
  - unfold api_settle. case_bool_decide; [|done]. unfold microtasks.
    match goal with |- frozen _ (drain _ _ ?w0) => by destruct (drain_frozen (length (frames w0)) w0 Hm) end.
  - unfold timer_fire. destruct (list_find _ _) as [[i [q due]]|]; [|done].
    case_bool_decide; [|done].
    match goal with |- context [fetchData opt true ?w0] =>
      destruct (retry_frozen w0 Hm) as [Hs Hm'];
      destruct (fetchData opt true w0) as [p w1] end.
    simpl in *. unfold microtasks.
    match goal with |- frozen _ (drain _ ?n ?w2) =>
      destruct (drain_frozen n w2 Hm') as [Hs' Hm''] end.
    split; [|done]. rewrite Hs'. exact Hs.
  - by case_bool_decide.
Qed.

(** The continuation of [fetchData] after [await requestPromise] at a
    hook that has unmounted: no state is set, the registration is
    removed. *)
Lemma resume_request_unmounted (self a : nat) (result : value) (w : world) :
  mountedRef w = false →
  resume opt (AwaitRequest self a) (Fulfilled result) w
  = set_promise self (Settled (Fulfilled result))
      (set_maps (globalCache w) (base.delete (cacheKey opt) (pendingRequests w)) w).
Proof. intros Hm. unfold resume. by rewrite Hm. Qed.

(** The state after a first [fetchData()] on a hook at rest, the unmount
    of the component, and the arrival of the response [v], [d] later. *)
Definition responded_unmounted (w : world) (d : Z) (v : value) : world :=
  {| globalCache := <[cacheKey opt := Entry v (now w)]> (globalCache w);
     pendingRequests :=
       base.delete (cacheKey opt) (<[cacheKey opt := S (next w)]> (pendingRequests w));
     st_data := st_data w; st_loading := true; st_error := VNull;
     retryCountRef := 0%nat; mountedRef := false;
     promises := <[next w := Settled (Fulfilled v)]>
                   (<[S (next w) := Settled (Fulfilled v)]>
                      (<[S (S (next w)) := Settled (Fulfilled v)]>
                         (promises (requested opt w))));
     frames := [];
     apiCalls := S (apiCalls w);
     apiPending := filter (λ q, q ≠ S (S (next w))) (apiPending w ++ [S (S (next w))]);
     timers := timers w; now := now w + d; next := S (S (S (next w)));
     onErrorLog := onErrorLog w |}.

Lemma response_arrives_unmounted (w : world) (d : Z) (v : value) :
  0 ≤ d →
  run opt [Tick d; ApiSettle (S (S (next w))) (Fulfilled v)] (unmount (requested opt w))
  = responded_unmounted w d v.
Proof.
  intros Hd. rewrite !run_cons, (step_tick opt d) by done.
  change (run opt [] ?x) with x.
  change (step opt (ApiSettle ?p ?o) ?x) with (api_settle opt p o x).
  rewrite api_settle_pending by (apply elem_of_app; right; by left).
  unfold microtasks.
  match goal with |- drain opt ?n ?x = _ => change n with 2%nat end.
  erewrite drain_round
    by (apply (runnable_head _ (AwaitApi _ _ _)), resolved_settled, lookup_insert_eq).
  erewrite drain_round
    by (apply (runnable_head _ (AwaitRequest _ _)), resolved_settled, lookup_insert_eq).
  rewrite resume_request_unmounted by reflexivity.
  apply world_ext; reflexivity.
Qed.

End OneHook.

(** X19.  After the component has unmounted, the response of a request
    still in flight, its failure, a retry timer or the passing of time
    change nothing of what the hook shows ([data], [loading], [error]).
    The shared maps are served all the same: when a hook at rest fetches
    and its component unmounts before the response arrives, the response
    is put into the cache, stamped with the time of the fetch, the
    registration of the request is removed, and the promise of the fetch
    is fulfilled with the response, while the hook goes on showing
    [loading]. *)
Theorem unmounted_hook_shows_nothing_new (opt : options) (evs : list event) (w : world)
    (d : Z) (v : value) :
  (Forall (λ e, e ≠ Fetch) evs → shown (run opt evs (unmount w)) = shown w)
  ∧ (enabled opt = true → mountedRef w = true → frames w = [] →
     pendingRequests w !! cacheKey opt = None →
     cache_hit opt false w = None →
     0 ≤ d →
     let w1 := run opt [Tick d; ApiSettle (S (S (next w))) (Fulfilled v)]
                   (unmount (step opt Fetch w)) in
     shown w1 = (st_data w, true, VNull)
     ∧ globalCache w1 !! cacheKey opt = Some (Entry v (now w))
     ∧ pendingRequests w1 !! cacheKey opt = None
     ∧ resolved w1 (next w) = Some (Fulfilled v)).
Proof.
  split.
  - intros Hevs.
    assert (frozen (unmount w) (run opt evs (unmount w))) as [Hs _]; [|exact Hs].
    induction evs as [|e evs IH] using rev_ind; [done|].
    apply Forall_app in Hevs as [Hevs He]. inversion He as [|? ? Hne _]; subst.
    destruct (IH Hevs) as [Hs Hm]. rewrite UseApiCacheProofs.hook_run_snoc.
    destruct (step_frozen opt e _ Hne Hm) as [Hs' Hm']. split; [|done]. by rewrite Hs'.
  - intros He Hm Hf Hp Hc Hd w1.
    assert (w1 = responded_unmounted opt w d v) as ->.
    { unfold w1. rewrite fetch_at_rest by done. by apply response_arrives_unmounted. }
    split; [done|]. split; [apply lookup_insert_eq|]. split; [apply lookup_delete_eq|].
    unfold resolved. simpl. by rewrite lookup_insert_eq.
Qed.

Lemma unmounted_hook_shows_nothing_new_witness :
  let opt := defaults "dashboard_kuis" in
  let w := run opt [Fetch] init in
  let w' := run opt [Tick 50; ApiSettle 2 (Fulfilled (VNum 7))] (unmount w) in
  shown w' = (VNull, true, VNull)
  ∧ globalCache w' !! "dashboard_kuis" = Some (Entry (VNum 7) 0)
  ∧ pendingRequests w' !! "dashboard_kuis" = None.
Proof.
  intros opt w w'.
  destruct (unmounted_hook_shows_nothing_new opt
              [Tick 50; ApiSettle 2 (Fulfilled (VNum 7))] w 50 (VNum 7)) as [Hshown _].
  destruct (unmounted_hook_shows_nothing_new opt [] init 50 (VNum 7)) as [_ Hmaps].
  destruct (Hmaps eq_refl eq_refl eq_refl eq_refl eq_refl ltac:(discriminate))
    as (_ & Hc & Hp & _).
  split; [|split; [exact Hc|exact Hp]].
  exact (eq_trans (Hshown ltac:(repeat constructor; discriminate)) eq_refl).
Defined.

End UseApiCacheUnmount.
